(** * ascii-maker: the frame-to-glyph-grid conversion, embedded and verified

    The development follows the two TypeScript sources of the converter:

    - [main.ts]: the colour pipeline ([imageToAsciiWithColor],
      [convertImageToAscii], [convertFramesToAscii], [convert]);
    - the edge-aware variant of the same class ([imageToAscii],
      [gaussianBlur], [cannyEdgeDetection]).

    JavaScript numbers are idealised: a finite number is an exact rational,
    and the three non-finite values of IEEE arithmetic ([Infinity],
    [-Infinity], [NaN]) are kept, because the code can reach them through a
    division by zero.  Rounding of binary64 and signed zeros are not
    modelled. *)

From Stdlib Require Import QArith Qround Qabs Lqa Lia ZArith List Bool.
From Stdlib Require Import Ascii String Qminmax.
From stdpp Require Import base list gmap.

Open Scope Q_scope.

(** ** JavaScript numbers *)

Module JS.

Inductive num : Type :=
| Fin (q : Q)
| PInf
| NInf
| NaN.

Definition of_nat (n : nat) : num := Fin (inject_Z (Z.of_nat n)).
Definition of_Z (z : Z) : num := Fin (inject_Z z).

(** Equality of the denoted values ([Qeq] on finite numbers).  This is the
    equality of the model, not JavaScript's [===] (see [strict_eq]). *)
Definition num_eq (a b : num) : Prop :=
  match a, b with
  | Fin p, Fin q => p == q
  | PInf, PInf => True
  | NInf, NInf => True
  | NaN, NaN => True
  | _, _ => False
  end.

Definition num_eqb (a b : num) : bool :=
  match a, b with
  | Fin p, Fin q => Qeq_bool p q
  | PInf, PInf => true
  | NInf, NInf => true
  | NaN, NaN => true
  | _, _ => false
  end.

Definition Qltb (p q : Q) : bool := negb (Qle_bool q p).

(** [a + b] *)
Definition add (a b : num) : num :=
  match a, b with
  | NaN, _ | _, NaN => NaN
  | Fin p, Fin q => Fin (p + q)
  | PInf, NInf | NInf, PInf => NaN
  | PInf, _ | _, PInf => PInf
  | NInf, _ | _, NInf => NInf
  end.

(** the sign of a finite factor decides an infinite product *)
Definition inf_times (positive : bool) (q : Q) : num :=
  if Qeq_bool q 0 then NaN
  else if Bool.eqb positive (Qltb 0 q) then PInf else NInf.

(** [a * b] *)
Definition mul (a b : num) : num :=
  match a, b with
  | NaN, _ | _, NaN => NaN
  | Fin p, Fin q => Fin (p * q)
  | PInf, Fin q | Fin q, PInf => inf_times true q
  | NInf, Fin q | Fin q, NInf => inf_times false q
  | PInf, PInf | NInf, NInf => PInf
  | PInf, NInf | NInf, PInf => NInf
  end.

(** [a / b]; a zero divisor is read as [+0] *)
Definition div (a b : num) : num :=
  match a, b with
  | NaN, _ | _, NaN => NaN
  | Fin p, Fin q =>
      if Qeq_bool q 0 then
        (if Qeq_bool p 0 then NaN else if Qltb 0 p then PInf else NInf)
      else Fin (p / q)
  | Fin _, PInf | Fin _, NInf => Fin 0
  | PInf, Fin q => if Qltb q 0 then NInf else PInf
  | NInf, Fin q => if Qltb q 0 then PInf else NInf
  | _, _ => NaN
  end.

(** [a < b] *)
Definition lt (a b : num) : bool :=
  match a, b with
  | NaN, _ | _, NaN => false
  | Fin p, Fin q => Qltb p q
  | NInf, NInf | PInf, _ => false
  | NInf, _ => true
  | Fin _, PInf => true
  | Fin _, NInf => false
  end.

(** [a > b] *)
Definition gt (a b : num) : bool := lt b a.

(** [a === b] on numbers *)
Definition strict_eq (a b : num) : bool :=
  match a, b with
  | Fin p, Fin q => Qeq_bool p q
  | PInf, PInf | NInf, NInf => true
  | _, _ => false
  end.

(** [Math.floor] *)
Definition floor (a : num) : num :=
  match a with
  | Fin q => Fin (inject_Z (Qfloor q))
  | _ => a
  end.

(** [Math.round]: the nearest integer, ties towards [+Infinity] *)
Definition round (a : num) : num :=
  match a with
  | Fin q => Fin (inject_Z (Qfloor (q + (1 # 2))))
  | _ => a
  end.

(** Square root of a non-negative rational, truncated to 64 fractional
    bits: exact whenever the root is a dyadic rational of that precision
    (in particular on squares of integers), which is all the concrete
    evaluations below rely on. *)
Definition Qsqrt (q : Q) : Q :=
  Qred (Z.sqrt (Qfloor (q * inject_Z (2 ^ 128))) # (2 ^ 64)).

(** [Math.sqrt] *)
Definition sqrt (a : num) : num :=
  match a with
  | Fin q => if Qltb q 0 then NaN else Fin (Qsqrt q)
  | PInf => PInf
  | _ => NaN
  end.

(** the binary step of [Math.max] *)
Definition max2 (a b : num) : num :=
  match a, b with
  | NaN, _ | _, NaN => NaN
  | _, _ => if lt a b then b else a
  end.

(** [Math.max(...l)]; [-Infinity] on no argument *)
Definition max (l : list num) : num := fold_left max2 l NInf.

(** the binary step of [Math.min] *)
Definition min2 (a b : num) : num :=
  match a, b with
  | NaN, _ | _, NaN => NaN
  | _, _ => if lt b a then b else a
  end.

(** [Math.min(...l)]; [Infinity] on no argument *)
Definition min (l : list num) : num := fold_left min2 l PInf.

(** the integer part of a rational, towards zero *)
Definition Qtrunc (q : Q) : Z :=
  if Qltb q 0 then Qceiling q else Qfloor q.

(** [a % b]: the remainder has the sign of the dividend *)
Definition rem (a b : num) : num :=
  match a, b with
  | NaN, _ | _, NaN => NaN
  | PInf, _ | NInf, _ => NaN
  | Fin p, PInf | Fin p, NInf => Fin p
  | Fin p, Fin q =>
      if Qeq_bool q 0 then NaN
      else Fin (p - q * inject_Z (Qtrunc (p / q)))
  end.

End JS.

Import JS.

Declare Scope js_scope.
Delimit Scope js_scope with js.
Bind Scope js_scope with num.
Infix "+" := JS.add : js_scope.
Infix "*" := JS.mul : js_scope.
Infix "/" := JS.div : js_scope.
Infix "mod" := JS.rem : js_scope.
Infix "==n" := JS.num_eq (at level 70, no associativity).

(** ** Arrays and counted loops *)

Section Arrays.
Context {A : Type}.

(** [new Array(h).fill(0).map(() => new Array(w).fill(v))]: [h] fresh
    rows of [w] copies of [v] *)
Definition mkArray2 (h w : nat) (v : A) : list (list A) :=
  replicate h (replicate w v).

(** [a[y][x]], with [d] standing for what a read outside a row yields
    ([undefined], which is [NaN] as soon as arithmetic touches it).  No
    loop below reads a row that does not exist. *)
Definition get2 (d : A) (a : list (list A)) (y x : nat) : A :=
  match a !! y with
  | Some row => match row !! x with Some v => v | None => d end
  | None => d
  end.

(** [a[y][x] = v] for a position inside the array, the only kind of
    write the loops below perform *)
Definition set2 (a : list (list A)) (y x : nat) (v : A) : list (list A) :=
  match a !! y with
  | Some row => <[y := <[x := v]> row]> a
  | None => a
  end.

(** every row of [a] has [w] entries and there are [h] rows *)
Definition rect (h w : nat) (a : list (list A)) : Prop :=
  length a = h ∧ Forall (λ row, length row = w) a.
End Arrays.

(** [for (let i = start; fuel-bounded && cond(i); i++) s = body(i, s)]: the
    loop leaves at the first [i] whose condition fails. *)
Fixpoint loop_from {S : Type} (fuel i : nat) (cond : nat → bool)
    (body : nat → S → S) (s : S) : S :=
  match fuel with
  | O => s
  | Datatypes.S fuel' =>
      if cond i then loop_from fuel' (Datatypes.S i) cond body (body i s)
      else s
  end.

(** [for (let i = lo; i < hi; i++) s = body(i, s)] *)
Definition for_lt {S : Type} (lo hi : nat) (body : nat → S → S) (s : S) : S :=
  loop_from (hi - lo) lo (λ _, true) body s.

(** ** Images *)

(** What [ctx.getImageData(0, 0, image.width, image.height)] gives: the
    dimensions and the flat RGBA bytes. *)
Record Image : Type := {
  image_width : nat;
  image_height : nat;
  image_data : list Z
}.

(** [pixels[i]]: a byte, or [undefined] (in arithmetic: [NaN]) past the end *)
Definition pixels (image : Image) (i : nat) : num :=
  match image_data image !! i with
  | Some b => of_Z b
  | None => NaN
  end.

(** a decoded image: positive dimensions, four bytes per pixel *)
Definition well_formed (image : Image) : Prop :=
  (0 < image_width image)%nat ∧ (0 < image_height image)%nat ∧
  length (image_data image) = (4 * (image_width image * image_height image))%nat ∧
  Forall (λ b, (0 <= b <= 255)%Z) (image_data image).

(** [0.299 * r + 0.587 * g + 0.114 * b] *)
Definition luminance (r g b : num) : num :=
  (Fin (299 # 1000) * r + Fin (587 # 1000) * g + Fin (114 # 1000) * b)%js.

(** the test that clears [isExtreme]: the pixel is neither pure black nor
    pure white *)
Definition notExtreme (r g b : num) : bool :=
  negb ((strict_eq r (Fin 0) && strict_eq g (Fin 0) && strict_eq b (Fin 0))
        || (strict_eq r (Fin 255) && strict_eq g (Fin 255) && strict_eq b (Fin 255))).

(** ** Smoothing filter and edge strength (edge-aware variant) *)

Definition kernel : list (list Z) :=
  [ [1; 4; 6; 4; 1];
    [4; 16; 24; 16; 4];
    [6; 24; 36; 24; 6];
    [4; 16; 24; 16; 4];
    [1; 4; 6; 4; 1] ]%Z.

Definition kernelSum : num := Fin 256.

Definition weight (k : list (list Z)) (ky kx : nat) : num :=
  match k !! ky with
  | Some row => match row !! kx with Some v => of_Z v | None => NaN end
  | None => NaN
  end.

(** the two inner loops of [gaussianBlur]: the 5x5 weighted sum around
    [(y, x)] *)
Definition blurSum (data : list (list num)) (y x : nat) : num :=
  for_lt 0 5 (λ ky sum,
    for_lt 0 5 (λ kx sum,
      (sum + get2 NaN data (y + ky - 2) (x + kx - 2) * weight kernel ky kx)%js)
      sum)
    (Fin 0).

(** [data[0].length]; the fields passed in have at least one row *)
Definition row_length (data : list (list num)) : nat :=
  match data !! 0%nat with Some row => length row | None => 0%nat end.

Definition gaussianBlur (data : list (list num)) : list (list num) :=
  let height := length data in
  let width := row_length data in
  let result := mkArray2 height width (Fin 0) in
  for_lt 2 (height - 2) (λ y result,
    for_lt 2 (width - 2) (λ x result,
      set2 result y x (blurSum data y x / kernelSum)%js)
      result)
    result.

Definition sobelX : list (list Z) :=
  [ [-1; 0; 1]; [-2; 0; 2]; [-1; 0; 1] ]%Z.

Definition sobelY : list (list Z) :=
  [ [-1; -2; -1]; [0; 0; 0]; [1; 2; 1] ]%Z.

(** the 3x3 loops of [cannyEdgeDetection]: the pair [(gx, gy)] at [(y, x)] *)
Definition gradient (data : list (list num)) (y x : nat) : num * num :=
  for_lt 0 3 (λ ky g,
    for_lt 0 3 (λ kx '(gx, gy),
      let val := get2 NaN data (y + ky - 1) (x + kx - 1) in
      ((gx + val * weight sobelX ky kx)%js, (gy + val * weight sobelY ky kx)%js))
      g)
    (Fin 0, Fin 0).

(** first loop nest of [cannyEdgeDetection]: gradient magnitudes inside a
    one-pixel border of zeros *)
Definition magnitudes (data : list (list num)) : list (list num) :=
  let height := length data in
  let width := row_length data in
  let result := mkArray2 height width (Fin 0) in
  for_lt 1 (height - 1) (λ y result,
    for_lt 1 (width - 1) (λ x result,
      let '(gx, gy) := gradient data y x in
      set2 result y x (JS.sqrt (gx * gx + gy * gy)%js))
      result)
    result.

(** second loop nest ("Normalize result"): every entry divided by the
    field maximum and scaled by 255, in place *)
Definition normalize (result : list (list num)) : list (list num) :=
  let height := length result in
  let width := row_length result in
  let maxMagnitude := JS.max (map JS.max result) in
  for_lt 0 height (λ y result,
    for_lt 0 width (λ x result,
      set2 result y x (get2 NaN result y x / maxMagnitude * Fin 255)%js)
      result)
    result.

Definition cannyEdgeDetection (data : list (list num)) : list (list num) :=
  normalize (magnitudes data).

(** ** Glyph cells *)

(** The value of one cell of the [ascii] grid: a string (as UTF-16 code
    units) or [undefined], which is what indexing a string outside its
    length yields. *)
Inductive text : Type :=
| Str (units : list N)
| Undefined.

(** [" "], the suppressed glyph *)
Definition blank : text := Str [32%N].

(** [charSet[charIndex]]: the one-unit string at an integer index inside
    the string, [undefined] for every other number *)
Definition charAt (charSet : list N) (charIndex : num) : text :=
  match charIndex with
  | Fin q =>
      if Qeq_bool q (inject_Z (Qfloor q)) && (0 <=? Qfloor q)%Z then
        match charSet !! Z.to_nat (Qfloor q) with
        | Some c => Str [c]
        | None => Undefined
        end
      else Undefined
  | _ => Undefined
  end.

(** [charSet.length - k] *)
Definition length_minus (charSet : list N) (k : Z) : num :=
  of_Z (Z.of_nat (length charSet) - k).

(** "Handle pure black/white areas":
    [isExtreme || brightness < 5 || brightness > 250] *)
Definition suppressed (isExtreme : bool) (brightness : num) : bool :=
  isExtreme || JS.lt brightness (Fin 5) || JS.gt brightness (Fin 250).

(** [x / pixelCount] guarded by [pixelCount > 0] *)
Definition mean (total : num) (pixelCount : nat) : num :=
  if (0 <? pixelCount)%nat then (total / of_nat pixelCount)%js else Fin 0.

(** *** The edge-aware selector ([imageToAscii]) *)

Module Edge.

Record Sample : Type := {
  edgeStrength : num;
  brightness : num;
  pixelCount : nat;
  isExtreme : bool
}.

Definition start : Sample :=
  {| edgeStrength := Fin 0; brightness := Fin 0; pixelCount := 0;
     isExtreme := true |}.

(** one turn of the innermost sampling loop, at source pixel [(px, py)] *)
Definition samplePixel (image : Image) (edges : list (list num))
    (py px : nat) (acc : Sample) : Sample :=
  let i := ((py * image_width image + px) * 4)%nat in
  let r := pixels image i in
  let g := pixels image (i + 1) in
  let b := pixels image (i + 2) in
  {| edgeStrength := (edgeStrength acc + get2 NaN edges py px)%js;
     brightness := (brightness acc + luminance r g b)%js;
     pixelCount := S (pixelCount acc);
     isExtreme := if notExtreme r g b then false else isExtreme acc |}.

(** "Sample multiple pixels for better accuracy": the block of
    [stepX] x [stepY] source pixels at [(pixelX, pixelY)], clipped by the
    loop conditions to the image *)
Definition sampleBlock (image : Image) (edges : list (list num))
    (stepX stepY pixelX pixelY : nat) : Sample :=
  loop_from stepY 0 (λ sy, (pixelY + sy <? image_height image)%nat)
    (λ sy acc,
      loop_from stepX 0 (λ sx, (pixelX + sx <? image_width image)%nat)
        (λ sx acc, samplePixel image edges (pixelY + sy) (pixelX + sx) acc)
        acc)
    start.

(** [Math.floor(combined * adjustedRange) + 1] with
    [combined = (edgeStrength * 0.7 + brightness * 0.3) / 255] and
    [adjustedRange = charSet.length - 3] *)
Definition charIndex (charSet : list N) (edgeStrength brightness : num) : num :=
  let combined :=
    ((edgeStrength * Fin (7 # 10) + brightness * Fin (3 # 10)) / Fin 255)%js in
  let adjustedRange := length_minus charSet 3 in
  (JS.floor (combined * adjustedRange) + Fin 1)%js.

(** what the loop body stores in [ascii[y][x]] once the block is sampled *)
Definition glyph (charSet : list N) (s : Sample) : text :=
  let edgeStrength := mean (edgeStrength s) (pixelCount s) in
  let brightness := mean (brightness s) (pixelCount s) in
  if suppressed (isExtreme s) brightness then blank
  else charAt charSet (charIndex charSet edgeStrength brightness).

(** the grayscale field of the image *)
Definition grayscale (image : Image) : list (list num) :=
  for_lt 0 (image_height image) (λ y grayscale,
    for_lt 0 (image_width image) (λ x grayscale,
      let i := ((y * image_width image + x) * 4)%nat in
      set2 grayscale y x
        (luminance (pixels image i) (pixels image (i + 1)) (pixels image (i + 2))))
      grayscale)
    (mkArray2 (image_height image) (image_width image) (Fin 0)).

(** the edge field sampled by [imageToAscii] *)
Definition edgeField (image : Image) : list (list num) :=
  cannyEdgeDetection (gaussianBlur (grayscale image)).

(** [imageToAscii(image, width, height)].  [width] and [height] are used as
    array lengths and loop bounds.  The step sizes
    [Math.floor(image.width / width)] are only read inside the loops, where
    [width] and [height] are positive, so the integer quotient is the
    number JavaScript computes. *)
Definition imageToAscii (charSet : list N) (image : Image)
    (width height : nat) : list (list text) :=
  let stepX := (image_width image / width)%nat in
  let stepY := (image_height image / height)%nat in
  let edges := edgeField image in
  for_lt 0 height (λ y ascii,
    for_lt 0 width (λ x ascii,
      let pixelX := (x * stepX)%nat in
      let pixelY := (y * stepY)%nat in
      set2 ascii y x (glyph charSet (sampleBlock image edges stepX stepY pixelX pixelY)))
      ascii)
    (mkArray2 height width (Str [])).

End Edge.

(** *** The brightness-and-colour selector ([imageToAsciiWithColor]) *)

Record rgb : Type := { r : num; g : num; b : num }.

Module Color.

Record Sample : Type := {
  brightness : num;
  pixelCount : nat;
  isExtreme : bool;
  totalR : num;
  totalG : num;
  totalB : num
}.

Definition start : Sample :=
  {| brightness := Fin 0; pixelCount := 0; isExtreme := true;
     totalR := Fin 0; totalG := Fin 0; totalB := Fin 0 |}.

Definition samplePixel (image : Image) (py px : nat) (acc : Sample) : Sample :=
  let i := ((py * image_width image + px) * 4)%nat in
  let r := pixels image i in
  let g := pixels image (i + 1) in
  let b := pixels image (i + 2) in
  {| totalR := (totalR acc + r)%js;
     totalG := (totalG acc + g)%js;
     totalB := (totalB acc + b)%js;
     brightness := (brightness acc + luminance r g b)%js;
     isExtreme := if notExtreme r g b then false else isExtreme acc;
     pixelCount := S (pixelCount acc) |}.

Definition sampleBlock (image : Image) (stepX stepY pixelX pixelY : nat) : Sample :=
  loop_from stepY 0 (λ sy, (pixelY + sy <? image_height image)%nat)
    (λ sy acc,
      loop_from stepX 0 (λ sx, (pixelX + sx <? image_width image)%nat)
        (λ sx acc, samplePixel image (pixelY + sy) (pixelX + sx) acc)
        acc)
    start.

(** "Calculate average color": [Math.round(total / pixelCount)] per
    channel, without the [pixelCount > 0] guard of the brightness *)
Definition averageColor (s : Sample) : rgb :=
  {| r := JS.round (totalR s / of_nat (pixelCount s))%js;
     g := JS.round (totalG s / of_nat (pixelCount s))%js;
     b := JS.round (totalB s / of_nat (pixelCount s))%js |}.

(** [Math.floor((brightness / 255) * (charSet.length - 2)) + 1] *)
Definition charIndex (charSet : list N) (brightness : num) : num :=
  (JS.floor (brightness / Fin 255 * length_minus charSet 2) + Fin 1)%js.

Definition glyph (charSet : list N) (s : Sample) : text :=
  let brightness := mean (brightness s) (pixelCount s) in
  if suppressed (isExtreme s) brightness then blank
  else charAt charSet (charIndex charSet brightness).

(** [imageToAsciiWithColor(image, width, height)]: the pair
    [{ ascii, colors }].  The colour is stored before the suppression test,
    the glyph after it. *)
Definition imageToAsciiWithColor (charSet : list N) (image : Image)
    (width height : nat) : list (list text) * list (list rgb) :=
  let stepX := (image_width image / width)%nat in
  let stepY := (image_height image / height)%nat in
  for_lt 0 height (λ y out,
    for_lt 0 width (λ x '(ascii, colors),
      let pixelX := (x * stepX)%nat in
      let pixelY := (y * stepY)%nat in
      let s := sampleBlock image stepX stepY pixelX pixelY in
      let colors := set2 colors y x (averageColor s) in
      (set2 ascii y x (glyph charSet s), colors))
      out)
    (mkArray2 height width (Str []),
     mkArray2 height width {| r := Fin 0; g := Fin 0; b := Fin 0 |}).

End Color.

(** ** Test data *)

(** the code units of an ASCII string literal *)
Definition units (s : String.string) : list N :=
  map (λ c, N.of_nat (Ascii.nat_of_ascii c)) (String.list_ascii_of_string s).

(** the default character set of the constructor *)
Definition defaultCharSet : list N := units "@%#*+=-:. ".

(** a [w] x [h] image filled with one opaque colour *)
Definition solid (w h : nat) (cr cg cb : Z) : Image :=
  {| image_width := w; image_height := h;
     image_data := concat (replicate (w * h) [cr; cg; cb; 255%Z]) |}.

(** ** Frame conversion and the batch loop ([main.ts]) *)

Module Main.

Record ConverterOptions : Type := {
  outputWidth : num;
  outputHeight : num;
  charSet : list N;
  preserveAspectRatio : bool;
  backgroundColor : string
}.

(** "Calculate dimensions": the [(width, height)] that
    [convertImageToAscii] hands to the canvas and to the glyph selector *)
Definition gridSize (options : ConverterOptions) (image : Image) : num * num :=
  let width := outputWidth options in
  let height := outputHeight options in
  if preserveAspectRatio options then
    let aspectRatio := (of_nat (image_width image) / of_nat (image_height image))%js in
    let height := JS.floor (width / aspectRatio / Fin 2)%js in
    if JS.gt height (outputHeight options) then
      let height := outputHeight options in
      let width := JS.floor (height * aspectRatio * Fin 2)%js in
      (width, height)
    else (width, height)
  else (width, height).

(** exceptions that reach [convert] *)
Inductive exn : Type :=
| LoadError (reason : string)      (* [loadImage] rejected *)
| RangeError                       (* "Invalid array length" *)
| ExecError (command : string).    (* an external command failed *)

Inductive result (A : Type) : Type :=
| Ok (a : A)
| Throw (e : exn).
Arguments Ok {A} a.
Arguments Throw {A} e.

(** a file of the frames directory, as [loadImage] sees it *)
Inductive file : Type :=
| Decoded (image : Image)
| Unreadable (reason : string).

Definition loadImage (f : file) : result Image :=
  match f with
  | Decoded image => Ok image
  | Unreadable reason => Throw (LoadError reason)
  end.

(** [Array(n)] accepts an integer in [[0, 2^32)] and raises a RangeError
    on any other number *)
Definition arrayLength (n : num) : option nat :=
  match n with
  | Fin q =>
      if Qeq_bool q (inject_Z (Qfloor q)) && (0 <=? Qfloor q)%Z
         && (Qfloor q <? 2 ^ 32)%Z
      then Some (Z.to_nat (Qfloor q)) else None
  | _ => None
  end.

Inductive style : Type :=
| Shadow                 (* "rgba(0, 0, 0, 0.5)" *)
| Tint (color : rgb).    (* `rgb(r, g, b)` *)

Record fillText : Type := {
  fillStyle : style;
  glyph : text;
  at_x : num;
  at_y : num
}.

(** the rendered frame: canvas size, background fill and the text drawn,
    in drawing order *)
Record Canvas : Type := {
  canvas_width : num;
  canvas_height : num;
  background : string;
  drawn : list fillText
}.

(** "Draw ASCII chars to canvas with colors": a shadow copy then the
    tinted glyph, for every cell that is not [" "] *)
Definition drawCell (ascii : list (list text)) (colors : list (list rgb))
    (y x : nat) (ctx : list fillText) : list fillText :=
  let char := get2 Undefined ascii y x in
  let color := get2 {| r := NaN; g := NaN; b := NaN |} colors y x in
  match char with
  | Str [32%N] => ctx
  | _ =>
      ctx ++ [ {| fillStyle := Shadow; glyph := char;
                  at_x := of_nat (x * 10 + 1); at_y := of_nat ((y + 1) * 20 + 1) |};
               {| fillStyle := Tint color; glyph := char;
                  at_x := of_nat (x * 10); at_y := of_nat ((y + 1) * 20) |} ]
  end.

Definition draw (ascii : list (list text)) (colors : list (list rgb)) : list fillText :=
  for_lt 0 (length ascii) (λ y ctx,
    for_lt 0 (length (default [] (ascii !! y))) (λ x ctx, drawCell ascii colors y x ctx) ctx)
    [].

(** [convertImageToAscii(inputPath, outputPath)] up to the buffer that is
    written: nothing is written when it throws.  [Array(height)] is
    evaluated first; [Array(width)] only when there is a row to build. *)
Definition convertImageToAscii (options : ConverterOptions) (f : file) : result Canvas :=
  match loadImage f with
  | Throw e => Throw e
  | Ok image =>
      let '(width, height) := gridSize options image in
      let render w h :=
        let '(ascii, colors) :=
          Color.imageToAsciiWithColor (charSet options) image w h in
        Ok {| canvas_width := (width * Fin 10)%js;
              canvas_height := (height * Fin 20)%js;
              background := backgroundColor options;
              drawn := draw ascii colors |} in
      match arrayLength height with
      | None => Throw RangeError
      | Some O => render O O
      | Some h =>
          match arrayLength width with
          | None => Throw RangeError
          | Some w => render w h
          end
      end
  end.

(** console output *)
Inductive line : Type :=
| Info (message : string)
| Progress (i n : nat)                 (* `Converted ${i}/${n} frames (...)` *)
| ErrorLine (message : string) (e : exn).

(** the part of the world [convert] acts on: the ASCII frames directory
    (output index to written image) and the console *)
Record World : Type := {
  asciiFrames : gmap nat Canvas;
  console : list line
}.

Definition log (l : line) (w : World) : World :=
  {| asciiFrames := asciiFrames w; console := console w ++ [l] |}.

(** [fs.writeFileSync(outputPath, buffer)] with
    [outputPath = ascii-<i>.png] *)
Definition writeFrame (i : nat) (c : Canvas) (w : World) : World :=
  {| asciiFrames := <[i := c]> (asciiFrames w); console := console w |}.

(** the loop of [convertFramesToAscii] from index [i] on: an exception of
    [convertImageToAscii] leaves the loop and the function *)
Fixpoint convertFrom (options : ConverterOptions) (n i : nat)
    (frames : list file) (w : World) : result unit * World :=
  match frames with
  | [] => (Ok tt, w)
  | f :: rest =>
      match convertImageToAscii options f with
      | Throw e => (Throw e, w)
      | Ok c =>
          let w := writeFrame i c w in
          let w :=
            if (i mod Nat.max 1 (n / 20) =? 0)%nat then log (Progress i n) w
            else w in
          convertFrom options n (S i) rest w
      end
  end.

Definition convertFramesToAscii (options : ConverterOptions)
    (frames : list file) (w : World) : result unit * World :=
  let w := log (Info "Converting frames to ASCII...") w in
  match convertFrom options (length frames) 0 frames w with
  | (Ok tt, w) => (Ok tt, log (Info "All frames converted to ASCII") w)
  | (Throw e, w) => (Throw e, w)
  end.

(** outcomes of the external commands [convert] awaits: download, frame
    extraction (the sorted listing of the frames directory), encoding and
    the audio steps *)
Record Externals : Type := {
  download : result unit;
  extract : result (list file);
  createVideo : result unit;
  addAudio : result unit
}.

(** the [try] block of [convert], for the configuration of the script
    (output [./ascii_video.mp4]).  [setupDirectories] empties the ASCII
    frames directory; file-system calls themselves do not fail.  The last
    step of a successful run, [cleanup], which removes the temporary
    directory, is left out: what is proved about [convert] concerns its
    failures and what its success requires. *)
Definition convertBody (ext : Externals) (options : ConverterOptions)
    (w : World) : result string * World :=
  let w := {| asciiFrames := ∅; console := console w |} in
  match download ext with
  | Throw e => (Throw e, w)
  | Ok _ =>
  match extract ext with
  | Throw e => (Throw e, w)
  | Ok frames =>
  match convertFramesToAscii options frames w with
  | (Throw e, w) => (Throw e, w)
  | (Ok _, w) =>
  match createVideo ext with
  | Throw e => (Throw e, w)
  | Ok _ =>
  match addAudio ext with
  | Throw e => (Throw e, w)
  | Ok _ => (Ok "./ascii_video_with_audio.mp4"%string, w)
  end end end end end.

(** [convert()]: the [catch] clause logs the error and throws it again *)
Definition convert (ext : Externals) (options : ConverterOptions)
    (w : World) : result string * World :=
  match convertBody ext options w with
  | (Throw e, w) => (Throw e, log (ErrorLine "Error during conversion:" e) w)
  | ok => ok
  end.

(** The seek offset of [extractFrames] (and of the audio step of
    [convert]), from [Number(startTimeSeconds)]: the [hours], [minutes] and
    [seconds] that are printed into [-ss HH:MM:SS]. *)
Definition timeOffset (startTimeSeconds : num) : num * num * num :=
  let hours := JS.floor (startTimeSeconds / Fin 3600)%js in
  let minutes := JS.floor ((startTimeSeconds mod Fin 3600) / Fin 60)%js in
  let seconds := (startTimeSeconds mod Fin 60)%js in
  (hours, minutes, seconds).

End Main.

(** ** The audio script ([add_audio.ts]) *)

Module AddAudio.

(** what [addAudioToVideo] reads and changes: whether [./temp_audio],
    [./ascii_video.mp4], the downloaded audio inside the temporary directory
    and [./ascii_video_with_audio.mp4] exist, the commands run so far, the
    readline interface and the console *)
Record World : Type := {
  tempDir : bool;
  inputVideo : bool;
  audio : bool;
  outputVideo : bool;
  commands : list string;
  readlineOpen : bool;
  console : list string
}.

(** whether the two external commands succeed *)
Record Externals : Type := {
  ytdlp : bool;
  ffmpeg : bool
}.

Definition log (message : string) (w : World) : World :=
  {| tempDir := tempDir w; inputVideo := inputVideo w; audio := audio w;
     outputVideo := outputVideo w; commands := commands w;
     readlineOpen := readlineOpen w; console := console w ++ [message] |}.

(** [fs.mkdirSync(tempDir)] *)
Definition mkdir (w : World) : World :=
  {| tempDir := true; inputVideo := inputVideo w; audio := audio w;
     outputVideo := outputVideo w; commands := commands w;
     readlineOpen := readlineOpen w; console := console w |}.

(** [fs.rmSync(tempDir, { recursive: true, force: true })] *)
Definition rmTemp (w : World) : World :=
  {| tempDir := false; inputVideo := inputVideo w; audio := false;
     outputVideo := outputVideo w; commands := commands w;
     readlineOpen := readlineOpen w; console := console w |}.

(** [await exec(command)]: the command (named by its program) is run;
    [created] says what a successful run leaves behind *)
Definition exec (command : string) (succeeds : bool)
    (created : World → World) (w : World) : bool * World :=
  let w := {| tempDir := tempDir w; inputVideo := inputVideo w; audio := audio w;
              outputVideo := outputVideo w; commands := commands w ++ [command];
              readlineOpen := readlineOpen w; console := console w |} in
  if succeeds then (true, created w) else (false, w).

Definition withAudio (w : World) : World :=
  {| tempDir := tempDir w; inputVideo := inputVideo w; audio := true;
     outputVideo := outputVideo w; commands := commands w;
     readlineOpen := readlineOpen w; console := console w |}.

Definition withOutput (w : World) : World :=
  {| tempDir := tempDir w; inputVideo := inputVideo w; audio := audio w;
     outputVideo := true; commands := commands w;
     readlineOpen := readlineOpen w; console := console w |}.

(** the [try] block: [true] when it ran to its end, [false] when it threw *)
Definition tryBlock (ext : Externals) (w : World) : bool * World :=
  let w := if tempDir w then w else mkdir w in
  if negb (inputVideo w) then (false, w)
  else
    let w := log "Downloading audio from YouTube..." w in
    match exec "yt-dlp" (ytdlp ext) withAudio w with
    | (false, w) => (false, w)
    | (true, w) =>
        let w := log "Combining audio with ASCII video..." w in
        match exec "ffmpeg" (ffmpeg ext) withOutput w with
        | (false, w) => (false, w)
        | (true, w) =>
            let w := log "Cleaning up temporary files..." w in
            let w := rmTemp w in
            (true, log "Success! Video with audio saved as: ./ascii_video_with_audio.mp4" w)
        end
    end.

(** [addAudioToVideo(youtubeUrl)]: the [catch] clause logs, removes the
    temporary directory if it exists and swallows the error; the [finally]
    clause closes the readline interface *)
Definition addAudioToVideo (ext : Externals) (w : World) : World :=
  let w :=
    match tryBlock ext w with
    | (true, w) => w
    | (false, w) =>
        let w := log "Error:" w in
        if tempDir w then rmTemp w else w
    end in
  {| tempDir := tempDir w; inputVideo := inputVideo w; audio := audio w;
     outputVideo := outputVideo w; commands := commands w;
     readlineOpen := false; console := console w |}.

End AddAudio.

(** * Specification vocabulary *)

(** The shape shared by every loop nest of the converter: each cell of the
    rectangle [ylo..yhi) x [xlo..xhi) is overwritten once, with a value that
    depends on its position and its old content only. *)
Definition sweep {A : Type} (d : A) (ylo yhi xlo xhi : nat)
    (f : nat → nat → A → A) (a : list (list A)) : list (list A) :=
  for_lt ylo yhi (λ y a,
    for_lt xlo xhi (λ x a, set2 a y x (f y x (get2 d a y x))) a) a.

Definition inside (ylo yhi xlo xhi y x : nat) : bool :=
  bool_decide (ylo ≤ y < yhi ∧ xlo ≤ x < xhi)%nat.

(** the samples the smoothing filter computes: two pixels away from every
    side of an [h] x [w] field *)
Definition interior (h w y x : nat) : bool :=
  inside 2 (h - 2) 2 (w - 2) y x.

(** the 25 kernel positions, row by row *)
Definition offsets5 : list (nat * nat) := list_prod (seq 0 5) (seq 0 5).

(** the 5x5 weighted sum around [(y, x)] over the kernel total, 256 *)
Definition weightedAverage (data : list (list num)) (y x : nat) : num :=
  (fold_left (λ sum '(ky, kx),
      sum + get2 NaN data (y + ky - 2) (x + kx - 2) * weight kernel ky kx)%js
     offsets5 (Fin 0) / Fin 256)%js.

(** a finite number between [lo] and [hi] *)
Definition bounded (lo hi : Q) (v : num) : Prop :=
  match v with Fin q => lo <= q <= hi | _ => False end.

(** a number that is not negative: a non-negative rational or [Infinity] *)
Definition nonNegative (v : num) : Prop :=
  match v with Fin q => 0 <= q | PInf => True | _ => False end.

Definition field_bounded (lo hi : Q) (data : list (list num)) : Prop :=
  Forall (Forall (bounded lo hi)) data.

(** smallest and largest sample of a field, as the code computes the
    largest: row by row *)
Definition fieldMin (data : list (list num)) : num := JS.min (map JS.min data).
Definition fieldMax (data : list (list num)) : num := JS.max (map JS.max data).

(** [charIndex] is an integer between 1 and [length - 2] and indexing the
    character set with it yields the glyph stored there *)
Definition selectable (charSet : list N) (charIndex : num) : Prop :=
  ∃ (i : nat) c, charIndex ==n of_nat i ∧
    (1 ≤ i ≤ length charSet - 2)%nat ∧
    charSet !! i = Some c ∧ charAt charSet charIndex = Str [c].

(** the pixel at row [py], column [px] has the channels [(cr, cg, cb)] *)
Definition pixelIs (image : Image) (py px : nat) (cr cg cb : Z) : Prop :=
  let i := ((py * image_width image + px) * 4)%nat in
  image_data image !! i = Some cr ∧
  image_data image !! (i + 1)%nat = Some cg ∧
  image_data image !! (i + 2)%nat = Some cb.

Definition blackOrWhite (image : Image) : Prop :=
  ∀ py px, (py < image_height image)%nat → (px < image_width image)%nat →
    pixelIs image py px 0 0 0 ∨ pixelIs image py px 255 255 255.

Definition uniform (image : Image) (cr cg cb : Z) : Prop :=
  ∀ py px, (py < image_height image)%nat → (px < image_width image)%nat →
    pixelIs image py px cr cg cb.

(** the luminance of a colour, as a rational *)
Definition lum (cr cg cb : Z) : Q :=
  (299 # 1000) * inject_Z cr + (587 # 1000) * inject_Z cg + (114 # 1000) * inject_Z cb.

Definition extremeColor (cr cg cb : Z) : bool :=
  bool_decide ((cr, cg, cb) = (0, 0, 0)%Z ∨ (cr, cg, cb) = (255, 255, 255)%Z).

(** what a block of one colour accumulates *)
(** what the accumulators hold after [pixelCount] pixels of one colour *)
Definition uniformSample (cr cg cb : Z) (s : Color.Sample) : Prop :=
  let n := inject_Z (Z.of_nat (Color.pixelCount s)) in
  Color.isExtreme s =
    (if (Color.pixelCount s =? 0)%nat then true else extremeColor cr cg cb) ∧
  ∃ qy qr qg qb,
    Color.brightness s = Fin qy ∧ qy == n * lum cr cg cb ∧
    Color.totalR s = Fin qr ∧ qr == n * inject_Z cr ∧
    Color.totalG s = Fin qg ∧ qg == n * inject_Z cg ∧
    Color.totalB s = Fin qb ∧ qb == n * inject_Z cb.

(** the block sampled for the cell [(y, x)] of a [width] x [height] grid *)
Definition edgeBlock (image : Image) (width height y x : nat) : Edge.Sample :=
  let stepX := (image_width image / width)%nat in
  let stepY := (image_height image / height)%nat in
  Edge.sampleBlock image (Edge.edgeField image) stepX stepY (x * stepX) (y * stepY).

Definition colorBlock (image : Image) (width height y x : nat) : Color.Sample :=
  let stepX := (image_width image / width)%nat in
  let stepY := (image_height image / height)%nat in
  Color.sampleBlock image stepX stepY (x * stepX) (y * stepY).

(** the image [convertImageToAscii] writes for a frame, if it returns *)
Definition written (options : Main.ConverterOptions) (f : Main.file) : option Main.Canvas :=
  match Main.convertImageToAscii options f with
  | Main.Ok c => Some c
  | Main.Throw _ => None
  end.

Definition convertible (options : Main.ConverterOptions) (f : Main.file) : Prop :=
  is_Some (written options f).

(** a one-cell configuration and a fresh world, for the examples *)
Definition testOptions : Main.ConverterOptions :=
  {| Main.outputWidth := Fin 1; Main.outputHeight := Fin 1;
     Main.charSet := defaultCharSet; Main.preserveAspectRatio := false;
     Main.backgroundColor := "black" |}.

Definition emptyWorld : Main.World :=
  {| Main.asciiFrames := ∅; Main.console := [] |}.

(** ** Further vocabulary *)

(** the source pixel [(py, px)] is sampled for the cell [(y, x)] *)
Definition inBlock (image : Image) (width height y x py px : nat) : Prop :=
  let stepX := (image_width image / width)%nat in
  let stepY := (image_height image / height)%nat in
  (y * stepY ≤ py < y * stepY + stepY)%nat ∧ (py < image_height image)%nat ∧
  (x * stepX ≤ px < x * stepX + stepX)%nat ∧ (px < image_width image)%nat.

(** two images have the same three colour bytes at [(py, px)] *)
Definition samePixel (image image' : Image) (py px : nat) : Prop :=
  let i := ((py * image_width image + px) * 4)%nat in
  pixels image i = pixels image' i ∧
  pixels image (i + 1) = pixels image' (i + 1) ∧
  pixels image (i + 2) = pixels image' (i + 2).

(** accumulators of [pixelCount] pixels whose channels are bytes *)
Definition byteSample (s : Color.Sample) : Prop :=
  let n := inject_Z (Z.of_nat (Color.pixelCount s)) in
  ∃ qy qr qg qb,
    Color.brightness s = Fin qy ∧ 0 <= qy <= 255 * n ∧
    Color.totalR s = Fin qr ∧ 0 <= qr <= 255 * n ∧
    Color.totalG s = Fin qg ∧ 0 <= qg <= 255 * n ∧
    Color.totalB s = Fin qb ∧ 0 <= qb <= 255 * n.

(** [Math.sqrt(gx * gx + gy * gy)] at [(y, x)] *)
Definition magnitudeAt (data : list (list num)) (y x : nat) : num :=
  let '(gx, gy) := gradient data y x in JS.sqrt (gx * gx + gy * gy)%js.

(** every sample of an [h] x [w] field is [NaN] *)
Definition allNaN (h w : nat) (a : list (list num)) : Prop :=
  ∀ y x, (y < h)%nat → (x < w)%nat → get2 NaN a y x = NaN.

(** the glyph is the one the renderer skips *)
Definition isBlank (t : text) : bool :=
  match t with Str [32%N] => true | _ => false end.

(** what the renderer draws for the cell [(y, x)]: nothing for the blank
    glyph, else the shadow and then the glyph in the cell's colour *)
Definition cellTexts (ascii : list (list text)) (colors : list (list rgb)) (y x : nat)
    : list Main.fillText :=
  let char := get2 Undefined ascii y x in
  let color := get2 {| r := NaN; g := NaN; b := NaN |} colors y x in
  if isBlank char then []
  else [ {| Main.fillStyle := Main.Shadow; Main.glyph := char;
            Main.at_x := of_nat (x * 10 + 1); Main.at_y := of_nat ((y + 1) * 20 + 1) |};
         {| Main.fillStyle := Main.Tint color; Main.glyph := char;
            Main.at_x := of_nat (x * 10); Main.at_y := of_nat ((y + 1) * 20) |} ].

(** how many cells hold something else than the blank glyph *)
Definition inkedCells (ascii : list (list text)) : nat :=
  length (List.filter (λ t, negb (isBlank t)) (concat ascii)).

(** what the renderer draws for row [y] *)
Definition rowDraws (ascii : list (list text)) (colors : list (list rgb)) (y : nat)
    : list Main.fillText :=
  flat_map (λ x, Main.drawCell ascii colors y x [])
    (seq 0 (length (default [] (ascii !! y)))).

(** a red pixel next to a blue one *)
Definition twoPixels : Image :=
  {| image_width := 2; image_height := 1;
     image_data := [255; 0; 0; 255; 0; 0; 255; 255]%Z |}.

(** a configuration whose height is not an integer *)
Definition halfHeight : Main.ConverterOptions :=
  {| Main.outputWidth := Fin 1; Main.outputHeight := Fin (1 # 2);
     Main.charSet := defaultCharSet; Main.preserveAspectRatio := false;
     Main.backgroundColor := "black" |}.
(** * Verification *)

(** ** Loops *)

Section LoopFacts.
Context {S : Type}.
Implicit Types (body : nat → S → S) (cond : nat → bool).

Lemma for_lt_nil lo hi body s : (hi ≤ lo)%nat → for_lt lo hi body s = s.
Proof.
  intros H. unfold for_lt. replace (hi - lo)%nat with 0%nat by lia. done.
Qed.

Lemma for_lt_step lo hi body s :
  (lo < hi)%nat → for_lt lo hi body s = for_lt (Datatypes.S lo) hi body (body lo s).
Proof.
  intros H. unfold for_lt.
  replace (hi - lo)%nat with (Datatypes.S (hi - Datatypes.S lo)) by lia. done.
Qed.

(** the invariant rule of a counted loop *)
Lemma for_lt_inv (P : nat → S → Prop) lo hi body s :
  (lo ≤ hi)%nat →
  P lo s →
  (∀ i t, (lo ≤ i < hi)%nat → P i t → P (Datatypes.S i) (body i t)) →
  P hi (for_lt lo hi body s).
Proof.
  intros Hle. remember (hi - lo)%nat as n eqn:Hn.
  revert lo s Hle Hn. induction n as [|n IH]; intros lo s Hle Hn H0 Hstep.
  - rewrite for_lt_nil by lia. by replace hi with lo by lia.
  - rewrite for_lt_step by lia. apply IH; [lia | lia | | ].
    + apply Hstep; [lia | done].
    + intros i t Hi. apply Hstep. lia.
Qed.

(** a loop whose extra condition holds exactly below [k] runs until the
    fuel or [k] is reached *)
Lemma loop_from_clip_at fuel i cond body s k :
  (∀ j, cond j = true ↔ (j < k)%nat) →
  loop_from fuel i cond body s =
  loop_from (Nat.min fuel (k - i)) i (λ _, true) body s.
Proof.
  intros Hc. revert i s. induction fuel as [|fuel IH]; intros i s; [done|].
  simpl loop_from at 1. destruct (cond i) eqn:Hi.
  - apply Hc in Hi.
    replace (Nat.min (Datatypes.S fuel) (k - i))
      with (Datatypes.S (Nat.min fuel (k - Datatypes.S i))) by lia.
    simpl. apply IH.
  - assert (¬ (i < k)%nat) as Hk by (rewrite <- Hc; congruence).
    by replace (Nat.min (Datatypes.S fuel) (k - i)) with 0%nat by lia.
Qed.

Lemma loop_from_clip fuel cond body s k :
  (∀ j, cond j = true ↔ (j < k)%nat) →
  loop_from fuel 0 cond body s = for_lt 0 (Nat.min fuel k) body s.
Proof.
  intros Hc. rewrite (loop_from_clip_at _ _ _ _ _ k Hc). unfold for_lt.
  by rewrite !Nat.sub_0_r.
Qed.
End LoopFacts.

(** * Two-dimensional arrays *)

Section ArrayFacts.
Context {A : Type} (d : A).
Implicit Types (a : list (list A)).

Lemma rect_mkArray2 h w (v : A) : rect h w (mkArray2 h w v).
Proof.
  split; [apply length_replicate|].
  apply Forall_replicate, length_replicate.
Qed.

Lemma get2_mkArray2 h w (v : A) y x :
  (y < h)%nat → (x < w)%nat → get2 d (mkArray2 h w v) y x = v.
Proof.
  intros Hy Hx. unfold get2, mkArray2.
  rewrite lookup_replicate_2 by done. by rewrite lookup_replicate_2.
Qed.

Lemma rect_set2 h w a y x v : rect h w a → rect h w (set2 a y x v).
Proof.
  intros [Hh Hw]. unfold set2. destruct (a !! y) as [row|] eqn:Hy; [|done].
  split; [by rewrite length_insert|].
  apply Forall_insert; [done|]. rewrite length_insert.
  by eapply (Forall_lookup_1 _ _ _ _ Hw).
Qed.

Lemma get2_set2 h w a y x v y' x' :
  rect h w a → (y < h)%nat → (x < w)%nat →
  get2 d (set2 a y x v) y' x' =
  if decide (y' = y ∧ x' = x) then v else get2 d a y' x'.
Proof.
  intros [Hh Hw] Hy Hx. unfold set2, get2.
  destruct (a !! y) as [row|] eqn:Hrow.
  2:{ apply lookup_ge_None in Hrow. lia. }
  pose proof (Forall_lookup_1 _ _ _ _ Hw Hrow) as Hlen. simpl in Hlen.
  destruct (decide (y' = y)) as [->|Hne].
  - rewrite list_lookup_insert_eq by lia. rewrite Hrow.
    destruct (decide (x' = x)) as [->|Hnx].
    + rewrite list_lookup_insert_eq by lia. by rewrite decide_True.
    + rewrite list_lookup_insert_ne by done. rewrite decide_False by tauto. done.
  - rewrite list_lookup_insert_ne by done. rewrite decide_False by tauto. done.
Qed.

Lemma sweep_row h w a y xlo xhi f :
  rect h w a → (y < h)%nat → (xhi ≤ w)%nat →
  let a' := for_lt xlo xhi (λ x a, set2 a y x (f y x (get2 d a y x))) a in
  rect h w a' ∧
  ∀ y' x', get2 d a' y' x' =
    if bool_decide (y' = y ∧ xlo ≤ x' < xhi)%nat
    then f y x' (get2 d a y' x') else get2 d a y' x'.
Proof.
  intros Hr Hy Hx. simpl.
  destruct (decide (xlo ≤ xhi)%nat) as [Hle|Hgt].
  2:{ rewrite for_lt_nil by lia. split; [done|]. intros y' x'.
      rewrite bool_decide_eq_false_2; [done|lia]. }
  pose (P := λ (i : nat) t, rect h w t ∧
    ∀ y' x', get2 d t y' x' =
      if bool_decide (y' = y ∧ xlo ≤ x' < i)%nat
      then f y x' (get2 d a y' x') else get2 d a y' x').
  apply (for_lt_inv P); [done| |]; unfold P.
  - split; [done|]. intros y' x'. rewrite bool_decide_eq_false_2; [done|lia].
  - intros i t Hi [Ht Hget]. split; [by apply rect_set2|].
    intros y' x'. rewrite (get2_set2 h w) by (done || lia).
    rewrite !Hget. repeat case_decide; repeat case_bool_decide; try done; try lia;
      destruct_and?; subst; try lia; try done.
    all: try (exfalso; naive_solver lia).
Qed.

Lemma sweep_spec h w a ylo yhi xlo xhi f :
  rect h w a → (yhi ≤ h)%nat → (xhi ≤ w)%nat →
  rect h w (sweep d ylo yhi xlo xhi f a) ∧
  ∀ y x, get2 d (sweep d ylo yhi xlo xhi f a) y x =
    if inside ylo yhi xlo xhi y x then f y x (get2 d a y x) else get2 d a y x.
Proof.
  intros Hr Hy Hx. unfold sweep, inside.
  destruct (decide (ylo ≤ yhi)%nat) as [Hle|Hgt].
  2:{ rewrite for_lt_nil by lia. split; [done|]. intros y x.
      rewrite bool_decide_eq_false_2; [done|lia]. }
  pose (P := λ (i : nat) t, rect h w t ∧
    ∀ y x, get2 d t y x =
      if bool_decide (ylo ≤ y < i ∧ xlo ≤ x < xhi)%nat
      then f y x (get2 d a y x) else get2 d a y x).
  apply (for_lt_inv P); [done| |]; unfold P.
  - split; [done|]. intros y x. rewrite bool_decide_eq_false_2; [done|lia].
  - intros i t Hi [Ht Hget].
    destruct (sweep_row h w t i xlo xhi f Ht) as [Hr' Hget']; [lia|done|].
    split; [done|]. intros y x. rewrite Hget', !Hget.
    repeat case_bool_decide; try done; try (exfalso; lia).
    by destruct_and?; subst.
Qed.
End ArrayFacts.

(** * Smoothing filter *)

Lemma row_length_rect h w (data : list (list num)) :
  rect h w data → (0 < h)%nat → row_length data = w.
Proof.
  intros [Hh Hw] Hpos. unfold row_length.
  destruct data as [|row rest]; simpl in *; [lia|].
  by inversion Hw.
Qed.

Lemma gaussianBlur_sweep data :
  gaussianBlur data =
  sweep NaN 2 (length data - 2) 2 (row_length data - 2)
    (λ y x _, (blurSum data y x / kernelSum)%js)
    (mkArray2 (length data) (row_length data) (Fin 0)).
Proof. reflexivity. Qed.

Lemma blurSum_weightedAverage data y x :
  (blurSum data y x / kernelSum)%js = weightedAverage data y x.
Proof. reflexivity. Qed.

Lemma gaussianBlur_get data h w y x :
  rect h w data → (0 < h)%nat →
  rect h w (gaussianBlur data) ∧
  get2 NaN (gaussianBlur data) y x =
    if interior h w y x then weightedAverage data y x
    else if bool_decide (y < h ∧ x < w)%nat then Fin 0 else NaN.
Proof.
  intros Hr Hh. rewrite gaussianBlur_sweep.
  rewrite (row_length_rect h w) by done. destruct Hr as [<- Hw].
  destruct (sweep_spec NaN (length data) w (mkArray2 (length data) w (Fin 0))
    2 (length data - 2) 2 (w - 2) (λ y x _, (blurSum data y x / kernelSum)%js))
    as [Hr' Hget]; [apply rect_mkArray2|lia|lia|].
  split; [done|]. rewrite Hget. unfold interior.
  destruct (inside _ _ _ _ y x) eqn:Hin; [done|].
  case_bool_decide as Hyx.
  - apply get2_mkArray2; lia.
  - unfold get2, mkArray2.
    destruct (replicate (length data) _ !! y) as [row|] eqn:Ey; [|done].
    apply lookup_replicate in Ey as [-> Hy].
    destruct (replicate w (Fin 0) !! x) eqn:Ex; [|done].
    apply lookup_replicate in Ex as [-> Hx]. lia.
Qed.

Lemma get2_bounded lo hi data h w y x :
  rect h w data → field_bounded lo hi data → (y < h)%nat → (x < w)%nat →
  ∃ q, get2 NaN data y x = Fin q ∧ lo <= q <= hi.
Proof.
  intros [Hh Hw] Hb Hy Hx. unfold get2.
  destruct (data !! y) as [row|] eqn:Hrow.
  2:{ apply lookup_ge_None in Hrow. lia. }
  pose proof (Forall_lookup_1 _ _ _ _ Hw Hrow) as Hlen. simpl in Hlen.
  pose proof (Forall_lookup_1 _ _ _ _ Hb Hrow) as Hbr. simpl in Hbr.
  destruct (row !! x) as [v|] eqn:Hv.
  2:{ apply lookup_ge_None in Hv. lia. }
  pose proof (Forall_lookup_1 _ _ _ _ Hbr Hv) as Hbv.
  destruct v; try done. by exists q.
Qed.

Lemma weightedAverage_bounded lo hi data h w y x :
  rect h w data → field_bounded lo hi data →
  interior h w y x = true →
  ∃ v, weightedAverage data y x = Fin v ∧ lo <= v <= hi.
Proof.
  intros Hr Hb Hin. unfold interior, inside in Hin.
  apply bool_decide_eq_true in Hin.
  unfold weightedAverage.
  let l := eval vm_compute in offsets5 in change offsets5 with l.
  cbn [fold_left].
  repeat match goal with
  | |- context [get2 NaN data ?a ?b] =>
      let q := fresh "q" in let Hq := fresh "Hq" in let E := fresh "E" in
      destruct (get2_bounded lo hi data h w a b Hr Hb) as (q & E & Hq);
      [lia | lia | rewrite E; clear E]
  end.
  repeat match goal with
  | |- context [weight kernel ?a ?b] =>
      let v := eval vm_compute in (weight kernel a b) in
      change (weight kernel a b) with v
  end.
  cbn [JS.add JS.mul]. unfold JS.div.
  change (Qeq_bool 256 0) with false. cbv iota.
  eexists. split; [reflexivity|]. 
  split; [apply Qle_shift_div_l | apply Qle_shift_div_r]; lra.
Qed.

Lemma get2_lookup {A} (d : A) (a : list (list A)) y x row v :
  a !! y = Some row → row !! x = Some v → get2 d a y x = v.
Proof. intros Hy Hx. unfold get2. by rewrite Hy, Hx. Qed.

Lemma field_pointwise (P : num → Prop) h w (a : list (list num)) :
  rect h w a →
  (∀ y x, (y < h)%nat → (x < w)%nat → P (get2 NaN a y x)) →
  Forall (Forall P) a.
Proof.
  intros [Hh Hw] Hp. apply Forall_lookup. intros y row Hy.
  apply Forall_lookup. intros x v Hx.
  rewrite <- (get2_lookup NaN a y x row v Hy Hx). apply Hp.
  - apply lookup_lt_Some in Hy. lia.
  - apply lookup_lt_Some in Hx.
    pose proof (Forall_lookup_1 _ _ _ _ Hw Hy) as Hlen. simpl in Hlen. lia.
Qed.

Lemma bounded_weaken lo hi lo' hi' v :
  lo' <= lo → hi <= hi' → bounded lo hi v → bounded lo' hi' v.
Proof. destruct v; simpl; try done. intros. lra. Qed.

(** C9.  For every field of at least 5x5 samples, [gaussianBlur] returns a
    field of the same dimensions whose samples are the 5x5 weighted average
    of the input (over the kernel total 256) exactly at the interior
    positions [2 <= x < width - 2], [2 <= y < height - 2], and [0] on the
    two-pixel border; so the result always contains a [0], whatever the
    input holds. *)
Theorem gaussianBlur_border_is_zero data h w :
  rect h w data → (5 ≤ h)%nat → (5 ≤ w)%nat →
  rect h w (gaussianBlur data) ∧
  (∀ y x, (y < h)%nat → (x < w)%nat →
     get2 NaN (gaussianBlur data) y x =
       if interior h w y x then weightedAverage data y x else Fin 0) ∧
  (∃ y x, (y < h)%nat ∧ (x < w)%nat ∧ get2 NaN (gaussianBlur data) y x = Fin 0).
Proof.
  intros Hr Hh Hw.
  assert (∀ y x, (y < h)%nat → (x < w)%nat →
     get2 NaN (gaussianBlur data) y x =
       if interior h w y x then weightedAverage data y x else Fin 0) as Hget.
  { intros y x Hy Hx.
    destruct (gaussianBlur_get data h w y x Hr) as [_ ->]; [lia|].
    destruct (interior h w y x); [done|]. rewrite bool_decide_eq_true_2; [done|lia]. }
  split; [|split; [done|]].
  - apply (gaussianBlur_get data h w 0 0 Hr). lia.
  - exists 0%nat, 0%nat. split; [lia|]. split; [lia|].
    rewrite Hget by lia. unfold interior, inside.
    rewrite bool_decide_eq_false_2; [done|lia].
Qed.

Lemma gaussianBlur_border_is_zero_witness :
  let data := mkArray2 5 5 (Fin 128) in
  get2 NaN (gaussianBlur data) 2 2 = weightedAverage data 2 2 ∧
  get2 NaN (gaussianBlur data) 1 2 = Fin 0.
Proof.
  intros data.
  destruct (gaussianBlur_border_is_zero data 5 5) as (_ & Hget & _);
    [split; [reflexivity | repeat constructor] | lia | lia |].
  split; [apply (Hget 2%nat 2%nat); lia | apply (Hget 1%nat 2%nat); lia].
Defined.

(** C6 fails as stated: on the 5x5 field that is 128 everywhere the
    smoothed field has minimum 0, below the input's minimum 128. *)
Lemma gaussianBlur_lowers_minimum :
  let data := mkArray2 5 5 (Fin 128) in
  rect 5 5 data ∧
  fieldMin data ==n Fin 128 ∧
  fieldMin (gaussianBlur data) ==n Fin 0 ∧
  JS.lt (fieldMin (gaussianBlur data)) (fieldMin data) = true.
Proof.
  intros data. split; [split; [reflexivity | repeat constructor]|].
  split; [|split]; vm_compute; reflexivity.
Qed.

(** * Edge-strength normalisation *)

Lemma Qltb_lt p q : Qltb p q = true ↔ p < q.
Proof.
  unfold Qltb. rewrite negb_true_iff. split.
  - intros H. apply Qnot_le_lt. intros Hle. apply Qle_bool_iff in Hle. congruence.
  - intros H. destruct (Qle_bool q p) eqn:E; [|done].
    apply Qle_bool_iff in E. lra.
Qed.

Lemma Qltb_ge p q : Qltb p q = false ↔ q <= p.
Proof.
  unfold Qltb. rewrite negb_false_iff. apply Qle_bool_iff.
Qed.

Lemma fold_max2_Fin lo hi l a :
  Forall (bounded lo hi) l →
  ∃ m, fold_left max2 l (Fin a) = Fin m ∧ a <= m ∧
       Forall (bounded lo m) l ∧ (m = a ∨ Fin m ∈ l).
Proof.
  revert a. induction l as [|v l IH]; intros a Hl.
  - exists a. simpl. split; [done|]. split; [lra|]. split; [constructor | by left].
  - inversion Hl as [|? ? Hv Hl']; subst. destruct v as [q| | |]; try done.
    simpl in Hv. simpl fold_left.
    destruct (Qltb a q) eqn:Hlt.
    + apply Qltb_lt in Hlt. destruct (IH q Hl') as (m & -> & Hm & Hall & Hin).
      exists m. split; [done|]. split; [lra|]. split.
      * constructor; [simpl; lra | done].
      * right. destruct Hin as [->|Hin]; [left | by right].
    + apply Qltb_ge in Hlt. destruct (IH a Hl') as (m & -> & Hm & Hall & Hin).
      exists m. split; [done|]. split; [lra|]. split.
      * constructor; [simpl; lra | done].
      * destruct Hin as [->|Hin]; [by left | right; by right].
Qed.

Lemma max_Fin lo hi l :
  l ≠ [] → Forall (bounded lo hi) l →
  ∃ m, JS.max l = Fin m ∧ Forall (bounded lo m) l ∧ Fin m ∈ l.
Proof.
  intros Hne Hl. destruct l as [|v l]; [done|].
  inversion Hl as [|? ? Hv Hl']; subst. destruct v as [q| | |]; try done.
  unfold JS.max. simpl fold_left.
  destruct (fold_max2_Fin lo hi l q Hl') as (m & -> & Hm & Hall & Hin).
  exists m. split; [done|]. simpl in Hv. split.
  - constructor; [simpl; lra | done].
  - destruct Hin as [->|Hin]; [left | by right].
Qed.

Lemma fieldMax_Fin lo hi data h w :
  rect h w data → (0 < h)%nat → (0 < w)%nat → field_bounded lo hi data →
  ∃ M, fieldMax data = Fin M ∧ field_bounded lo M data ∧
       ∃ y x, (y < h)%nat ∧ (x < w)%nat ∧ get2 NaN data y x = Fin M.
Proof.
  intros [Hh Hw] Hhpos Hwpos Hb. unfold fieldMax.
  assert (Forall (λ row, ∃ m, JS.max row = Fin m ∧ Forall (bounded lo m) row
                              ∧ Fin m ∈ row ∧ lo <= m <= hi) data) as Hrows.
  { apply Forall_lookup. intros y row Hy.
    pose proof (Forall_lookup_1 _ _ _ _ Hw Hy) as Hlen. simpl in Hlen.
    pose proof (Forall_lookup_1 _ _ _ _ Hb Hy) as Hbr. simpl in Hbr.
    destruct (max_Fin lo hi row) as (m & Hm & Hall & Hin); [|done|].
    { intros ->. simpl in Hlen. lia. }
    exists m. repeat split; try done.
    - apply list_elem_of_lookup in Hin as [x Hx].
      by pose proof (Forall_lookup_1 _ _ _ _ Hall Hx) as [? _].
    - apply list_elem_of_lookup in Hin as [x Hx].
      by pose proof (Forall_lookup_1 _ _ _ _ Hbr Hx) as [_ ?]. }
  assert (Forall (bounded lo hi) (map JS.max data)) as Hmax.
  { apply Forall_map. eapply Forall_impl; [apply Hrows|].
    intros row (m & -> & _ & _ & Hm). done. }
  destruct (max_Fin lo hi (map JS.max data)) as (M & HM & Hall & Hin); [|done|].
  { destruct data; [simpl in Hh; lia | done]. }
  exists M. split; [done|]. split.
  - apply Forall_lookup. intros y row Hy.
    pose proof (Forall_lookup_1 _ _ _ _ Hrows Hy) as (m & Hm & Hrow & _ & _).
    assert (map JS.max data !! y = Some (Fin m)) as Hym.
    { change (map JS.max data) with (JS.max <$> data).
      rewrite list_lookup_fmap, Hy. simpl. by rewrite Hm. }
    pose proof (Forall_lookup_1 _ _ _ _ Hall Hym) as [_ HmM]. simpl in HmM.
    eapply Forall_impl; [apply Hrow|]. intros v Hv.
    eapply bounded_weaken; [apply Qle_refl | apply HmM | done].
  - apply list_elem_of_lookup in Hin as [y Hy].
    change (map JS.max data) with (JS.max <$> data) in Hy.
    rewrite list_lookup_fmap in Hy.
    destruct (data !! y) as [row|] eqn:Hrow; [|done]. simpl in Hy.
    pose proof (Forall_lookup_1 _ _ _ _ Hrows Hrow) as (m & Hm & _ & Hmin & _).
    rewrite Hm in Hy. injection Hy as ->.
    apply list_elem_of_lookup in Hmin as [x Hx].
    exists y, x. split; [apply lookup_lt_Some in Hrow; lia|]. split.
    + apply lookup_lt_Some in Hx.
      pose proof (Forall_lookup_1 _ _ _ _ Hw Hrow) as Hlen. simpl in Hlen. lia.
    + by apply (get2_lookup _ _ _ _ row).
Qed.

Lemma fold_min2_Fin lo hi l a :
  Forall (bounded lo hi) l →
  ∃ m, fold_left min2 l (Fin a) = Fin m ∧ m <= a ∧
       Forall (bounded m hi) l ∧ (m = a ∨ Fin m ∈ l).
Proof.
  revert a. induction l as [|v l IH]; intros a Hl.
  - exists a. simpl. split; [done|]. split; [lra|]. split; [constructor | by left].
  - inversion Hl as [|? ? Hv Hl']; subst. destruct v as [q| | |]; try done.
    simpl in Hv. simpl fold_left.
    destruct (Qltb q a) eqn:Hlt.
    + apply Qltb_lt in Hlt. destruct (IH q Hl') as (m & -> & Hm & Hall & Hin).
      exists m. split; [done|]. split; [lra|]. split.
      * constructor; [simpl; lra | done].
      * right. destruct Hin as [->|Hin]; [left | by right].
    + apply Qltb_ge in Hlt. destruct (IH a Hl') as (m & -> & Hm & Hall & Hin).
      exists m. split; [done|]. split; [lra|]. split.
      * constructor; [simpl; lra | done].
      * destruct Hin as [->|Hin]; [by left | right; by right].
Qed.

Lemma min_Fin lo hi l :
  l ≠ [] → Forall (bounded lo hi) l →
  ∃ m, JS.min l = Fin m ∧ Forall (bounded m hi) l ∧ Fin m ∈ l.
Proof.
  intros Hne Hl. destruct l as [|v l]; [done|].
  inversion Hl as [|? ? Hv Hl']; subst. destruct v as [q| | |]; try done.
  unfold JS.min. simpl fold_left.
  destruct (fold_min2_Fin lo hi l q Hl') as (m & -> & Hm & Hall & Hin).
  exists m. split; [done|]. simpl in Hv. split.
  - constructor; [simpl; lra | done].
  - destruct Hin as [->|Hin]; [left | by right].
Qed.

Lemma fieldMin_Fin lo hi data h w :
  rect h w data → (0 < h)%nat → (0 < w)%nat → field_bounded lo hi data →
  ∃ m, fieldMin data = Fin m ∧ field_bounded m hi data ∧
       ∃ y x, (y < h)%nat ∧ (x < w)%nat ∧ get2 NaN data y x = Fin m.
Proof.
  intros [Hh Hw] Hhpos Hwpos Hb. unfold fieldMin.
  assert (Forall (λ row, ∃ m, JS.min row = Fin m ∧ Forall (bounded m hi) row
                              ∧ Fin m ∈ row ∧ lo <= m <= hi) data) as Hrows.
  { apply Forall_lookup. intros y row Hy.
    pose proof (Forall_lookup_1 _ _ _ _ Hw Hy) as Hlen. simpl in Hlen.
    pose proof (Forall_lookup_1 _ _ _ _ Hb Hy) as Hbr. simpl in Hbr.
    destruct (min_Fin lo hi row) as (m & Hm & Hall & Hin); [|done|].
    { intros ->. simpl in Hlen. lia. }
    exists m. repeat split; try done.
    - apply list_elem_of_lookup in Hin as [x Hx].
      by pose proof (Forall_lookup_1 _ _ _ _ Hbr Hx) as [? _].
    - apply list_elem_of_lookup in Hin as [x Hx].
      by pose proof (Forall_lookup_1 _ _ _ _ Hall Hx) as [_ ?]. }
  assert (Forall (bounded lo hi) (map JS.min data)) as Hmin.
  { apply Forall_map. eapply Forall_impl; [apply Hrows|].
    intros row (m & -> & _ & _ & Hm). done. }
  destruct (min_Fin lo hi (map JS.min data)) as (M & HM & Hall & Hin); [|done|].
  { destruct data; [simpl in Hh; lia | done]. }
  exists M. split; [done|]. split.
  - apply Forall_lookup. intros y row Hy.
    pose proof (Forall_lookup_1 _ _ _ _ Hrows Hy) as (m & Hm & Hrow & _ & _).
    assert (map JS.min data !! y = Some (Fin m)) as Hym.
    { change (map JS.min data) with (JS.min <$> data).
      rewrite list_lookup_fmap, Hy. simpl. by rewrite Hm. }
    pose proof (Forall_lookup_1 _ _ _ _ Hall Hym) as [HmM _]. simpl in HmM.
    eapply Forall_impl; [apply Hrow|]. intros v Hv.
    eapply bounded_weaken; [apply HmM | apply Qle_refl | done].
  - apply list_elem_of_lookup in Hin as [y Hy].
    change (map JS.min data) with (JS.min <$> data) in Hy.
    rewrite list_lookup_fmap in Hy.
    destruct (data !! y) as [row|] eqn:Hrow; [|done]. simpl in Hy.
    pose proof (Forall_lookup_1 _ _ _ _ Hrows Hrow) as (m & Hm & _ & Hmin' & _).
    rewrite Hm in Hy. injection Hy as ->.
    apply list_elem_of_lookup in Hmin' as [x Hx].
    exists y, x. split; [apply lookup_lt_Some in Hrow; lia|]. split.
    + apply lookup_lt_Some in Hx.
      pose proof (Forall_lookup_1 _ _ _ _ Hw Hrow) as Hlen. simpl in Hlen. lia.
    + by apply (get2_lookup _ _ _ _ row).
Qed.

(** C6, amended.  For every field of at least 5x5 finite non-negative
    samples, the smoothed field is non-negative and is exactly 0 on its
    two-pixel border, so its smallest sample is 0; when the input is
    strictly positive the smoothed minimum is strictly below the input's
    minimum: the value range is wider at the bottom.  (That the smoothed
    maximum does not exceed the input's maximum is a property of the exact
    weighted average; the 25-term sum the code evaluates can exceed it by a
    rounding error, and nothing is stated about it.) *)
Theorem gaussianBlur_range data h w lo hi :
  rect h w data → (5 ≤ h)%nat → (5 ≤ w)%nat →
  field_bounded lo hi data → 0 <= lo →
  (∀ y x, (y < h)%nat → (x < w)%nat →
     if interior h w y x
     then nonNegative (get2 NaN (gaussianBlur data) y x)
     else get2 NaN (gaussianBlur data) y x = Fin 0) ∧
  fieldMin (gaussianBlur data) ==n Fin 0 ∧
  (0 < lo → JS.lt (fieldMin (gaussianBlur data)) (fieldMin data) = true).
Proof.
  intros Hr Hh Hw Hb Hlo.
  assert (rect h w (gaussianBlur data)) as Hr'.
  { apply (gaussianBlur_get data h w 0 0 Hr). lia. }
  assert (∀ y x, (y < h)%nat → (x < w)%nat →
     if interior h w y x
     then bounded lo hi (get2 NaN (gaussianBlur data) y x)
     else get2 NaN (gaussianBlur data) y x = Fin 0) as Hpt.
  { intros y x Hy Hx.
    destruct (gaussianBlur_get data h w y x Hr) as [_ ->]; [lia|].
    destruct (interior h w y x) eqn:Hin.
    - destruct (weightedAverage_bounded lo hi data h w y x Hr Hb Hin)
        as (v & -> & Hv). done.
    - rewrite bool_decide_eq_true_2; [done|lia]. }
  assert (lo <= hi) as Hlohi.
  { destruct (get2_bounded lo hi data h w 0 0 Hr Hb) as (q & _ & Hq); [lia|lia|lra]. }
  assert (field_bounded 0 hi (gaussianBlur data)) as Hb'.
  { apply (field_pointwise _ h w); [done|]. intros y x Hy Hx.
    specialize (Hpt y x Hy Hx). destruct (interior h w y x).
    - eapply bounded_weaken; [apply Hlo | apply Qle_refl | done].
    - rewrite Hpt. simpl. lra. }
  assert (get2 NaN (gaussianBlur data) 0 0 = Fin 0) as Hcorner.
  { specialize (Hpt 0%nat 0%nat). unfold interior, inside in Hpt.
    rewrite bool_decide_eq_false_2 in Hpt by lia. apply Hpt; lia. }
  destruct (fieldMin_Fin 0 hi (gaussianBlur data) h w Hr') as
    (m & Hm & Hbm & ym & xm & Hym & Hxm & Hat); [lia|lia|done|].
  assert (m == 0) as Hm0.
  { destruct (get2_bounded 0 hi (gaussianBlur data) h w ym xm Hr' Hb' Hym Hxm)
      as (q & Hq & Hq0). rewrite Hat in Hq. injection Hq as <-.
    destruct (get2_bounded m hi (gaussianBlur data) h w 0 0 Hr' Hbm) as (q' & Hq' & Hle);
      [lia|lia|]. rewrite Hcorner in Hq'. injection Hq' as <-. lra. }
  split; [|split].
  - intros y x Hy Hx. specialize (Hpt y x Hy Hx).
    destruct (interior h w y x); [|done].
    destruct (get2 NaN (gaussianBlur data) y x); try done. simpl in *. lra.
  - rewrite Hm. exact Hm0.
  - intros Hpos. rewrite Hm.
    destruct (fieldMin_Fin lo hi data h w Hr) as (m' & -> & _ & y' & x' & Hy' & Hx' & Hat');
      [lia|lia|done|].
    destruct (get2_bounded lo hi data h w y' x' Hr Hb Hy' Hx') as (q & Hq & Hq').
    rewrite Hat' in Hq. injection Hq as ->.
    simpl. apply Qltb_lt. lra.
Qed.

Lemma normalize_sweep result :
  normalize result =
  sweep NaN 0 (length result) 0 (row_length result)
    (λ _ _ old, (old / fieldMax result * Fin 255)%js) result.
Proof. reflexivity. Qed.

Lemma normalize_get result h w :
  rect h w result → (0 < h)%nat →
  rect h w (normalize result) ∧
  ∀ y x, (y < h)%nat → (x < w)%nat →
    get2 NaN (normalize result) y x =
    (get2 NaN result y x / fieldMax result * Fin 255)%js.
Proof.
  intros Hr Hh. rewrite normalize_sweep, (row_length_rect h w) by done.
  pose proof Hr as [<- _].
  destruct (sweep_spec NaN (length result) w result 0 (length result) 0 w
    (λ _ _ old, (old / fieldMax result * Fin 255)%js)) as [Hr' Hget];
    [done|lia|lia|].
  split; [done|]. intros y x Hy Hx. rewrite Hget. unfold inside.
  rewrite bool_decide_eq_true_2; [done|lia].
Qed.

(** the degenerate case: a field of zeros is divided by its maximum, zero *)
Lemma normalize_flat_is_NaN result h w :
  rect h w result → (0 < h)%nat → (0 < w)%nat →
  field_bounded 0 0 result →
  ∀ y x, (y < h)%nat → (x < w)%nat → get2 NaN (normalize result) y x = NaN.
Proof.
  intros Hr Hh Hw Hb y x Hy Hx.
  destruct (normalize_get result h w Hr Hh) as [_ Hget].
  rewrite Hget by done. clear Hget.
  destruct (fieldMax_Fin 0 0 result h w Hr Hh Hw Hb) as (M & -> & _ & y' & x' & Hy' & Hx' & HM).
  destruct (get2_bounded 0 0 result h w y' x' Hr Hb Hy' Hx') as (q' & Hq' & Hb').
  rewrite HM in Hq'. injection Hq' as ->.
  destruct (get2_bounded 0 0 result h w y x Hr Hb Hy Hx) as (q & -> & Hq).
  unfold JS.div.
  assert (Qeq_bool q' 0 = true) as -> by (apply Qeq_bool_iff; lra).
  assert (Qeq_bool q 0 = true) as -> by (apply Qeq_bool_iff; lra).
  done.
Qed.

(** the regular case: some magnitude is positive *)
Lemma normalize_maximum_is_255 result h w hi :
  rect h w result → (0 < h)%nat → (0 < w)%nat →
  field_bounded 0 hi result →
  (∃ y x q, (y < h)%nat ∧ (x < w)%nat ∧ get2 NaN result y x = Fin q ∧ 0 < q) →
  field_bounded 0 255 (normalize result) ∧
  fieldMax (normalize result) ==n Fin 255.
Proof.
  intros Hr Hh Hw Hb (y0 & x0 & q0 & Hy0 & Hx0 & Hq0 & Hpos).
  destruct (normalize_get result h w Hr Hh) as [Hr' Hget].
  destruct (fieldMax_Fin 0 hi result h w Hr Hh Hw Hb)
    as (M & HM & HbM & ym & xm & Hym & Hxm & Hmax).
  assert (0 < M) as HMpos.
  { destruct (get2_bounded 0 M result h w y0 x0 Hr HbM Hy0 Hx0) as (q & Hq & Hle).
    rewrite Hq0 in Hq. injection Hq as <-. lra. }
  assert (∀ y x, (y < h)%nat → (x < w)%nat →
    ∃ q, get2 NaN result y x = Fin q ∧ 0 <= q <= M ∧
         get2 NaN (normalize result) y x = Fin (q / M * 255)) as Hpt.
  { intros y x Hy Hx. rewrite Hget, HM by done.
    destruct (get2_bounded 0 M result h w y x Hr HbM Hy Hx) as (q & -> & Hq).
    exists q. split; [done|]. split; [done|]. unfold JS.div.
    destruct (Qeq_bool M 0) eqn:E; [apply Qeq_bool_iff in E; lra | done]. }
  assert (field_bounded 0 255 (normalize result)) as Hb'.
  { apply (field_pointwise _ h w); [done|]. intros y x Hy Hx.
    destruct (Hpt y x Hy Hx) as (q & _ & Hq & ->). simpl.
    assert (0 <= q / M <= 1) as Hquot.
    { split; [apply Qle_shift_div_l | apply Qle_shift_div_r]; lra. }
    lra. }
  split; [done|].
  destruct (fieldMax_Fin 0 255 (normalize result) h w Hr' Hh Hw Hb')
    as (M' & -> & HbM' & y1 & x1 & Hy1 & Hx1 & Hmax').
  simpl. apply Qle_antisym.
  - destruct (get2_bounded 0 255 (normalize result) h w y1 x1 Hr' Hb' Hy1 Hx1)
      as (q & Hq & Hle). rewrite Hmax' in Hq. injection Hq as ->. lra.
  - destruct (Hpt ym xm Hym Hxm) as (q & Hq & _ & Hn).
    rewrite Hmax in Hq. injection Hq as <-.
    destruct (get2_bounded 0 M' (normalize result) h w ym xm Hr' HbM' Hym Hxm)
      as (q & Hq & Hle). rewrite Hn in Hq. injection Hq as <-.
    assert (M / M * 255 == 255) as Heq by (field; lra). lra.
Qed.

(** C3, at a failing input.  For the 4x4 frame that is (128,128,128)
    everywhere the gradient magnitudes are all zero; the normalisation does
    not short-circuit but divides 0 by 0: the edge field is [NaN]
    everywhere and every glyph of the 2x2 grid is [undefined]. *)
Theorem cannyEdgeDetection_flat_frame_is_NaN :
  let image := solid 4 4 128 128 128 in
  magnitudes (gaussianBlur (Edge.grayscale image)) = mkArray2 4 4 (Fin 0) ∧
  Edge.edgeField image = mkArray2 4 4 NaN ∧
  Edge.imageToAscii defaultCharSet image 2 2 = mkArray2 2 2 Undefined.
Proof. vm_compute. done. Qed.

(** * Glyph indices *)

Lemma Qfloor_bounds (x : Q) (lo hi : Z) :
  inject_Z lo <= x → x < inject_Z hi → (lo ≤ Qfloor x < hi)%Z.
Proof.
  intros Hlo Hhi. split.
  - rewrite <- (Qfloor_Z lo). by apply Qfloor_resp_le.
  - rewrite Zlt_Qlt. eapply Qle_lt_trans; [apply Qfloor_le | done].
Qed.

Lemma Qfloor_inject_add (z : Z) (k : Z) :
  Qfloor (inject_Z z + inject_Z k) = (z + k)%Z.
Proof. rewrite <- inject_Z_plus. apply Qfloor_Z. Qed.

(** indexing the character set with a number that is the integer [i] *)
Lemma charAt_integer charSet q (i : nat) :
  q == inject_Z (Z.of_nat i) →
  charAt charSet (Fin q) =
  match charSet !! i with Some c => Str [c] | None => Undefined end.
Proof.
  intros Hq. unfold charAt.
  assert (Qfloor q = Z.of_nat i) as -> by (rewrite Hq; apply Qfloor_Z).
  assert (Qeq_bool q (inject_Z (Z.of_nat i)) = true) as ->
    by (by apply Qeq_bool_iff).
  assert ((0 <=? Z.of_nat i)%Z = true) as -> by (apply Z.leb_le; lia).
  simpl. by rewrite Nat2Z.id.
Qed.

Lemma selectable_intro charSet (k : Z) :
  (3 ≤ length charSet)%nat →
  (0 ≤ k ≤ Z.of_nat (length charSet) - 3)%Z →
  selectable charSet (Fin (inject_Z k) + Fin 1)%js.
Proof.
  intros Hlen Hk. simpl.
  assert (inject_Z k + 1 == inject_Z (Z.of_nat (Z.to_nat (k + 1)))) as Heq.
  { rewrite Z2Nat.id by lia. rewrite inject_Z_plus. reflexivity. }
  destruct (lookup_lt_is_Some_2 charSet (Z.to_nat (k + 1))) as [c Hc]; [lia|].
  exists (Z.to_nat (k + 1)), c. split; [done|]. split; [lia|]. split; [done|].
  rewrite (charAt_integer _ _ _ Heq). by rewrite Hc.
Qed.

(** C2.  With a character set of at least 3 glyphs, an edge strength in
    [0, 255] and a mean luminance in [5, 250], the edge-combined index and
    the brightness-only index are both integers in [1, length - 2], and
    indexing the character set with them yields a glyph (never
    [undefined]). *)
Theorem charIndex_in_range charSet (edgeStrength brightness : Q) :
  (3 ≤ length charSet)%nat →
  0 <= edgeStrength <= 255 →
  5 <= brightness <= 250 →
  selectable charSet (Edge.charIndex charSet (Fin edgeStrength) (Fin brightness)) ∧
  selectable charSet (Color.charIndex charSet (Fin brightness)).
Proof.
  intros Hlen He Hb. split.
  - unfold Edge.charIndex, length_minus, of_Z.
    cbn [JS.mul JS.add]. unfold JS.div. change (Qeq_bool 255 0) with false.
    cbv iota. cbn [JS.mul JS.floor].
    apply selectable_intro; [done|].
    set (combined := (edgeStrength * (7 # 10) + brightness * (3 # 10)) / 255).
    set (range := (Z.of_nat (length charSet) - 3)%Z).
    assert (0 <= combined) as H0 by (apply Qle_shift_div_l; lra).
    assert (combined < 1) as H1 by (apply Qlt_shift_div_r; lra).
    assert (0 <= inject_Z range) as Hr.
    { change 0 with (inject_Z 0). rewrite <- Zle_Qle. lia. }
    destruct (decide (range = 0%Z)) as [Hz|Hnz].
    + rewrite Hz. assert (combined * inject_Z 0 == 0) as -> by ring.
      change (Qfloor 0) with 0%Z. lia.
    + assert (0 < inject_Z range) as Hrpos.
      { change 0 with (inject_Z 0). rewrite <- Zlt_Qlt. lia. }
      assert (0 ≤ Qfloor (combined * inject_Z range) < range)%Z; [|lia].
      apply Qfloor_bounds; [change (inject_Z 0) with 0; nra | nra].
  - unfold Color.charIndex, length_minus, of_Z.
    unfold JS.div. change (Qeq_bool 255 0) with false.
    cbv iota. cbn [JS.mul JS.floor].
    set (range := (Z.of_nat (length charSet) - 2)%Z).
    assert (0 <= brightness / 255) as H0 by (apply Qle_shift_div_l; lra).
    assert (brightness / 255 < 1) as H1 by (apply Qlt_shift_div_r; lra).
    assert (0 < inject_Z range) as Hrpos.
    { change 0 with (inject_Z 0). rewrite <- Zlt_Qlt. lia. }
    assert (0 ≤ Qfloor (brightness / 255 * inject_Z range) < range)%Z as Hk.
    { apply Qfloor_bounds; [change (inject_Z 0) with 0; nra | nra]. }
    destruct (selectable_intro charSet (Qfloor (brightness / 255 * inject_Z range)))
      as (i & c & Hi & Hrange & Hc & Hat); [done|lia|].
    exists i, c. repeat split; try done; lia.
Qed.

Lemma charIndex_in_range_witness :
  selectable defaultCharSet (Edge.charIndex defaultCharSet (Fin 255) (Fin 128)) ∧
  selectable defaultCharSet (Color.charIndex defaultCharSet (Fin 128)).
Proof.
  apply (charIndex_in_range defaultCharSet 255 128).
  - vm_compute. lia.
  - split; discriminate.
  - split; discriminate.
Defined.

(** * Grid dimensions *)

Lemma div_Fin p q : ¬ q == 0 → (Fin p / Fin q)%js = Fin (p / q).
Proof.
  intros Hq. unfold JS.div. destruct (Qeq_bool q 0) eqn:E; [|done].
  apply Qeq_bool_iff in E. done.
Qed.

Lemma inject_nat_pos (n : nat) : (0 < n)%nat → 0 < inject_Z (Z.of_nat n).
Proof. intros H. change 0 with (inject_Z 0). rewrite <- Zlt_Qlt. lia. Qed.

(** C10.  With [preserveAspectRatio] and an image of positive width and
    height, the recomputed grid is never larger than configured: the final
    height is at most [outputHeight] and the final width at most
    [outputWidth].  Either the configured width is kept, or the height is
    clamped to [outputHeight] and the re-derived width is strictly below
    [outputWidth]. *)
Theorem gridSize_within_limits options image (W H : Q) :
  Main.preserveAspectRatio options = true →
  Main.outputWidth options = Fin W →
  Main.outputHeight options = Fin H →
  (0 < image_width image)%nat → (0 < image_height image)%nat →
  ∃ w h, Main.gridSize options image = (Fin w, Fin h) ∧
    h <= H ∧ w <= W ∧ (w = W ∨ (h = H ∧ w < W)).
Proof.
  intros Hp HW HH Hiw Hih. unfold Main.gridSize. rewrite Hp, HW, HH.
  pose proof (inject_nat_pos _ Hiw) as Hiw'.
  pose proof (inject_nat_pos _ Hih) as Hih'.
  unfold of_nat. rewrite (div_Fin _ (inject_Z (Z.of_nat (image_height image)))) by lra.
  set (a := inject_Z (Z.of_nat (image_width image)) / inject_Z (Z.of_nat (image_height image))).
  assert (0 < a) as Ha by (apply Qlt_shift_div_l; lra).
  rewrite (div_Fin W a) by lra. rewrite (div_Fin _ 2) by lra.
  cbn [JS.floor JS.mul]. unfold JS.gt, JS.lt.
  set (v := W / a / 2).
  assert (W == v * a * 2) as HWv by (unfold v; field; lra).
  destruct (Qltb H (inject_Z (Qfloor v))) eqn:Hgt.
  - apply Qltb_lt in Hgt. eexists _, _. split; [done|].
    pose proof (Qfloor_le v) as Hfl.
    pose proof (Qfloor_le (H * a * 2)) as Hfl'.
    assert (H * a * 2 < W) as Hlt by (rewrite HWv; nra).
    split; [lra|]. split; [lra|]. right. split; [done|]. lra.
  - apply Qltb_ge in Hgt. eexists _, _. split; [done|].
    split; [done|]. split; [lra|]. by left.
Qed.

(** * Block sampling *)

Section LoopInvariants.
Context {S : Type}.

Lemma loop_from_inv (P : S → Prop) fuel i cond (body : nat → S → S) s :
  P s →
  (∀ j t, cond j = true → P t → P (body j t)) →
  P (loop_from fuel i cond body s).
Proof.
  intros Hs Hstep. revert i s Hs. induction fuel as [|fuel IH]; intros i s Hs; [done|].
  simpl. destruct (cond i) eqn:Hc; [|done]. apply IH. by apply Hstep.
Qed.

Lemma loop_from_rel {T : Type} (R : S → T → Prop) fuel i cond
    (body : nat → S → S) (body' : nat → T → T) s t :
  R s t →
  (∀ j s t, cond j = true → R s t → R (body j s) (body' j t)) →
  R (loop_from fuel i cond body s) (loop_from fuel i cond body' t).
Proof.
  intros Hst Hstep. revert i s t Hst.
  induction fuel as [|fuel IH]; intros i s t Hst; [done|].
  simpl. destruct (cond i) eqn:Hc; [|done]. apply IH. by apply Hstep.
Qed.
End LoopInvariants.

Lemma pixelIs_pixels image py px cr cg cb :
  pixelIs image py px cr cg cb →
  let i := ((py * image_width image + px) * 4)%nat in
  pixels image i = of_Z cr ∧ pixels image (i + 1) = of_Z cg ∧
  pixels image (i + 2) = of_Z cb.
Proof. intros (H1 & H2 & H3). unfold pixels. simpl. by rewrite H1, H2, H3. Qed.

Lemma inject_Z_eq_bool (a b : Z) : Qeq_bool (inject_Z a) (inject_Z b) = bool_decide (a = b).
Proof.
  case_bool_decide as H.
  - subst. apply Qeq_bool_iff. reflexivity.
  - destruct (Qeq_bool _ _) eqn:E; [|done]. apply Qeq_bool_iff in E.
    rewrite inject_Z_injective in E. done.
Qed.

Lemma notExtreme_of_Z cr cg cb :
  notExtreme (of_Z cr) (of_Z cg) (of_Z cb) = negb (extremeColor cr cg cb).
Proof.
  unfold notExtreme, extremeColor, of_Z, strict_eq. f_equal.
  change 0 with (inject_Z 0). change 255 with (inject_Z 255).
  rewrite !inject_Z_eq_bool.
  rewrite <- !bool_decide_and, <- bool_decide_or. apply bool_decide_ext.
  split.
  - intros [[[-> ->] ->]|[[-> ->] ->]]; auto.
  - intros [H|H]; injection H as -> -> ->; auto.
Qed.

Lemma luminance_of_Z cr cg cb :
  luminance (of_Z cr) (of_Z cg) (of_Z cb) = Fin (lum cr cg cb).
Proof. reflexivity. Qed.

(** the two selectors sample the same brightness, count and flag *)
Lemma sampleBlock_agree image edges stepX stepY pixelX pixelY :
  let e := Edge.sampleBlock image edges stepX stepY pixelX pixelY in
  let c := Color.sampleBlock image stepX stepY pixelX pixelY in
  Edge.brightness e = Color.brightness c ∧
  Edge.pixelCount e = Color.pixelCount c ∧
  Edge.isExtreme e = Color.isExtreme c.
Proof.
  simpl. unfold Edge.sampleBlock, Color.sampleBlock.
  pose (R := λ e c, Edge.brightness e = Color.brightness c ∧
    Edge.pixelCount e = Color.pixelCount c ∧ Edge.isExtreme e = Color.isExtreme c).
  apply (loop_from_rel R); [done|].
  intros sy e c _ Hec. apply (loop_from_rel R); [done|].
  intros sx e' c' _ (Hb & Hn & Hx). unfold R. simpl. by rewrite Hb, Hn, Hx.
Qed.

(** a block of black and white pixels keeps the flag *)
Lemma sampleBlock_blackOrWhite image stepX stepY pixelX pixelY :
  blackOrWhite image →
  Color.isExtreme (Color.sampleBlock image stepX stepY pixelX pixelY) = true.
Proof.
  intros Hbw. unfold Color.sampleBlock.
  pose (P := λ acc, Color.isExtreme acc = true).
  apply (loop_from_inv P); [done|].
  intros sy acc Hy Hacc. apply (loop_from_inv P); [done|].
  intros sx acc' Hx Hacc'. apply Nat.ltb_lt in Hy, Hx.
  unfold Color.samplePixel. cbn [Color.isExtreme].
  destruct (Hbw _ _ Hy Hx) as [Hp|Hp];
    apply pixelIs_pixels in Hp as (-> & -> & ->);
    by rewrite notExtreme_of_Z.
Qed.

Lemma sampleBlock_count_pos image stepX stepY pixelX pixelY :
  (0 < stepX)%nat → (0 < stepY)%nat →
  (pixelX < image_width image)%nat → (pixelY < image_height image)%nat →
  (0 < Color.pixelCount (Color.sampleBlock image stepX stepY pixelX pixelY))%nat.
Proof.
  intros HsX HsY HpX HpY. unfold Color.sampleBlock.
  pose (P := λ acc, (0 < Color.pixelCount acc)%nat).
  assert (∀ fuel i py acc, P acc →
    P (loop_from fuel i (λ sx, (pixelX + sx <? image_width image)%nat)
         (λ sx acc, Color.samplePixel image py (pixelX + sx) acc) acc)) as Hinner.
  { intros fuel i py acc Hacc. apply (loop_from_inv P); [done|].
    intros j t _ _. unfold P. simpl. lia. }
  destruct stepY as [|stepY]; [lia|]. simpl loop_from.
  rewrite Nat.add_0_r. rewrite (proj2 (Nat.ltb_lt _ _) HpY).
  apply (loop_from_inv P).
  - destruct stepX as [|stepX]; [lia|]. simpl loop_from.
    rewrite Nat.add_0_r. rewrite (proj2 (Nat.ltb_lt _ _) HpX).
    apply Hinner. unfold P. simpl. lia.
  - intros j t _ Ht. by apply Hinner.
Qed.

Lemma samplePixel_uniform image py px cr cg cb acc :
  pixelIs image py px cr cg cb →
  uniformSample cr cg cb acc →
  uniformSample cr cg cb (Color.samplePixel image py px acc).
Proof.
  intros Hp [Hx (qy & qr & qg & qb & Hy & Hqy & Hr & Hqr & Hg & Hqg & Hb & Hqb)].
  apply pixelIs_pixels in Hp as (Hpr & Hpg & Hpb).
  unfold uniformSample, Color.samplePixel.
  cbn [Color.isExtreme Color.pixelCount Color.brightness Color.totalR
       Color.totalG Color.totalB].
  rewrite Hpr, Hpg, Hpb, notExtreme_of_Z, luminance_of_Z, Hy, Hr, Hg, Hb.
  split.
  - rewrite Hx. destruct (extremeColor cr cg cb), (Color.pixelCount acc); done.
  - unfold of_Z. cbn [JS.add]. eexists _, _, _, _.
    rewrite Nat2Z.inj_succ, <- Z.add_1_r, inject_Z_plus.
    repeat split; try reflexivity.
    + rewrite Hqy. ring.
    + rewrite Hqr. ring.
    + rewrite Hqg. ring.
    + rewrite Hqb. ring.
Qed.

Lemma sampleBlock_uniform image cr cg cb stepX stepY pixelX pixelY :
  uniform image cr cg cb →
  uniformSample cr cg cb (Color.sampleBlock image stepX stepY pixelX pixelY).
Proof.
  intros Hu. unfold Color.sampleBlock.
  apply (loop_from_inv (uniformSample cr cg cb)).
  - split; [done|]. exists 0, 0, 0, 0. simpl. repeat split; try done; ring.
  - intros sy acc Hy Hacc. apply (loop_from_inv (uniformSample cr cg cb)); [done|].
    intros sx acc' Hx Hacc'. apply Nat.ltb_lt in Hy, Hx.
    apply samplePixel_uniform; [|done]. by apply Hu.
Qed.

(** the mean of [n > 0] copies *)
Lemma mean_uniform (total : Q) (n : nat) (v : Q) :
  (0 < n)%nat → total == inject_Z (Z.of_nat n) * v →
  ∃ m, mean (Fin total) n = Fin m ∧ m == v.
Proof.
  intros Hn Ht. unfold mean. rewrite (proj2 (Nat.ltb_lt _ _) Hn).
  pose proof (inject_nat_pos n Hn) as Hpos.
  unfold of_nat. rewrite div_Fin by lra. eexists. split; [done|].
  rewrite Ht. field. lra.
Qed.

(** * The glyph grid, cell by cell *)

Lemma for_lt_pair {A B : Type} lo hi (body : nat → A * B → A * B)
    (F : nat → A → A) (G : nat → B → B) s :
  (∀ i t, body i t = (F i t.1, G i t.2)) →
  for_lt lo hi body s = (for_lt lo hi F s.1, for_lt lo hi G s.2).
Proof.
  intros Hbody. unfold for_lt. generalize (hi - lo)%nat as n. intros n.
  revert lo s. induction n as [|n IH]; intros lo s; [by destruct s|].
  simpl. rewrite IH, Hbody. done.
Qed.

Lemma sweep_const {A} (d : A) h w (f : nat → nat → A) (v : A) :
  rect h w (sweep d 0 h 0 w (λ y x _, f y x) (mkArray2 h w v)) ∧
  ∀ y x, (y < h)%nat → (x < w)%nat →
    get2 d (sweep d 0 h 0 w (λ y x _, f y x) (mkArray2 h w v)) y x = f y x.
Proof.
  destruct (sweep_spec d h w (mkArray2 h w v) 0 h 0 w (λ y x _, f y x))
    as [Hr Hget]; [apply rect_mkArray2|lia|lia|].
  split; [done|]. intros y x Hy Hx. rewrite Hget. unfold inside.
  rewrite bool_decide_eq_true_2; [done|lia].
Qed.

Lemma imageToAscii_cell charSet image width height :
  rect height width (Edge.imageToAscii charSet image width height) ∧
  ∀ y x, (y < height)%nat → (x < width)%nat →
    get2 Undefined (Edge.imageToAscii charSet image width height) y x =
    Edge.glyph charSet (edgeBlock image width height y x).
Proof.
  apply (sweep_const Undefined height width
    (λ y x, Edge.glyph charSet (edgeBlock image width height y x))).
Qed.

Lemma imageToAsciiWithColor_cell charSet image width height :
  let out := Color.imageToAsciiWithColor charSet image width height in
  rect height width out.1 ∧ rect height width out.2 ∧
  ∀ y x, (y < height)%nat → (x < width)%nat →
    get2 Undefined out.1 y x = Color.glyph charSet (colorBlock image width height y x) ∧
    get2 {| r := NaN; g := NaN; b := NaN |} out.2 y x =
      Color.averageColor (colorBlock image width height y x).
Proof.
  simpl. unfold Color.imageToAsciiWithColor.
  set (d := {| r := NaN; g := NaN; b := NaN |}).
  rewrite (for_lt_pair 0 height _
    (λ y ascii, for_lt 0 width (λ x ascii,
       set2 ascii y x (Color.glyph charSet (colorBlock image width height y x))) ascii)
    (λ y colors, for_lt 0 width (λ x colors,
       set2 colors y x (Color.averageColor (colorBlock image width height y x))) colors)).
  2:{ intros y t. apply for_lt_pair. by intros x [ascii colors]. }
  cbn [fst snd].
  destruct (sweep_const Undefined height width
    (λ y x, Color.glyph charSet (colorBlock image width height y x)) (Str []))
    as [Hr1 Hg1].
  destruct (sweep_const d height width
    (λ y x, Color.averageColor (colorBlock image width height y x))
    {| r := Fin 0; g := Fin 0; b := Fin 0 |}) as [Hr2 Hg2].
  split; [exact Hr1|]. split; [exact Hr2|].
  intros y x Hy Hx. split; [by apply Hg1 | by apply Hg2].
Qed.

Lemma array2_const {A} (d : A) h w (a : list (list A)) v :
  rect h w a →
  (∀ y x, (y < h)%nat → (x < w)%nat → get2 d a y x = v) →
  a = mkArray2 h w v.
Proof.
  intros [Hh Hw] Hget. apply list_eq. intros y. unfold mkArray2.
  destruct (decide (y < h)%nat) as [Hy|Hy].
  - rewrite lookup_replicate_2 by done.
    destruct (lookup_lt_is_Some_2 a y) as [row Hrow]; [lia|]. rewrite Hrow.
    f_equal. pose proof (Forall_lookup_1 _ _ _ _ Hw Hrow) as Hlen. simpl in Hlen.
    apply list_eq. intros x. destruct (decide (x < w)%nat) as [Hx|Hx].
    + rewrite lookup_replicate_2 by done.
      destruct (lookup_lt_is_Some_2 row x) as [c Hc]; [lia|]. rewrite Hc.
      f_equal. rewrite <- (Hget y x Hy Hx). symmetry. by eapply get2_lookup.
    + rewrite (proj2 (lookup_ge_None _ _)) by lia.
      symmetry. apply lookup_replicate_None. lia.
  - rewrite (proj2 (lookup_ge_None _ _)) by lia.
    symmetry. apply lookup_replicate_None. lia.
Qed.

Lemma lookup_concat_replicate {A} (l : list A) n p k :
  (p < n)%nat → (k < length l)%nat →
  concat (replicate n l) !! (p * length l + k)%nat = l !! k.
Proof.
  revert p. induction n as [|n IH]; intros p Hp Hk; [lia|].
  simpl. destruct p as [|p].
  - simpl. by rewrite lookup_app_l.
  - rewrite lookup_app_r by (simpl; lia).
    replace (Datatypes.S p * length l + k - length l)%nat
      with (p * length l + k)%nat by (simpl; lia).
    apply IH; lia.
Qed.

Lemma solid_uniform w h cr cg cb : uniform (solid w h cr cg cb) cr cg cb.
Proof.
  intros py px Hy Hx. simpl in Hy, Hx. unfold pixelIs, solid. simpl.
  assert (py * w + px < w * h)%nat as Hp by nia.
  pose proof (lookup_concat_replicate [cr; cg; cb; 255%Z] (w * h) (py * w + px)) as Hl.
  simpl length in Hl.
  split; [|split].
  - rewrite <- (Nat.add_0_r ((py * w + px) * 4)). by rewrite Hl by lia.
  - by rewrite Hl by lia.
  - by rewrite Hl by lia.
Qed.

Lemma uniform_blackOrWhite image :
  uniform image 0 0 0 ∨ uniform image 255 255 255 → blackOrWhite image.
Proof. intros [H|H] py px Hy Hx; [left | right]; by apply H. Qed.

(** C5.  For every raster whose pixels are all exactly black or exactly
    white, every cell of the glyph grid is the blank glyph, in the
    edge-aware selector and in the colour selector, for every grid size and
    character set. *)
Theorem black_and_white_raster_is_blank charSet image width height :
  blackOrWhite image →
  Edge.imageToAscii charSet image width height = mkArray2 height width blank ∧
  (Color.imageToAsciiWithColor charSet image width height).1
    = mkArray2 height width blank.
Proof.
  intros Hbw.
  assert (∀ y x, Color.isExtreme (colorBlock image width height y x) = true) as Hc.
  { intros y x. by apply sampleBlock_blackOrWhite. }
  split.
  - destruct (imageToAscii_cell charSet image width height) as [Hr Hget].
    apply (array2_const Undefined); [done|]. intros y x Hy Hx.
    rewrite Hget by done. unfold Edge.glyph, edgeBlock.
    destruct (sampleBlock_agree image (Edge.edgeField image)
      (image_width image / width) (image_height image / height)
      (x * (image_width image / width)) (y * (image_height image / height)))
      as (_ & _ & ->).
    fold (colorBlock image width height y x). by rewrite Hc.
  - destruct (imageToAsciiWithColor_cell charSet image width height)
      as (Hr & _ & Hget).
    apply (array2_const Undefined); [done|]. intros y x Hy Hx.
    destruct (Hget y x Hy Hx) as [-> _]. unfold Color.glyph. by rewrite Hc.
Qed.

Lemma black_and_white_raster_is_blank_witness :
  Edge.imageToAscii defaultCharSet (solid 4 4 0 0 0) 2 2
    = [[blank; blank]; [blank; blank]] ∧
  (Color.imageToAsciiWithColor defaultCharSet (solid 4 4 0 0 0) 2 2).1
    = [[blank; blank]; [blank; blank]].
Proof.
  apply (black_and_white_raster_is_blank defaultCharSet (solid 4 4 0 0 0) 2 2).
  apply uniform_blackOrWhite. left. apply solid_uniform.
Defined.

(** * Suppression *)

(** C1 fails as stated: with the character set ["@ #"] a cell of mean
    luminance 100 that is not extreme is not suppressed, yet its glyph is
    the blank one, because the set holds a space at the selected index. *)
Lemma blank_glyph_without_suppression :
  let charSet := units "@ #" in
  let image := solid 1 1 100 100 100 in
  let s := colorBlock image 1 1 0 0 in
  let brightness := mean (Color.brightness s) (Color.pixelCount s) in
  get2 Undefined (Color.imageToAsciiWithColor charSet image 1 1).1 0 0 = blank ∧
  Color.isExtreme s = false ∧
  JS.lt brightness (Fin 5) = false ∧
  JS.gt brightness (Fin 250) = false.
Proof. vm_compute. done. Qed.

(** C1, amended.  For every cell of the grid, in both selectors: a
    suppressed cell (extreme flag, or mean luminance below 5 or above 250)
    gets the blank glyph whatever the character set and the edge strength
    are; provided the character set holds no space at the selected index,
    the glyph is blank if and only if the cell is suppressed; and the colour
    recorded by [imageToAsciiWithColor] is the block's rounded average,
    suppressed or not. *)
Theorem blank_glyph_iff_suppressed charSet image width height y x :
  (y < height)%nat → (x < width)%nat →
  let e := edgeBlock image width height y x in
  let c := colorBlock image width height y x in
  let edgeStrength := mean (Edge.edgeStrength e) (Edge.pixelCount e) in
  let edgeBrightness := mean (Edge.brightness e) (Edge.pixelCount e) in
  let brightness := mean (Color.brightness c) (Color.pixelCount c) in
  let ascii := Edge.imageToAscii charSet image width height in
  let out := Color.imageToAsciiWithColor charSet image width height in
  (suppressed (Edge.isExtreme e) edgeBrightness = true →
   get2 Undefined ascii y x = blank) ∧
  (charAt charSet (Edge.charIndex charSet edgeStrength edgeBrightness) ≠ blank →
   get2 Undefined ascii y x = blank
   ↔ suppressed (Edge.isExtreme e) edgeBrightness = true) ∧
  (suppressed (Color.isExtreme c) brightness = true →
   get2 Undefined out.1 y x = blank) ∧
  (charAt charSet (Color.charIndex charSet brightness) ≠ blank →
   get2 Undefined out.1 y x = blank
   ↔ suppressed (Color.isExtreme c) brightness = true) ∧
  get2 {| r := NaN; g := NaN; b := NaN |} out.2 y x = Color.averageColor c.
Proof.
  intros Hy Hx. cbv zeta.
  destruct (imageToAscii_cell charSet image width height) as [_ Hedge].
  destruct (imageToAsciiWithColor_cell charSet image width height)
    as (_ & _ & Hcolor).
  destruct (Hcolor y x Hy Hx) as [Hglyph Hrgb].
  rewrite (Hedge y x Hy Hx). cbv zeta in Hglyph. rewrite Hglyph.
  unfold Edge.glyph, Color.glyph.
  split; [|split; [|split; [|split; [|done]]]].
  - by intros ->.
  - intros Hne. destruct (suppressed _ _); split; done.
  - by intros ->.
  - intros Hne. destruct (suppressed _ _); split; done.
Qed.

(** * Uniform rasters *)

Lemma step_valid (size n i : nat) :
  (1 ≤ n ≤ size)%nat → (i < n)%nat →
  (0 < size / n)%nat ∧ (i * (size / n) < size)%nat.
Proof.
  intros Hn Hi.
  assert (1 ≤ size / n)%nat as Hstep by (apply Nat.div_le_lower_bound; lia).
  pose proof (Nat.Div0.mul_div_le size n) as Hle.
  split; [lia|nia].
Qed.

Lemma round_integer (q : Q) (z : Z) :
  q == inject_Z z → JS.round (Fin q) = of_Z z.
Proof.
  intros Hq. unfold JS.round, of_Z. do 2 f_equal. rewrite Hq.
  assert ((z ≤ Qfloor (inject_Z z + (1 # 2)) < z + 1)%Z); [|lia].
  apply Qfloor_bounds; [lra|]. rewrite inject_Z_plus.
  change (inject_Z 1) with 1. lra.
Qed.

Lemma colorBlock_uniform image cr cg cb width height y x :
  uniform image cr cg cb →
  (1 ≤ width ≤ image_width image)%nat →
  (1 ≤ height ≤ image_height image)%nat →
  (y < height)%nat → (x < width)%nat →
  let c := colorBlock image width height y x in
  Color.isExtreme c = extremeColor cr cg cb ∧
  (∃ m, mean (Color.brightness c) (Color.pixelCount c) = Fin m ∧ m == lum cr cg cb) ∧
  Color.averageColor c = {| r := of_Z cr; g := of_Z cg; b := of_Z cb |}.
Proof.
  intros Hu Hw Hh Hy Hx. simpl. unfold colorBlock.
  destruct (step_valid _ _ _ Hw Hx) as [HsX HpX].
  destruct (step_valid _ _ _ Hh Hy) as [HsY HpY].
  pose proof (sampleBlock_count_pos image _ _ _ _ HsX HsY HpX HpY) as Hn.
  destruct (sampleBlock_uniform image cr cg cb
    (image_width image / width) (image_height image / height)
    (x * (image_width image / width)) (y * (image_height image / height)) Hu)
    as [Hext (qy & qr & qg & qb & Hqy & Hy' & Hqr & Hr' & Hqg & Hg' & Hqb & Hb')].
  set (s := Color.sampleBlock _ _ _ _ _) in *.
  split; [|split].
  - rewrite Hext. destruct (Color.pixelCount s); [lia|done].
  - rewrite Hqy. by apply mean_uniform.
  - unfold Color.averageColor. rewrite Hqr, Hqg, Hqb.
    pose proof (inject_nat_pos _ Hn) as Hpos.
    unfold of_nat. rewrite !div_Fin by lra.
    f_equal; apply round_integer.
    + rewrite Hr'. field. lra.
    + rewrite Hg'. field. lra.
    + rewrite Hb'. field. lra.
Qed.

Lemma lum_gray (g : Z) : lum g g g == inject_Z g.
Proof. unfold lum. ring. Qed.

Lemma Qltb_proper p p' q q' : p == p' → q == q' → Qltb p q = Qltb p' q'.
Proof.
  intros Hp Hq. destruct (Qltb p' q') eqn:E.
  - apply Qltb_lt. apply Qltb_lt in E. lra.
  - apply Qltb_ge. apply Qltb_ge in E. lra.
Qed.

Lemma suppressed_midrange (m : Q) :
  5 <= m <= 250 → suppressed false (Fin m) = false.
Proof.
  intros Hm. unfold suppressed, JS.gt, JS.lt. simpl.
  rewrite (proj2 (Qltb_ge m 5)) by lra. by rewrite (proj2 (Qltb_ge 250 m)) by lra.
Qed.

Lemma Color_charIndex_proper charSet m m' :
  m == m' → Color.charIndex charSet (Fin m) = Color.charIndex charSet (Fin m').
Proof.
  intros Hm. unfold Color.charIndex, length_minus, of_Z.
  rewrite !div_Fin by lra. cbn [JS.mul JS.floor JS.add].
  do 3 f_equal. apply Qfloor_comp. by rewrite Hm.
Qed.

(** C4 fails as stated: on the 5x5 raster that is (128,128,128)
    everywhere the edge field is 255 at row 1, column 2 (the boundary of the
    smoothing filter's zero border), and the cells (0,0) and (1,2) of the
    5x5 grid get different glyphs. *)
Lemma uniform_gray_has_edges :
  let image := solid 5 5 128 128 128 in
  let ascii := Edge.imageToAscii defaultCharSet image 5 5 in
  uniform image 128 128 128 ∧
  get2 NaN (Edge.edgeField image) 1 2 ==n Fin 255 ∧
  get2 Undefined ascii 0 0 = Str [35%N] ∧
  get2 Undefined ascii 1 2 = Str [45%N].
Proof.
  split; [apply solid_uniform|]. vm_compute. done.
Qed.

(** * Monotonic brightness *)

Lemma Color_charIndex_mono charSet (g1 g2 : Q) :
  (3 ≤ length charSet)%nat → g1 <= g2 →
  ∃ i1 i2 : Z,
    Color.charIndex charSet (Fin g1) ==n of_Z i1 ∧
    Color.charIndex charSet (Fin g2) ==n of_Z i2 ∧ (i1 ≤ i2)%Z.
Proof.
  intros Hlen Hg. unfold Color.charIndex, length_minus, of_Z.
  rewrite !div_Fin by lra. cbn [JS.mul JS.floor JS.add].
  set (range := (Z.of_nat (length charSet) - 2)%Z).
  assert (0 < inject_Z range) as Hr.
  { change 0 with (inject_Z 0). rewrite <- Zlt_Qlt. lia. }
  exists (Qfloor (g1 / 255 * inject_Z range) + 1)%Z,
         (Qfloor (g2 / 255 * inject_Z range) + 1)%Z.
  split; [simpl; by rewrite inject_Z_plus|].
  split; [simpl; by rewrite inject_Z_plus|].
  apply Z.add_le_mono_r. apply Qfloor_resp_le.
  apply Qmult_le_compat_r; [|lra].
  apply Qle_shift_div_l; [lra|].
  assert (g1 / 255 * 255 == g1) as -> by (field; lra). done.
Qed.

(** C8.  For two uniform gray rasters of levels [5 <= g1 < g2 <= 250], a
    character set of at least 3 glyphs and grids not larger than the
    rasters, any cell of the first and any cell of the second receive the
    glyph at their brightness-only index, and the index for [g1] is at most
    the index for [g2]. *)
Theorem brightness_index_monotone charSet image1 image2 (g1 g2 : Z)
    width1 height1 y1 x1 width2 height2 y2 x2 :
  (3 ≤ length charSet)%nat →
  (5 ≤ g1)%Z → (g1 < g2)%Z → (g2 ≤ 250)%Z →
  uniform image1 g1 g1 g1 → uniform image2 g2 g2 g2 →
  (1 ≤ width1 ≤ image_width image1)%nat → (1 ≤ height1 ≤ image_height image1)%nat →
  (1 ≤ width2 ≤ image_width image2)%nat → (1 ≤ height2 ≤ image_height image2)%nat →
  (y1 < height1)%nat → (x1 < width1)%nat → (y2 < height2)%nat → (x2 < width2)%nat →
  let c1 := colorBlock image1 width1 height1 y1 x1 in
  let c2 := colorBlock image2 width2 height2 y2 x2 in
  let index1 := Color.charIndex charSet (mean (Color.brightness c1) (Color.pixelCount c1)) in
  let index2 := Color.charIndex charSet (mean (Color.brightness c2) (Color.pixelCount c2)) in
  get2 Undefined (Color.imageToAsciiWithColor charSet image1 width1 height1).1 y1 x1
    = charAt charSet index1 ∧
  get2 Undefined (Color.imageToAsciiWithColor charSet image2 width2 height2).1 y2 x2
    = charAt charSet index2 ∧
  ∃ i1 i2 : Z, index1 ==n of_Z i1 ∧ index2 ==n of_Z i2 ∧ (i1 ≤ i2)%Z.
Proof.
  intros Hlen H5 Hlt H250 Hu1 Hu2 Hw1 Hh1 Hw2 Hh2 Hy1 Hx1 Hy2 Hx2. simpl.
  destruct (colorBlock_uniform image1 g1 g1 g1 width1 height1 y1 x1 Hu1 Hw1 Hh1 Hy1 Hx1)
    as (Hext1 & (m1 & Hm1 & Hq1) & _).
  destruct (colorBlock_uniform image2 g2 g2 g2 width2 height2 y2 x2 Hu2 Hw2 Hh2 Hy2 Hx2)
    as (Hext2 & (m2 & Hm2 & Hq2) & _).
  rewrite lum_gray in Hq1, Hq2.
  assert (inject_Z 5 <= inject_Z g1) as H5' by (rewrite <- Zle_Qle; lia).
  assert (inject_Z g1 <= inject_Z g2) as H12 by (rewrite <- Zle_Qle; lia).
  assert (inject_Z g2 <= inject_Z 250) as H250' by (rewrite <- Zle_Qle; lia).
  change (inject_Z 5) with 5 in H5'. change (inject_Z 250) with 250 in H250'.
  assert (extremeColor g1 g1 g1 = false) as Hne1.
  { unfold extremeColor. apply bool_decide_eq_false. intros [H|H]; injection H; lia. }
  assert (extremeColor g2 g2 g2 = false) as Hne2.
  { unfold extremeColor. apply bool_decide_eq_false. intros [H|H]; injection H; lia. }
  destruct (imageToAsciiWithColor_cell charSet image1 width1 height1) as (_ & _ & Hc1).
  destruct (imageToAsciiWithColor_cell charSet image2 width2 height2) as (_ & _ & Hc2).
  destruct (Hc1 y1 x1 Hy1 Hx1) as [-> _]. destruct (Hc2 y2 x2 Hy2 Hx2) as [-> _].
  unfold Color.glyph. rewrite Hext1, Hext2, Hne1, Hne2, Hm1, Hm2.
  rewrite !suppressed_midrange by lra.
  split; [done|]. split; [done|].
  apply Color_charIndex_mono; [done|lra].
Qed.

(** * The batch loop *)

Lemma asciiFrames_log l w : Main.asciiFrames (Main.log l w) = Main.asciiFrames w.
Proof. reflexivity. Qed.

Lemma convertFrom_abort options n reason after before i w :
  Forall (convertible options) before →
  ∃ w', Main.convertFrom options n i (before ++ Main.Unreadable reason :: after) w
          = (Main.Throw (Main.LoadError reason), w') ∧
    ∀ j, Main.asciiFrames w' !! j =
      if decide (i ≤ j < i + length before)%nat
      then before !! (j - i)%nat ≫= written options
      else Main.asciiFrames w !! j.
Proof.
  intros Hall. revert i w. induction Hall as [|f before Hf Hall IH]; intros i w.
  - exists w. split; [done|]. intros j. simpl. rewrite decide_False by lia. done.
  - destruct Hf as [c Hc]. unfold written in Hc.
    simpl. destruct (Main.convertImageToAscii options f) as [c'|e] eqn:Hconv; [|done].
    injection Hc as ->.
    match goal with |- context [Main.convertFrom options n (S i) _ ?w1] =>
      set (w0 := w1) end.
    assert (∀ j, Main.asciiFrames w0 !! j = <[i:=c]> (Main.asciiFrames w) !! j) as Hw0.
    { intros j. unfold w0. by destruct (_ =? _)%nat. }
    destruct (IH (S i) w0) as (w' & Hrun & Hget).
    exists w'. split; [done|]. intros j. rewrite Hget, Hw0.
    destruct (decide (j = i)) as [->|Hne].
    + rewrite decide_False by lia. rewrite decide_True by lia.
      rewrite Nat.sub_diag. simpl. unfold written. rewrite Hconv.
      apply lookup_insert_eq.
    + rewrite lookup_insert_ne by done.
      destruct (decide (S i ≤ j < S i + length before)%nat).
      * rewrite decide_True by lia.
        replace (j - i)%nat with (S (j - S i)) by lia. done.
      * rewrite decide_False by lia. done.
Qed.

(** C7 fails as stated: with an unreadable first frame and a convertible
    second frame, [convertFramesToAscii] throws and nothing is written for
    the second frame. *)
Lemma bad_frame_aborts_batch :
  let good := Main.Decoded (solid 1 1 100 100 100) in
  let frames := [Main.Unreadable "corrupt"; good] in
  let run := Main.convertFramesToAscii testOptions frames emptyWorld in
  convertible testOptions good ∧
  run.1 = Main.Throw (Main.LoadError "corrupt") ∧
  Main.asciiFrames run.2 !! 1%nat = None.
Proof.
  split; [|split].
  - eexists. vm_compute. reflexivity.
  - vm_compute. reflexivity.
  - vm_compute. reflexivity.
Qed.

(** C7, amended.  When the frame after the convertible frames [before] is
    unreadable, [convertFramesToAscii] throws the error [loadImage] raised:
    the frames before it have been written, nothing is written for the
    unreadable frame nor for any later one, and [convert] logs that error
    and throws it again. *)
Theorem bad_frame_stops_conversion ext options reason before after w :
  Forall (convertible options) before →
  Main.download ext = Main.Ok tt →
  Main.extract ext = Main.Ok (before ++ Main.Unreadable reason :: after) →
  let frames := before ++ Main.Unreadable reason :: after in
  let loop := Main.convertFramesToAscii options frames w in
  let run := Main.convert ext options w in
  loop.1 = Main.Throw (Main.LoadError reason) ∧
  (∀ j, (j < length before)%nat →
     Main.asciiFrames loop.2 !! j = before !! j ≫= written options ∧
     is_Some (Main.asciiFrames loop.2 !! j)) ∧
  (∀ j, (length before ≤ j)%nat →
     Main.asciiFrames loop.2 !! j = Main.asciiFrames w !! j) ∧
  run.1 = Main.Throw (Main.LoadError reason) ∧
  (∀ j, (length before ≤ j)%nat → Main.asciiFrames run.2 !! j = None) ∧
  last (Main.console run.2)
    = Some (Main.ErrorLine "Error during conversion:" (Main.LoadError reason)).
Proof.
  intros Hall Hd He. cbv zeta.
  assert (∀ w0, ∃ w',
    Main.convertFramesToAscii options (before ++ Main.Unreadable reason :: after) w0
      = (Main.Throw (Main.LoadError reason), w') ∧
    ∀ j, Main.asciiFrames w' !! j =
      if decide (j < length before)%nat then before !! j ≫= written options
      else Main.asciiFrames w0 !! j) as Hloop.
  { intros w0. unfold Main.convertFramesToAscii.
    destruct (convertFrom_abort options
      (length (before ++ Main.Unreadable reason :: after)) reason after before 0
      (Main.log (Main.Info "Converting frames to ASCII...") w0) Hall)
      as (w' & -> & Hget).
    exists w'. split; [done|]. intros j. rewrite Hget, Nat.sub_0_r.
    destruct (decide (j < length before)%nat).
    - rewrite decide_True by lia. done.
    - rewrite decide_False by lia. done. }
  destruct (Hloop w) as (w' & Hrun & Hget). rewrite Hrun. cbn [fst snd].
  split; [done|]. split; [|split].
  - intros j Hj. rewrite Hget, decide_True by done. split; [done|].
    destruct (lookup_lt_is_Some_2 before j Hj) as [f Hf]. rewrite Hf. simpl.
    by apply (Forall_lookup_1 _ _ _ _ Hall Hf).
  - intros j Hj. rewrite Hget, decide_False by lia. done.
  - unfold Main.convert, Main.convertBody. rewrite Hd, He.
    destruct (Hloop {| Main.asciiFrames := ∅; Main.console := Main.console w |})
      as (w'' & -> & Hget'').
    cbn [fst snd]. split; [done|]. split.
    + intros j Hj. rewrite asciiFrames_log, Hget'', decide_False by lia. done.
    + simpl. apply last_snoc.
Qed.

(** * Witnesses *)

Lemma blank_glyph_iff_suppressed_witness :
  get2 {| r := NaN; g := NaN; b := NaN |}
    (Color.imageToAsciiWithColor defaultCharSet (solid 4 4 128 128 128) 2 2).2 0 0
  = Color.averageColor (colorBlock (solid 4 4 128 128 128) 2 2 0 0).
Proof.
  apply (blank_glyph_iff_suppressed defaultCharSet (solid 4 4 128 128 128) 2 2 0 0);
    lia.
Defined.

Lemma brightness_index_monotone_witness :
  ∃ i1 i2 : Z,
    Color.charIndex defaultCharSet
      (mean (Color.brightness (colorBlock (solid 2 2 100 100 100) 1 1 0 0))
            (Color.pixelCount (colorBlock (solid 2 2 100 100 100) 1 1 0 0)))
      ==n of_Z i1 ∧
    Color.charIndex defaultCharSet
      (mean (Color.brightness (colorBlock (solid 2 2 200 200 200) 1 1 0 0))
            (Color.pixelCount (colorBlock (solid 2 2 200 200 200) 1 1 0 0)))
      ==n of_Z i2 ∧ (i1 ≤ i2)%Z.
Proof.
  apply (brightness_index_monotone defaultCharSet
    (solid 2 2 100 100 100) (solid 2 2 200 200 200) 100 200 1 1 0 0 1 1 0 0);
    try apply solid_uniform; simpl; lia.
Defined.

Lemma bad_frame_stops_conversion_witness :
  (Main.convert
     {| Main.download := Main.Ok tt;
        Main.extract := Main.Ok
          ([Main.Decoded (solid 1 1 100 100 100)]
           ++ Main.Unreadable "corrupt" :: [Main.Decoded (solid 1 1 100 100 100)]);
        Main.createVideo := Main.Ok tt;
        Main.addAudio := Main.Ok tt |}
     testOptions emptyWorld).1
  = Main.Throw (Main.LoadError "corrupt").
Proof.
  apply (bad_frame_stops_conversion
    {| Main.download := Main.Ok tt;
       Main.extract := Main.Ok
         ([Main.Decoded (solid 1 1 100 100 100)]
          ++ Main.Unreadable "corrupt" :: [Main.Decoded (solid 1 1 100 100 100)]);
       Main.createVideo := Main.Ok tt;
       Main.addAudio := Main.Ok tt |}
    testOptions "corrupt" [Main.Decoded (solid 1 1 100 100 100)]
    [Main.Decoded (solid 1 1 100 100 100)] emptyWorld).
  - constructor; [|constructor]. eexists. vm_compute. reflexivity.
  - reflexivity.
  - reflexivity.
Defined.

Lemma gaussianBlur_range_witness :
  fieldMin (gaussianBlur (mkArray2 5 5 (Fin 128))) ==n Fin 0 ∧
  JS.lt (fieldMin (gaussianBlur (mkArray2 5 5 (Fin 128))))
        (fieldMin (mkArray2 5 5 (Fin 128))) = true.
Proof.
  destruct (gaussianBlur_range (mkArray2 5 5 (Fin 128)) 5 5 128 128)
    as (_ & Hmin & Hlt).
  - split; [reflexivity | repeat constructor].
  - lia.
  - lia.
  - repeat constructor; discriminate.
  - discriminate.
  - split; [exact Hmin | apply Hlt; reflexivity].
Defined.

Lemma gridSize_within_limits_witness :
  ∃ w h,
    Main.gridSize
      {| Main.outputWidth := Fin 160; Main.outputHeight := Fin 90;
         Main.charSet := defaultCharSet; Main.preserveAspectRatio := true;
         Main.backgroundColor := "black" |}
      {| image_width := 1080; image_height := 1920; image_data := [] |}
    = (Fin w, Fin h) ∧ h <= 90 ∧ w <= 160.
Proof.
  destruct (gridSize_within_limits
    {| Main.outputWidth := Fin 160; Main.outputHeight := Fin 90;
       Main.charSet := defaultCharSet; Main.preserveAspectRatio := true;
       Main.backgroundColor := "black" |}
    {| image_width := 1080; image_height := 1920; image_data := [] |}
    160 90 eq_refl eq_refl eq_refl) as (w & h & Hsize & Hh & Hw & _).
  - simpl. lia.
  - simpl. lia.
  - exists w, h. split; [exact Hsize|]. split; [exact Hh | exact Hw].
Defined.

(** * Further properties *)

(** ** Blocks, cell by cell *)

Section BoundedLoops.
Context {S : Type}.

Lemma loop_from_inv_bounded (P : S → Prop) fuel i cond (body : nat → S → S) s :
  P s →
  (∀ j t, (i ≤ j < i + fuel)%nat → cond j = true → P t → P (body j t)) →
  P (loop_from fuel i cond body s).
Proof.
  revert i s. induction fuel as [|fuel IH]; intros i s Hs Hstep; [done|].
  simpl. destruct (cond i) eqn:Hc; [|done]. apply IH.
  - apply Hstep; [lia|done|done].
  - intros j t Hj. apply Hstep. lia.
Qed.

Lemma loop_from_ext fuel i cond (body body' : nat → S → S) s :
  (∀ j t, (i ≤ j < i + fuel)%nat → cond j = true → body j t = body' j t) →
  loop_from fuel i cond body s = loop_from fuel i cond body' s.
Proof.
  revert i s. induction fuel as [|fuel IH]; intros i s Hext; [done|].
  simpl. destruct (cond i) eqn:Hc; [|done]. rewrite Hext by (lia || done).
  apply IH. intros j t Hj. apply Hext. lia.
Qed.
End BoundedLoops.

Lemma colorBlock_local image image' width height y x :
  image_width image = image_width image' →
  image_height image = image_height image' →
  (∀ py px, inBlock image width height y x py px → samePixel image image' py px) →
  colorBlock image width height y x = colorBlock image' width height y x.
Proof.
  intros Hw Hh Hsame. unfold colorBlock, Color.sampleBlock.
  rewrite <- Hw, <- Hh.
  apply loop_from_ext. intros sy acc Hsy Hcy.
  apply loop_from_ext. intros sx acc' Hsx Hcx.
  apply Nat.ltb_lt in Hcy, Hcx.
  destruct (Hsame (y * (image_height image / height) + sy)%nat
                  (x * (image_width image / width) + sx)%nat) as (Hr & Hg & Hb).
  { unfold inBlock. lia. }
  unfold Color.samplePixel. rewrite <- Hw. by rewrite Hr, Hg, Hb.
Qed.

(** A cell of the colour selector depends on the pixels of its own block
    only: two images of the same size that agree on the block of a cell give
    that cell the same glyph and the same colour. *)
Theorem imageToAsciiWithColor_cell_local charSet image image' width height y x :
  image_width image = image_width image' →
  image_height image = image_height image' →
  (y < height)%nat → (x < width)%nat →
  (∀ py px, inBlock image width height y x py px → samePixel image image' py px) →
  let out := Color.imageToAsciiWithColor charSet image width height in
  let out' := Color.imageToAsciiWithColor charSet image' width height in
  get2 Undefined out.1 y x = get2 Undefined out'.1 y x ∧
  get2 {| r := NaN; g := NaN; b := NaN |} out.2 y x
    = get2 {| r := NaN; g := NaN; b := NaN |} out'.2 y x.
Proof.
  intros Hw Hh Hy Hx Hsame. cbv zeta.
  destruct (imageToAsciiWithColor_cell charSet image width height) as (_ & _ & Hc).
  destruct (imageToAsciiWithColor_cell charSet image' width height) as (_ & _ & Hc').
  destruct (Hc y x Hy Hx) as [-> ->]. destruct (Hc' y x Hy Hx) as [-> ->].
  by rewrite (colorBlock_local image image' width height y x Hw Hh Hsame).
Qed.

Lemma pixelIs_solid w h cr cg cb py px :
  (py < h)%nat → (px < w)%nat → pixelIs (solid w h cr cg cb) py px cr cg cb.
Proof. intros Hy Hx. by apply solid_uniform. Qed.

(** The mean of a constant block is the constant: when every pixel of a
    cell's block has the colour [(cr, cg, cb)], the colour recorded for the
    cell is exactly that colour. *)
Theorem uniform_block_colour charSet image width height y x cr cg cb :
  (1 ≤ width ≤ image_width image)%nat →
  (1 ≤ height ≤ image_height image)%nat →
  (y < height)%nat → (x < width)%nat →
  (∀ py px, inBlock image width height y x py px → pixelIs image py px cr cg cb) →
  get2 {| r := NaN; g := NaN; b := NaN |}
    (Color.imageToAsciiWithColor charSet image width height).2 y x
    = {| r := of_Z cr; g := of_Z cg; b := of_Z cb |}.
Proof.
  intros Hw Hh Hy Hx Hblock.
  destruct (imageToAsciiWithColor_cell charSet image width height) as (_ & _ & Hc).
  destruct (Hc y x Hy Hx) as [_ ->].
  set (image' := solid (image_width image) (image_height image) cr cg cb).
  rewrite (colorBlock_local image image' width height y x); [|done|done|].
  2:{ intros py px Hin. pose proof Hin as (_ & Hpy & _ & Hpx).
      apply Hblock, pixelIs_pixels in Hin as (Hr & Hg & Hb).
      pose proof (pixelIs_solid (image_width image) (image_height image)
        cr cg cb py px Hpy Hpx) as Hs.
      apply pixelIs_pixels in Hs as (Hr' & Hg' & Hb'). simpl in Hr', Hg', Hb'.
      unfold samePixel, image'. by rewrite Hr, Hg, Hb, Hr', Hg', Hb'. }
  by destruct (colorBlock_uniform image' cr cg cb width height y x)
    as (_ & _ & Havg); [apply solid_uniform|done..|].
Qed.

Lemma loop_from_skip {S : Type} fuel i cond (s : S) :
  loop_from fuel i cond (λ _ acc, acc) s = s.
Proof.
  revert i. induction fuel as [|fuel IH]; intros i; [done|].
  simpl. by destruct (cond i).
Qed.

Lemma sampleBlock_empty image stepX stepY pixelX pixelY :
  stepX = 0%nat ∨ stepY = 0%nat →
  Color.sampleBlock image stepX stepY pixelX pixelY = Color.start.
Proof.
  intros [-> | ->]; unfold Color.sampleBlock; [|done].
  simpl. apply loop_from_skip.
Qed.

(** A grid wider or higher than the image has a zero sampling step: no pixel
    is sampled, so every cell is blank in both selectors, and the colour
    recorded by the colour selector is [NaN] in every channel (its division
    by [pixelCount] is not guarded). *)
Theorem oversized_grid_is_blank charSet image width height y x :
  (image_width image < width)%nat ∨ (image_height image < height)%nat →
  (y < height)%nat → (x < width)%nat →
  let out := Color.imageToAsciiWithColor charSet image width height in
  get2 Undefined out.1 y x = blank ∧
  get2 {| r := NaN; g := NaN; b := NaN |} out.2 y x = {| r := NaN; g := NaN; b := NaN |} ∧
  get2 Undefined (Edge.imageToAscii charSet image width height) y x = blank.
Proof.
  intros Hbig Hy Hx. cbv zeta.
  assert (colorBlock image width height y x = Color.start) as Hstart.
  { unfold colorBlock. apply sampleBlock_empty.
    destruct Hbig; [left | right]; by apply Nat.div_small. }
  destruct (imageToAsciiWithColor_cell charSet image width height) as (_ & _ & Hc).
  destruct (Hc y x Hy Hx) as [-> ->]. rewrite Hstart.
  split; [done|]. split; [done|].
  destruct (imageToAscii_cell charSet image width height) as [_ He].
  rewrite (He y x Hy Hx). unfold Edge.glyph, edgeBlock.
  destruct (sampleBlock_agree image (Edge.edgeField image)
    (image_width image / width) (image_height image / height)
    (x * (image_width image / width)) (y * (image_height image / height)))
    as (-> & -> & ->).
  fold (colorBlock image width height y x). by rewrite Hstart.
Qed.

(** ** Well-formed images *)

Lemma pixels_byte image py px k :
  well_formed image →
  (py < image_height image)%nat → (px < image_width image)%nat → (k < 4)%nat →
  ∃ b, pixels image ((py * image_width image + px) * 4 + k) = of_Z b ∧ (0 ≤ b ≤ 255)%Z.
Proof.
  intros (_ & _ & Hlen & Hbytes) Hy Hx Hk. unfold pixels.
  destruct (lookup_lt_is_Some_2 (image_data image)
    ((py * image_width image + px) * 4 + k)) as [b Hb]; [nia|].
  rewrite Hb. exists b. split; [done|].
  by apply (Forall_lookup_1 _ _ _ _ Hbytes Hb).
Qed.

Lemma lum_byte cr cg cb :
  (0 ≤ cr ≤ 255)%Z → (0 ≤ cg ≤ 255)%Z → (0 ≤ cb ≤ 255)%Z →
  0 <= lum cr cg cb <= 255.
Proof.
  intros [Hr0 Hr1] [Hg0 Hg1] [Hb0 Hb1]. unfold lum.
  rewrite Zle_Qle in Hr0, Hr1, Hg0, Hg1, Hb0, Hb1.
  change (inject_Z 0) with 0 in *. change (inject_Z 255) with 255 in *. lra.
Qed.

Lemma samplePixel_byte image py px acc :
  well_formed image →
  (py < image_height image)%nat → (px < image_width image)%nat →
  byteSample acc → byteSample (Color.samplePixel image py px acc).
Proof.
  intros Hwf Hy Hx (qy & qr & qg & qb & Hqy & Hy' & Hqr & Hr' & Hqg & Hg' & Hqb & Hb').
  destruct (pixels_byte image py px 0 Hwf Hy Hx) as (cr & Hcr & Hrb); [lia|].
  destruct (pixels_byte image py px 1 Hwf Hy Hx) as (cg & Hcg & Hgb); [lia|].
  destruct (pixels_byte image py px 2 Hwf Hy Hx) as (cb & Hcb & Hbb); [lia|].
  rewrite Nat.add_0_r in Hcr.
  unfold byteSample, Color.samplePixel.
  cbn [Color.pixelCount Color.brightness Color.totalR Color.totalG Color.totalB].
  rewrite Hcr, Hcg, Hcb, luminance_of_Z, Hqy, Hqr, Hqg, Hqb.
  pose proof (lum_byte cr cg cb Hrb Hgb Hbb) as Hlum.
  destruct Hrb as [Hr0 Hr1], Hgb as [Hg0 Hg1], Hbb as [Hb0 Hb1].
  rewrite Zle_Qle in Hr0, Hr1, Hg0, Hg1, Hb0, Hb1.
  change (inject_Z 0) with 0 in *. change (inject_Z 255) with 255 in *.
  unfold of_Z. cbn [JS.add]. eexists _, _, _, _.
  rewrite Nat2Z.inj_succ, <- Z.add_1_r, inject_Z_plus.
  change (inject_Z 1) with 1.
  repeat split; try reflexivity; lra.
Qed.

Lemma sampleBlock_byte image stepX stepY pixelX pixelY :
  well_formed image →
  byteSample (Color.sampleBlock image stepX stepY pixelX pixelY).
Proof.
  intros Hwf. unfold Color.sampleBlock.
  apply (loop_from_inv byteSample).
  - exists 0, 0, 0, 0. simpl. repeat split; try done; lra.
  - intros sy acc Hy Hacc. apply (loop_from_inv byteSample); [done|].
    intros sx acc' Hx Hacc'. apply Nat.ltb_lt in Hy, Hx.
    by apply samplePixel_byte.
Qed.

Lemma mean_byte (total : Q) (n : nat) :
  (0 < n)%nat → 0 <= total <= 255 * inject_Z (Z.of_nat n) →
  ∃ m, mean (Fin total) n = Fin m ∧ m == total / inject_Z (Z.of_nat n) ∧ 0 <= m <= 255.
Proof.
  intros Hn Ht. unfold mean. rewrite (proj2 (Nat.ltb_lt _ _) Hn).
  pose proof (inject_nat_pos n Hn) as Hpos.
  unfold of_nat. rewrite div_Fin by lra. eexists. split; [done|].
  split; [reflexivity|].
  split; [apply Qle_shift_div_l | apply Qle_shift_div_r]; lra.
Qed.

Lemma round_byte (q : Q) :
  0 <= q <= 255 → ∃ z, JS.round (Fin q) = of_Z z ∧ (0 ≤ z ≤ 255)%Z.
Proof.
  intros Hq. exists (Qfloor (q + (1 # 2))). split; [done|].
  assert (0 ≤ Qfloor (q + (1 # 2)) < 256)%Z; [|lia].
  apply Qfloor_bounds.
  - change (inject_Z 0) with 0. lra.
  - change (inject_Z 256) with 256. lra.
Qed.

Lemma Color_charIndex_selectable charSet (brightness : Q) :
  (3 ≤ length charSet)%nat → 5 <= brightness <= 250 →
  selectable charSet (Color.charIndex charSet (Fin brightness)).
Proof.
  intros Hlen Hb. unfold Color.charIndex, length_minus, of_Z.
  rewrite div_Fin by lra. cbn [JS.mul JS.floor].
  set (range := (Z.of_nat (length charSet) - 2)%Z).
  assert (0 <= brightness / 255) as H0 by (apply Qle_shift_div_l; lra).
  assert (brightness / 255 < 1) as H1 by (apply Qlt_shift_div_r; lra).
  assert (0 < inject_Z range) as Hrpos.
  { change 0 with (inject_Z 0). rewrite <- Zlt_Qlt. lia. }
  assert (0 ≤ Qfloor (brightness / 255 * inject_Z range) < range)%Z as Hk.
  { apply Qfloor_bounds; [change (inject_Z 0) with 0; nra | nra]. }
  destruct (selectable_intro charSet (Qfloor (brightness / 255 * inject_Z range)))
    as (i & c & Hi & Hrange & Hc & Hat); [done|lia|].
  exists i, c. repeat split; try done; lia.
Qed.

Lemma not_suppressed_range ext (m : Q) :
  suppressed ext (Fin m) = false → ext = false ∧ 5 <= m <= 250.
Proof.
  unfold suppressed, JS.gt, JS.lt. intros H.
  apply orb_false_iff in H as [H H250]. apply orb_false_iff in H as [-> H5].
  apply Qltb_ge in H5, H250. done.
Qed.

(** For a decoded image, a character set of at least 3 glyphs and a grid not
    larger than the image, every cell of the colour selector is the blank
    glyph or a glyph of the character set at an index between 1 and
    [length - 2], never [undefined]; and every recorded colour channel is an
    integer between 0 and 255. *)
Theorem colour_selector_is_safe charSet image width height y x :
  well_formed image →
  (3 ≤ length charSet)%nat →
  (1 ≤ width ≤ image_width image)%nat →
  (1 ≤ height ≤ image_height image)%nat →
  (y < height)%nat → (x < width)%nat →
  let out := Color.imageToAsciiWithColor charSet image width height in
  (get2 Undefined out.1 y x = blank ∨
   ∃ (i : nat) c, (1 ≤ i ≤ length charSet - 2)%nat ∧ charSet !! i = Some c ∧
     get2 Undefined out.1 y x = Str [c]) ∧
  ∃ cr cg cb : Z,
    get2 {| r := NaN; g := NaN; b := NaN |} out.2 y x
      = {| r := of_Z cr; g := of_Z cg; b := of_Z cb |} ∧
    (0 ≤ cr ≤ 255)%Z ∧ (0 ≤ cg ≤ 255)%Z ∧ (0 ≤ cb ≤ 255)%Z.
Proof.
  intros Hwf Hlen Hw Hh Hy Hx. cbv zeta.
  destruct (imageToAsciiWithColor_cell charSet image width height) as (_ & _ & Hc).
  destruct (Hc y x Hy Hx) as [-> ->]. unfold colorBlock.
  destruct (step_valid _ _ _ Hw Hx) as [HsX HpX].
  destruct (step_valid _ _ _ Hh Hy) as [HsY HpY].
  pose proof (sampleBlock_count_pos image _ _ _ _ HsX HsY HpX HpY) as Hn.
  destruct (sampleBlock_byte image (image_width image / width)
    (image_height image / height) (x * (image_width image / width))
    (y * (image_height image / height)) Hwf)
    as (qy & qr & qg & qb & Hqy & Hy' & Hqr & Hr' & Hqg & Hg' & Hqb & Hb').
  set (s := Color.sampleBlock _ _ _ _ _) in *.
  split.
  - unfold Color.glyph. rewrite Hqy.
    destruct (mean_byte qy (Color.pixelCount s) Hn Hy') as (m & -> & _ & Hm).
    destruct (suppressed (Color.isExtreme s) (Fin m)) eqn:Hsup; [by left|right].
    apply not_suppressed_range in Hsup as [_ Hrange].
    destruct (Color_charIndex_selectable charSet m Hlen Hrange)
      as (i & c & _ & Hi & Hci & Hat).
    by exists i, c.
  - unfold Color.averageColor. rewrite Hqr, Hqg, Hqb.
    pose proof (inject_nat_pos _ Hn) as Hpos.
    unfold of_nat. rewrite !div_Fin by lra.
    destruct (round_byte (qr / inject_Z (Z.of_nat (Color.pixelCount s)))) as (cr & -> & Hcr).
    { split; [apply Qle_shift_div_l | apply Qle_shift_div_r]; lra. }
    destruct (round_byte (qg / inject_Z (Z.of_nat (Color.pixelCount s)))) as (cg & -> & Hcg).
    { split; [apply Qle_shift_div_l | apply Qle_shift_div_r]; lra. }
    destruct (round_byte (qb / inject_Z (Z.of_nat (Color.pixelCount s)))) as (cb & -> & Hcb).
    { split; [apply Qle_shift_div_l | apply Qle_shift_div_r]; lra. }
    by exists cr, cg, cb.
Qed.

(** ** Smoothing and edges on whole fields *)

Lemma gaussianBlur_small_get data h w y x :
  rect h w data → (0 < h)%nat → (h < 5)%nat ∨ (w < 5)%nat →
  (y < h)%nat → (x < w)%nat →
  get2 NaN (gaussianBlur data) y x = Fin 0.
Proof.
  intros Hr Hh Hsmall Hy Hx.
  destruct (gaussianBlur_get data h w y x Hr Hh) as [_ ->].
  unfold interior, inside. rewrite bool_decide_eq_false_2 by lia.
  rewrite bool_decide_eq_true_2; [done|lia].
Qed.

(** A field with fewer than 5 rows or fewer than 5 columns has no interior:
    [gaussianBlur] returns zeros everywhere. *)
Theorem gaussianBlur_small_field data h w :
  rect h w data → (0 < h)%nat → (h < 5)%nat ∨ (w < 5)%nat →
  gaussianBlur data = mkArray2 h w (Fin 0).
Proof.
  intros Hr Hh Hsmall.
  destruct (gaussianBlur_get data h w 0 0 Hr Hh) as [Hr' _].
  apply (array2_const NaN); [done|]. intros y x Hy Hx.
  by apply (gaussianBlur_small_get data h w).
Qed.

Lemma for_lt_ext {S : Type} lo hi (body body' : nat → S → S) s :
  (∀ j t, (lo ≤ j < hi)%nat → body j t = body' j t) →
  for_lt lo hi body s = for_lt lo hi body' s.
Proof.
  intros Hext. unfold for_lt. apply loop_from_ext.
  intros j t Hj _. apply Hext. lia.
Qed.

Lemma magnitudes_sweep data :
  magnitudes data =
  sweep NaN 1 (length data - 1) 1 (row_length data - 1)
    (λ y x _, magnitudeAt data y x)
    (mkArray2 (length data) (row_length data) (Fin 0)).
Proof.
  unfold magnitudes, sweep. apply for_lt_ext. intros y a _.
  apply for_lt_ext. intros x a' _. unfold magnitudeAt.
  by destruct (gradient data y x).
Qed.

Lemma magnitudes_get data h w y x :
  rect h w data → (0 < h)%nat →
  rect h w (magnitudes data) ∧
  ((y < h)%nat → (x < w)%nat →
   get2 NaN (magnitudes data) y x =
     if inside 1 (h - 1) 1 (w - 1) y x then magnitudeAt data y x else Fin 0).
Proof.
  intros Hr Hh. rewrite magnitudes_sweep, (row_length_rect h w) by done.
  destruct Hr as [<- Hw].
  destruct (sweep_spec NaN (length data) w (mkArray2 (length data) w (Fin 0))
    1 (length data - 1) 1 (w - 1) (λ y x _, magnitudeAt data y x))
    as [Hr' Hget]; [apply rect_mkArray2|lia|lia|].
  split; [done|]. intros Hy Hx. rewrite Hget.
  destruct (inside _ _ _ _ y x); [done|]. by apply get2_mkArray2.
Qed.

Lemma Qsqrt_nonneg q : 0 <= Qsqrt q.
Proof.
  unfold Qsqrt. rewrite Qred_correct. unfold Qle. simpl.
  rewrite Z.mul_1_r. apply Z.sqrt_nonneg.
Qed.

Lemma Qsqrt_zero q : q == 0 → Qsqrt q == 0.
Proof.
  intros Hq. unfold Qsqrt. rewrite Qred_correct.
  assert (Qfloor (q * inject_Z (2 ^ 128)) = 0%Z) as ->.
  { rewrite (Qfloor_comp _ 0); [done|]. rewrite Hq. ring. }
  reflexivity.
Qed.

Lemma sqrt_square_sum (gx gy : Q) :
  ∃ m, JS.sqrt (Fin gx * Fin gx + Fin gy * Fin gy)%js = Fin m ∧ 0 <= m ∧
       (gx == 0 → gy == 0 → m == 0).
Proof.
  cbn [JS.mul JS.add]. unfold JS.sqrt.
  assert (0 <= gx * gx + gy * gy) as Hnn by nra.
  rewrite (proj2 (Qltb_ge _ _) Hnn).
  eexists. split; [done|]. split; [apply Qsqrt_nonneg|].
  intros Hx Hy. apply Qsqrt_zero. rewrite Hx, Hy. ring.
Qed.

(** the gradient of a finite field is finite, and zero where the field is
    flat *)
Lemma gradient_finite lo hi data h w y x :
  rect h w data → field_bounded lo hi data →
  inside 1 (h - 1) 1 (w - 1) y x = true →
  ∃ gx gy, gradient data y x = (Fin gx, Fin gy) ∧
    (lo == hi → gx == 0 ∧ gy == 0).
Proof.
  intros Hr Hb Hin. unfold inside in Hin. apply bool_decide_eq_true in Hin.
  unfold gradient, for_lt. simpl loop_from.
  repeat match goal with
  | |- context [get2 NaN data ?a ?b] =>
      let q := fresh "q" in let Hq := fresh "Hq" in let E := fresh "E" in
      destruct (get2_bounded lo hi data h w a b Hr Hb) as (q & E & Hq);
      [lia | lia | rewrite E; clear E]
  end.
  repeat match goal with
  | |- context [weight ?k ?a ?b] =>
      let v := eval vm_compute in (weight k a b) in
      change (weight k a b) with v
  end.
  cbn [JS.add JS.mul]. eexists _, _. split; [reflexivity|].
  intros Hflat. split; lra.
Qed.

Lemma magnitudes_finite lo hi data h w :
  rect h w data → (0 < h)%nat → field_bounded lo hi data →
  rect h w (magnitudes data) ∧
  Forall (Forall (λ v, ∃ m, v = Fin m ∧ 0 <= m ∧ (lo == hi → m == 0))) (magnitudes data).
Proof.
  intros Hr Hh Hb. destruct (magnitudes_get data h w 0 0 Hr Hh) as [Hr' _].
  split; [done|]. apply (field_pointwise _ h w); [done|]. intros y x Hy Hx.
  destruct (magnitudes_get data h w y x Hr Hh) as [_ Hget]. rewrite Hget by done.
  destruct (inside 1 (h - 1) 1 (w - 1) y x) eqn:Hin.
  - destruct (gradient_finite lo hi data h w y x Hr Hb Hin) as (gx & gy & Hg & Hflat).
    unfold magnitudeAt. rewrite Hg.
    destruct (sqrt_square_sum gx gy) as (m & -> & Hm & Hz).
    exists m. split; [done|]. split; [done|]. intros Hlohi.
    destruct (Hflat Hlohi). by apply Hz.
  - exists 0. split; [done|]. split; [lra|]. done.
Qed.

Lemma bounded_above_exists (l : list num) :
  Forall (λ v, ∃ m, v = Fin m ∧ 0 <= m) l → ∃ hi, 0 <= hi ∧ Forall (bounded 0 hi) l.
Proof.
  induction 1 as [|v l (m & -> & Hm) _ (hi & Hhi & IH)].
  - exists 0. split; [lra | constructor].
  - exists (Qmax m hi). split; [pose proof (Q.le_max_r m hi); lra|]. constructor.
    + simpl. split; [done | apply Q.le_max_l].
    + eapply Forall_impl; [apply IH|]. intros v Hv.
      eapply bounded_weaken; [apply Qle_refl | apply Q.le_max_r | done].
Qed.

Lemma field_bounded_above_exists (a : list (list num)) :
  Forall (Forall (λ v, ∃ m, v = Fin m ∧ 0 <= m)) a → ∃ hi, field_bounded 0 hi a.
Proof.
  induction 1 as [|row a Hrow _ (hi & IH)].
  - exists 0. constructor.
  - destruct (bounded_above_exists row Hrow) as (hr & Hhr & Hbr).
    exists (Qmax hr hi). constructor.
    + eapply Forall_impl; [apply Hbr|]. intros v Hv.
      eapply bounded_weaken; [apply Qle_refl | apply Q.le_max_l | done].
    + eapply Forall_impl; [apply IH|]. intros r Hr.
      eapply Forall_impl; [apply Hr|]. intros v Hv.
      eapply bounded_weaken; [apply Qle_refl | apply Q.le_max_r | done].
Qed.

(** For every field whose samples all equal one integer between 0 and 255,
    the gradient magnitudes are all zero and [cannyEdgeDetection] divides
    them by their maximum, zero: the result is [NaN] everywhere.  (On
    integer samples the Sobel sums cancel exactly.) *)
Theorem cannyEdgeDetection_flat_field data h w (c : Z) :
  rect h w data → (0 < h)%nat → (0 < w)%nat →
  (0 ≤ c ≤ 255)%Z →
  (∀ y x, (y < h)%nat → (x < w)%nat → get2 NaN data y x = of_Z c) →
  allNaN h w (cannyEdgeDetection data).
Proof.
  intros Hr Hh Hw Hc Hflat. unfold cannyEdgeDetection.
  assert (field_bounded (inject_Z c) (inject_Z c) data) as Hb.
  { apply (field_pointwise _ h w); [done|]. intros y x Hy Hx.
    rewrite Hflat by done. simpl. lra. }
  destruct (magnitudes_finite _ _ data h w Hr Hh Hb) as [Hr' Hfin].
  intros y x Hy Hx. apply (normalize_flat_is_NaN _ h w); try done.
  eapply Forall_impl; [apply Hfin|]. intros row Hrow.
  eapply Forall_impl; [apply Hrow|]. intros v (m & -> & _ & Hm).
  simpl. rewrite Hm by reflexivity. lra.
Qed.

(** the two outcomes of the normalisation of finite magnitudes *)
Lemma normalize_cases result h w :
  rect h w result → (0 < h)%nat → (0 < w)%nat →
  Forall (Forall (λ v, ∃ m, v = Fin m ∧ 0 <= m)) result →
  allNaN h w (normalize result) ∧ field_bounded 0 0 result
  ∨ field_bounded 0 255 (normalize result) ∧
    fieldMax (normalize result) ==n Fin 255.
Proof.
  intros Hr Hh Hw Hfin.
  destruct (field_bounded_above_exists result Hfin) as (top & Htop).
  destruct (fieldMax_Fin 0 top result h w Hr Hh Hw Htop)
    as (M & HM & HbM & ym & xm & Hym & Hxm & Hmax).
  destruct (Qlt_le_dec 0 M) as [Hpos|Hzero].
  - right. apply (normalize_maximum_is_255 _ h w top); try done.
    by exists ym, xm, M.
  - left. assert (field_bounded 0 0 result) as Hflat.
    { eapply Forall_impl; [apply HbM|]. intros row Hrow.
      eapply Forall_impl; [apply Hrow|]. intros v Hv.
      eapply bounded_weaken; [apply Qle_refl | apply Hzero | done]. }
    split; [|done]. intros y x Hy Hx. by apply (normalize_flat_is_NaN _ h w).
Qed.

Lemma magnitudes_nonneg lo hi data h w :
  rect h w data → (0 < h)%nat → field_bounded lo hi data →
  Forall (Forall (λ v, ∃ m, v = Fin m ∧ 0 <= m)) (magnitudes data).
Proof.
  intros Hr Hh Hb. destruct (magnitudes_finite lo hi data h w Hr Hh Hb) as [_ Hfin].
  eapply Forall_impl; [apply Hfin|]. intros row Hrow.
  eapply Forall_impl; [apply Hrow|]. intros v (m & -> & Hm & _). by exists m.
Qed.

(** For a field of samples between 0 and 255 (a smoothed luminance field),
    [cannyEdgeDetection] keeps the dimensions and its result is of one of
    two kinds: [NaN] everywhere, or finite values between 0 and 255 whose
    maximum is exactly 255. *)
Theorem cannyEdgeDetection_range data h w :
  rect h w data → (0 < h)%nat → (0 < w)%nat →
  field_bounded 0 255 data →
  rect h w (cannyEdgeDetection data) ∧
  (allNaN h w (cannyEdgeDetection data)
   ∨ field_bounded 0 255 (cannyEdgeDetection data) ∧
     fieldMax (cannyEdgeDetection data) ==n Fin 255).
Proof.
  intros Hr Hh Hw Hb. unfold cannyEdgeDetection.
  destruct (magnitudes_finite 0 255 data h w Hr Hh Hb) as [Hr' _].
  split; [by apply normalize_get|].
  destruct (normalize_cases (magnitudes data) h w) as [[Hnan _]|Hreg];
    [done|done|done| |by left|by right].
  by apply (magnitudes_nonneg 0 255 data h w).
Qed.

(** ** The edge-aware selector on whole images *)

Lemma grayscale_get image :
  rect (image_height image) (image_width image) (Edge.grayscale image) ∧
  ∀ y x, (y < image_height image)%nat → (x < image_width image)%nat →
    get2 NaN (Edge.grayscale image) y x =
    let i := ((y * image_width image + x) * 4)%nat in
    luminance (pixels image i) (pixels image (i + 1)) (pixels image (i + 2)).
Proof.
  apply (sweep_const NaN (image_height image) (image_width image)
    (λ y x, let i := ((y * image_width image + x) * 4)%nat in
       luminance (pixels image i) (pixels image (i + 1)) (pixels image (i + 2)))).
Qed.

Lemma grayscale_sample image y x :
  well_formed image →
  (y < image_height image)%nat → (x < image_width image)%nat →
  bounded 0 255 (get2 NaN (Edge.grayscale image) y x).
Proof.
  intros Hwf Hy Hx. destruct (grayscale_get image) as [_ Hget].
  rewrite Hget by done.
  destruct (pixels_byte image y x 0 Hwf Hy Hx) as (cr & Hcr & Hrb); [lia|].
  destruct (pixels_byte image y x 1 Hwf Hy Hx) as (cg & Hcg & Hgb); [lia|].
  destruct (pixels_byte image y x 2 Hwf Hy Hx) as (cb & Hcb & Hbb); [lia|].
  rewrite Nat.add_0_r in Hcr. cbv zeta. rewrite Hcr, Hcg, Hcb, luminance_of_Z.
  by apply lum_byte.
Qed.

(** The grayscale field of a decoded image has the image's dimensions and
    all its samples lie between 0 and 255. *)
Theorem grayscale_range image :
  well_formed image →
  rect (image_height image) (image_width image) (Edge.grayscale image) ∧
  field_bounded 0 255 (Edge.grayscale image).
Proof.
  intros Hwf. destruct (grayscale_get image) as [Hr _]. split; [done|].
  apply (field_pointwise _ _ _ _ Hr). intros y x Hy Hx.
  by apply grayscale_sample.
Qed.

Lemma gaussianBlur_bounded data h w lo hi :
  rect h w data → (0 < h)%nat → field_bounded lo hi data → lo <= 0 → 0 <= hi →
  rect h w (gaussianBlur data) ∧ field_bounded lo hi (gaussianBlur data).
Proof.
  intros Hr Hh Hb Hlo Hhi.
  destruct (gaussianBlur_get data h w 0 0 Hr Hh) as [Hr' _]. split; [done|].
  apply (field_pointwise _ h w); [done|]. intros y x Hy Hx.
  destruct (gaussianBlur_get data h w y x Hr Hh) as [_ ->].
  destruct (interior h w y x) eqn:Hin.
  - by destruct (weightedAverage_bounded lo hi data h w y x Hr Hb Hin) as (v & -> & Hv).
  - rewrite bool_decide_eq_true_2 by lia. done.
Qed.

Lemma edgeField_rect image :
  (0 < image_height image)%nat →
  rect (image_height image) (image_width image) (Edge.edgeField image).
Proof.
  intros Hh. destruct (grayscale_get image) as [Hr _]. unfold Edge.edgeField.
  destruct (gaussianBlur_get _ _ _ 0 0 Hr Hh) as [Hr1 _].
  destruct (magnitudes_get _ _ _ 0 0 Hr1 Hh) as [Hr2 _].
  by apply normalize_get.
Qed.

Lemma edgeField_small image :
  (0 < image_height image)%nat → (0 < image_width image)%nat →
  (image_width image < 5)%nat ∨ (image_height image < 5)%nat →
  allNaN (image_height image) (image_width image) (Edge.edgeField image).
Proof.
  intros Hh Hw Hsmall. destruct (grayscale_get image) as [Hr _].
  unfold Edge.edgeField, cannyEdgeDetection.
  destruct (gaussianBlur_get _ _ _ 0 0 Hr Hh) as [Hr1 _].
  assert (field_bounded 0 0 (gaussianBlur (Edge.grayscale image))) as Hzero.
  { apply (field_pointwise _ _ _ _ Hr1). intros y x Hy Hx.
    rewrite (gaussianBlur_small_get _ _ _ y x Hr Hh) by tauto. simpl. lra. }
  destruct (magnitudes_finite 0 0 _ _ _ Hr1 Hh Hzero) as [Hr2 Hfin].
  intros y x Hy Hx. apply (normalize_flat_is_NaN _ _ _ Hr2 Hh Hw); try done.
  eapply Forall_impl; [apply Hfin|]. intros row Hrow.
  eapply Forall_impl; [apply Hrow|]. intros v (m & -> & _ & Hm).
  simpl. rewrite Hm by reflexivity. lra.
Qed.

Lemma edgeField_range image :
  well_formed image →
  allNaN (image_height image) (image_width image) (Edge.edgeField image)
  ∨ field_bounded 0 255 (Edge.edgeField image).
Proof.
  intros Hwf. pose proof Hwf as (Hw & Hh & _).
  destruct (grayscale_get image) as [Hr _].
  assert (field_bounded 0 255 (Edge.grayscale image)) as Hb.
  { apply (field_pointwise _ _ _ _ Hr). intros y x Hy Hx. by apply grayscale_sample. }
  destruct (gaussianBlur_bounded _ _ _ 0 255 Hr Hh Hb) as [Hr1 Hb1]; [lra|lra|].
  destruct (magnitudes_finite 0 255 _ _ _ Hr1 Hh Hb1) as [Hr2 _].
  unfold Edge.edgeField, cannyEdgeDetection.
  destruct (normalize_cases _ _ _ Hr2 Hh Hw) as [[H _]|[H _]]; [|by left|by right].
  by apply (magnitudes_nonneg 0 255 _ _ _ Hr1 Hh).
Qed.

(** the edge strength a block accumulates *)
Lemma sampleBlock_edges_NaN image edges stepX stepY pixelX pixelY :
  allNaN (image_height image) (image_width image) edges →
  let e := Edge.sampleBlock image edges stepX stepY pixelX pixelY in
  (Edge.pixelCount e = 0%nat ∧ Edge.isExtreme e = true) ∨
  (Edge.edgeStrength e = NaN ∧ (0 < Edge.pixelCount e)%nat).
Proof.
  intros Hnan. cbv zeta. unfold Edge.sampleBlock.
  pose (P := λ e, (Edge.pixelCount e = 0%nat ∧ Edge.isExtreme e = true) ∨
                  (Edge.edgeStrength e = NaN ∧ (0 < Edge.pixelCount e)%nat)).
  apply (loop_from_inv P); [by left|].
  intros sy acc Hy Hacc. apply (loop_from_inv P); [done|].
  intros sx acc' Hx _. apply Nat.ltb_lt in Hy, Hx. right.
  unfold Edge.samplePixel. cbn [Edge.edgeStrength Edge.pixelCount].
  rewrite (Hnan _ _ Hy Hx). split; [|lia]. by destruct (Edge.edgeStrength acc').
Qed.

Lemma sampleBlock_edges_bounded image edges stepX stepY pixelX pixelY :
  rect (image_height image) (image_width image) edges →
  field_bounded 0 255 edges →
  ∃ q, Edge.edgeStrength (Edge.sampleBlock image edges stepX stepY pixelX pixelY) = Fin q ∧
    0 <= q <= 255 * inject_Z (Z.of_nat
      (Edge.pixelCount (Edge.sampleBlock image edges stepX stepY pixelX pixelY))).
Proof.
  intros Hr Hb. unfold Edge.sampleBlock.
  pose (P := λ e, ∃ q, Edge.edgeStrength e = Fin q ∧
    0 <= q <= 255 * inject_Z (Z.of_nat (Edge.pixelCount e))).
  apply (loop_from_inv P).
  - exists 0. simpl. repeat split; done.
  - intros sy acc Hy Hacc. apply (loop_from_inv P); [done|].
    intros sx acc' Hx (q & Hq & Hrange). apply Nat.ltb_lt in Hy, Hx.
    destruct (get2_bounded 0 255 edges _ _ _ _ Hr Hb Hy Hx) as (v & Hv & Hvr).
    unfold P, Edge.samplePixel. cbn [Edge.edgeStrength Edge.pixelCount].
    rewrite Hq, Hv. cbn [JS.add]. eexists. split; [done|].
    rewrite Nat2Z.inj_succ, <- Z.add_1_r, inject_Z_plus.
    change (inject_Z 1) with 1. lra.
Qed.

Lemma Edge_charIndex_NaN charSet brightness :
  Edge.charIndex charSet NaN brightness = NaN.
Proof.
  unfold Edge.charIndex. cbn [JS.mul JS.add].
  by destruct (brightness * Fin (3 # 10))%js.
Qed.

(** For an image narrower or lower than 5 pixels the smoothed field is zero,
    the edge field is [NaN], and every cell of [imageToAscii] is either the
    blank glyph or [undefined]: no glyph of the character set is ever
    selected. *)
Theorem small_image_blank_or_undefined charSet image width height y x :
  (0 < image_height image)%nat → (0 < image_width image)%nat →
  (image_width image < 5)%nat ∨ (image_height image < 5)%nat →
  (y < height)%nat → (x < width)%nat →
  get2 Undefined (Edge.imageToAscii charSet image width height) y x = blank ∨
  get2 Undefined (Edge.imageToAscii charSet image width height) y x = Undefined.
Proof.
  intros Hh Hw Hsmall Hy Hx.
  destruct (imageToAscii_cell charSet image width height) as [_ Hget].
  rewrite (Hget y x Hy Hx). unfold Edge.glyph, edgeBlock.
  destruct (sampleBlock_edges_NaN image (Edge.edgeField image)
    (image_width image / width) (image_height image / height)
    (x * (image_width image / width)) (y * (image_height image / height))
    (edgeField_small image Hh Hw Hsmall)) as [[_ ->]|[-> Hn]].
  - by left.
  - destruct (suppressed _ _); [by left|right].
    unfold mean at 1. rewrite (proj2 (Nat.ltb_lt _ _) Hn).
    cbn [JS.div]. by rewrite Edge_charIndex_NaN.
Qed.

Lemma Edge_charIndex_selectable charSet (edgeStrength brightness : Q) :
  (3 ≤ length charSet)%nat →
  0 <= edgeStrength <= 255 → 5 <= brightness <= 250 →
  selectable charSet (Edge.charIndex charSet (Fin edgeStrength) (Fin brightness)).
Proof.
  intros Hlen He Hb. unfold Edge.charIndex, length_minus, of_Z.
  cbn [JS.mul JS.add]. rewrite div_Fin by lra. cbn [JS.mul JS.floor].
  apply selectable_intro; [done|].
  set (combined := (edgeStrength * (7 # 10) + brightness * (3 # 10)) / 255).
  set (range := (Z.of_nat (length charSet) - 3)%Z).
  assert (0 <= combined) as H0 by (apply Qle_shift_div_l; lra).
  assert (combined < 1) as H1 by (apply Qlt_shift_div_r; lra).
  destruct (decide (range = 0%Z)) as [Hz|Hnz].
  - rewrite Hz. assert (combined * inject_Z 0 == 0) as -> by ring.
    change (Qfloor 0) with 0%Z. lia.
  - assert (0 < inject_Z range) as Hrpos.
    { change 0 with (inject_Z 0). rewrite <- Zlt_Qlt. lia. }
    assert (0 ≤ Qfloor (combined * inject_Z range) < range)%Z; [|lia].
    apply Qfloor_bounds; [change (inject_Z 0) with 0; nra | nra].
Qed.

(** For a decoded image, a character set of at least 3 glyphs and a grid not
    larger than the image, a cell of [imageToAscii] is the blank glyph, or a
    glyph of the character set at an index between 1 and [length - 2], or
    [undefined]; and [undefined] only occurs when the edge field is [NaN]
    everywhere. *)
Theorem edge_selector_cells charSet image width height y x :
  well_formed image →
  (3 ≤ length charSet)%nat →
  (1 ≤ width ≤ image_width image)%nat →
  (1 ≤ height ≤ image_height image)%nat →
  (y < height)%nat → (x < width)%nat →
  let cell := get2 Undefined (Edge.imageToAscii charSet image width height) y x in
  cell = blank ∨
  (∃ (i : nat) c, (1 ≤ i ≤ length charSet - 2)%nat ∧ charSet !! i = Some c ∧
     cell = Str [c]) ∨
  (cell = Undefined ∧
   allNaN (image_height image) (image_width image) (Edge.edgeField image)).
Proof.
  intros Hwf Hlen Hw Hh Hy Hx. cbv zeta.
  pose proof Hwf as (Hiw & Hih & _).
  destruct (imageToAscii_cell charSet image width height) as [_ Hget].
  rewrite (Hget y x Hy Hx). unfold Edge.glyph, edgeBlock.
  destruct (step_valid _ _ _ Hw Hx) as [HsX HpX].
  destruct (step_valid _ _ _ Hh Hy) as [HsY HpY].
  pose proof (sampleBlock_count_pos image _ _ _ _ HsX HsY HpX HpY) as Hn.
  destruct (sampleBlock_byte image (image_width image / width)
    (image_height image / height) (x * (image_width image / width))
    (y * (image_height image / height)) Hwf) as (qy & _ & _ & _ & Hqy & Hy' & _).
  destruct (sampleBlock_agree image (Edge.edgeField image)
    (image_width image / width) (image_height image / height)
    (x * (image_width image / width)) (y * (image_height image / height)))
    as (Hbright & Hcount & Hext).
  rewrite <- Hbright in Hqy. rewrite <- Hcount in Hn, Hy'.
  destruct (edgeField_range image Hwf) as [Hnan|Hb].
  - destruct (sampleBlock_edges_NaN image (Edge.edgeField image)
      (image_width image / width) (image_height image / height)
      (x * (image_width image / width)) (y * (image_height image / height)) Hnan)
      as [[Hzero _]|[He _]]; [lia|].
    rewrite He. destruct (suppressed _ _); [by left|right; right].
    split; [|done]. unfold mean at 1. rewrite (proj2 (Nat.ltb_lt _ _) Hn).
    cbn [JS.div]. by rewrite Edge_charIndex_NaN.
  - destruct (sampleBlock_edges_bounded image (Edge.edgeField image)
      (image_width image / width) (image_height image / height)
      (x * (image_width image / width)) (y * (image_height image / height))
      (edgeField_rect image Hih) Hb) as (qe & Hqe & He).
    set (e := Edge.sampleBlock _ _ _ _ _ _) in *.
    rewrite Hqe, Hqy.
    destruct (mean_byte qe (Edge.pixelCount e) Hn He) as (me & -> & _ & Hme).
    destruct (mean_byte qy (Edge.pixelCount e) Hn Hy') as (my & -> & _ & Hmy).
    destruct (suppressed (Edge.isExtreme e) (Fin my)) eqn:Hsup; [by left|right; left].
    apply not_suppressed_range in Hsup as [_ Hrange].
    destruct (Edge_charIndex_selectable charSet me my Hlen Hme Hrange)
      as (i & c & _ & Hi & Hci & Hat).
    by exists i, c.
Qed.

(** ** Rendering *)

Lemma isBlank_spec t : isBlank t = true ↔ t = blank.
Proof.
  split; [|by intros ->].
  destruct t as [[|c l]|]; simpl; try done.
  destruct c as [|p]; [by destruct l|].
  do 6 (destruct p as [p|p|]; try by destruct l).
Qed.

Lemma drawCell_app ascii colors y x ctx :
  Main.drawCell ascii colors y x ctx = ctx ++ Main.drawCell ascii colors y x [].
Proof.
  unfold Main.drawCell.
  destruct (get2 Undefined ascii y x) as [[|c l]|]; try done.
  destruct c as [|p]; [by destruct l|].
  do 6 (destruct p as [p|p|]; try by destruct l).
  destruct l; [by rewrite app_nil_r | done].
Qed.

Lemma for_lt_append {A : Type} lo hi (f : nat → list A) (ctx : list A) :
  for_lt lo hi (λ i ctx, ctx ++ f i) ctx
  = ctx ++ flat_map f (seq lo (hi - lo)).
Proof.
  unfold for_lt. generalize (hi - lo)%nat as n. intros n.
  revert lo ctx. induction n as [|n IH]; intros lo ctx; simpl.
  - by rewrite app_nil_r.
  - rewrite IH. by rewrite <- app_assoc.
Qed.

Lemma draw_flat_map ascii colors :
  Main.draw ascii colors = flat_map (rowDraws ascii colors) (seq 0 (length ascii)).
Proof.
  unfold Main.draw.
  rewrite (for_lt_ext 0 (length ascii) _ (λ y ctx, ctx ++ rowDraws ascii colors y)).
  - rewrite for_lt_append. by rewrite Nat.sub_0_r.
  - intros y ctx _.
    rewrite (for_lt_ext 0 _ _ (λ x ctx, ctx ++ Main.drawCell ascii colors y x [])).
    + rewrite for_lt_append. by rewrite Nat.sub_0_r.
    + intros x ctx' _. apply drawCell_app.
Qed.

Lemma drawCell_glyph ascii colors y x :
  Forall (λ d, Main.glyph d = get2 Undefined ascii y x ∧ Main.glyph d ≠ blank)
    (Main.drawCell ascii colors y x []) ∧
  length (Main.drawCell ascii colors y x [])
    = if isBlank (get2 Undefined ascii y x) then 0%nat else 2%nat.
Proof.
  unfold Main.drawCell.
  destruct (get2 Undefined ascii y x) as [[|c l]|] eqn:E;
    try (split; [repeat constructor; done | done]).
  destruct c as [|p];
    [destruct l; (split; [repeat constructor; done | done])|].
  do 6 (destruct p as [p|p|];
    try (destruct l; (split; [repeat constructor; done | done]))).
Qed.

Lemma length_flat_map {A B} (f : A → list B) (l : list A) :
  length (flat_map f l) = list_sum (map (λ a, length (f a)) l).
Proof. induction l as [|a l IH]; [done|]. simpl. by rewrite length_app, IH. Qed.

Lemma map_lookup_seq {A B} (d : A) (F : A → B) (l : list A) :
  map (λ i, F (default d (l !! i))) (seq 0 (length l)) = map F l.
Proof.
  induction l as [|a l IH] using rev_ind; [done|].
  rewrite length_app. simpl. rewrite Nat.add_1_r, seq_S, !map_app. simpl.
  rewrite lookup_app_r by lia. rewrite Nat.sub_diag. simpl. f_equal.
  rewrite <- IH. apply map_ext_in. intros i Hi. apply in_seq in Hi.
  by rewrite lookup_app_l by lia.
Qed.

Lemma inkedCells_row (row : list text) :
  list_sum (map (λ t, if isBlank t then 0%nat else 2%nat) row)
  = (2 * length (List.filter (λ t, negb (isBlank t)) row))%nat.
Proof.
  induction row as [|t row IH]; [done|]. simpl.
  destruct (isBlank t); simpl; lia.
Qed.

Lemma draw_never_blank ascii colors :
  Forall (λ d, Main.glyph d ≠ blank) (Main.draw ascii colors).
Proof.
  rewrite draw_flat_map.
  apply List.Forall_forall. intros d Hd. apply in_flat_map in Hd as (y & _ & Hd).
  apply in_flat_map in Hd as (x & _ & Hd).
  destruct (drawCell_glyph ascii colors y x) as [Hall _].
  rewrite List.Forall_forall in Hall. by apply Hall.
Qed.

Lemma draw_length ascii colors :
  length (Main.draw ascii colors) = (2 * inkedCells ascii)%nat.
Proof.
  rewrite draw_flat_map, length_flat_map. unfold inkedCells.
  assert (∀ y, length (rowDraws ascii colors y)
    = (2 * length (List.filter (λ t, negb (isBlank t)) (default [] (ascii !! y))))%nat)
    as Hrow.
  { intros y. unfold rowDraws. rewrite length_flat_map.
    rewrite <- inkedCells_row.
    rewrite <- (map_lookup_seq Undefined (λ t, if isBlank t then 0%nat else 2%nat)).
    f_equal. apply map_ext. intros x.
    destruct (drawCell_glyph ascii colors y x) as [_ ->].
    unfold get2. destruct (ascii !! y) as [row|]; simpl; [|done].
    by destruct (row !! x). }
  rewrite (map_ext _ _ Hrow).
  rewrite (map_lookup_seq [] (λ row,
    (2 * length (List.filter (λ t, negb (isBlank t)) row))%nat) ascii).
  clear Hrow. induction ascii as [|row ascii IH]; [done|].
  cbn [map concat]. rewrite List.filter_app, length_app.
  unfold list_sum in *. cbn [fold_right]. rewrite IH. lia.
Qed.

Lemma drawCell_texts ascii colors y x :
  Main.drawCell ascii colors y x [] = cellTexts ascii colors y x.
Proof.
  unfold Main.drawCell, cellTexts.
  destruct (get2 Undefined ascii y x) as [[|c l]|]; try done.
  destruct c as [|p]; [by destruct l|].
  do 6 (destruct p as [p|p|]; try by destruct l).
Qed.

(** The renderer goes through the grid row by row and, in each row, column
    by column.  It draws nothing for a cell that holds the blank glyph; for
    any other cell [(y, x)] it draws exactly two texts, in this order: the
    glyph in the half-transparent black of the shadow at
    [(10 x + 1, 20 (y + 1) + 1)], then the glyph in the cell's colour at
    [(10 x, 20 (y + 1))].  So no blank glyph is ever drawn, and the number
    of texts is twice the number of cells that are not blank. *)
Theorem draw_only_ink ascii colors :
  Main.draw ascii colors =
    flat_map (λ y, flat_map (λ x, cellTexts ascii colors y x)
                     (seq 0 (length (default [] (ascii !! y)))))
      (seq 0 (length ascii)) ∧
  Forall (λ d, Main.glyph d ≠ blank) (Main.draw ascii colors) ∧
  length (Main.draw ascii colors) = (2 * inkedCells ascii)%nat.
Proof.
  split; [|split].
  - rewrite draw_flat_map. apply flat_map_ext. intros y.
    unfold rowDraws. apply flat_map_ext. intros x. apply drawCell_texts.
  - apply draw_never_blank.
  - apply draw_length.
Qed.

(** ** Converting one frame *)

Lemma imageToAsciiWithColor_blank charSet image width height :
  blackOrWhite image →
  (Color.imageToAsciiWithColor charSet image width height).1
    = mkArray2 height width blank.
Proof.
  intros Hbw.
  destruct (imageToAsciiWithColor_cell charSet image width height) as (Hr & _ & Hget).
  apply (array2_const Undefined); [done|]. intros y x Hy Hx.
  destruct (Hget y x Hy Hx) as [-> _]. unfold Color.glyph, colorBlock.
  by rewrite sampleBlock_blackOrWhite.
Qed.

Lemma inkedCells_blank h w : inkedCells (mkArray2 h w blank) = 0%nat.
Proof.
  unfold inkedCells, mkArray2. induction h as [|h IH]; [done|].
  cbn [replicate concat]. rewrite List.filter_app, length_app, IH, Nat.add_0_r.
  clear IH. induction w as [|w IH]; [done|]. done.
Qed.

(** A frame whose pixels are all exactly black or exactly white is rendered
    as the bare background: no text is drawn on its canvas. *)
Theorem black_and_white_frame_draws_nothing options image c :
  blackOrWhite image →
  Main.convertImageToAscii options (Main.Decoded image) = Main.Ok c →
  Main.drawn c = [] ∧ Main.background c = Main.backgroundColor options.
Proof.
  intros Hbw. unfold Main.convertImageToAscii. cbn [Main.loadImage].
  destruct (Main.gridSize options image) as [width height].
  assert (∀ w h, (let '(ascii, colors) :=
      Color.imageToAsciiWithColor (Main.charSet options) image w h in
      Main.Ok {| Main.canvas_width := (width * Fin 10)%js;
                 Main.canvas_height := (height * Fin 20)%js;
                 Main.background := Main.backgroundColor options;
                 Main.drawn := Main.draw ascii colors |}) = Main.Ok c →
    Main.drawn c = [] ∧ Main.background c = Main.backgroundColor options) as Hrender.
  { intros w h.
    pose proof (imageToAsciiWithColor_blank (Main.charSet options) image w h Hbw) as Hblank.
    destruct (Color.imageToAsciiWithColor _ image w h) as [ascii colors].
    simpl in Hblank. subst ascii. intros [= <-]. simpl. split; [|done].
    pose proof (draw_length (mkArray2 h w blank) colors) as Hlen.
    rewrite inkedCells_blank in Hlen. by apply nil_length_inv. }
  destruct (Main.arrayLength height) as [[|h]|]; [apply Hrender| |done].
  destruct (Main.arrayLength width) as [w|]; [apply Hrender|done].
Qed.

(** ** The batch, frame by frame *)

Lemma convertFrom_run options n frames i w :
  let run := Main.convertFrom options n i frames w in
  (∀ j, (j < i ∨ i + length frames ≤ j)%nat →
     Main.asciiFrames run.2 !! j = Main.asciiFrames w !! j) ∧
  (Forall (convertible options) frames →
     run.1 = Main.Ok tt ∧
     ∀ j, (i ≤ j < i + length frames)%nat →
       Main.asciiFrames run.2 !! j = frames !! (j - i)%nat ≫= written options) ∧
  (∀ before f after e,
     frames = before ++ f :: after → Forall (convertible options) before →
     Main.convertImageToAscii options f = Main.Throw e →
     run.1 = Main.Throw e ∧
     ∀ j, Main.asciiFrames run.2 !! j =
       if decide (i ≤ j < i + length before)%nat
       then before !! (j - i)%nat ≫= written options
       else Main.asciiFrames w !! j).
Proof.
  cbv zeta. revert i w. induction frames as [|f frames IH]; intros i w.
  - split; [done|]. split; [split; [done|]; simpl; lia|].
    intros before f after e Heq. by destruct before.
  - simpl. destruct (Main.convertImageToAscii options f) as [c|e0] eqn:Hconv.
    + match goal with |- context [Main.convertFrom options n (S i) frames ?w1] =>
        set (w0 := w1) end.
      assert (∀ j, Main.asciiFrames w0 !! j = <[i:=c]> (Main.asciiFrames w) !! j) as Hw0.
      { intros j. unfold w0. by destruct (_ =? _)%nat. }
      destruct (IH (S i) w0) as (Hout & Hok & Hfail).
      split; [|split].
      * intros j Hj. rewrite Hout by lia. rewrite Hw0, lookup_insert_ne by lia. done.
      * intros Hall. inversion Hall as [|? ? Hf Hall']; subst.
        destruct (Hok Hall') as [Hres Hget]. split; [done|]. intros j Hj.
        destruct (decide (j = i)) as [->|Hne].
        -- rewrite Hout by lia. rewrite Hw0, lookup_insert_eq, Nat.sub_diag.
           simpl. unfold written. by rewrite Hconv.
        -- rewrite Hget by lia. by replace (j - i)%nat with (S (j - S i)) by lia.
      * intros before f' after e Heq Hall Hthrow.
        destruct before as [|b before]; simpl in Heq.
        { injection Heq as <- <-. congruence. }
        injection Heq as <- ->. inversion Hall as [|? ? Hb Hall']; subst.
        destruct (Hfail before f' after e eq_refl Hall' Hthrow) as [Hres Hget].
        split; [done|]. intros j. rewrite Hget, Hw0.
        destruct (decide (j = i)) as [->|Hne].
        -- rewrite decide_False by lia. rewrite decide_True by (simpl; lia).
           rewrite lookup_insert_eq, Nat.sub_diag. simpl. unfold written.
           by rewrite Hconv.
        -- rewrite lookup_insert_ne by done.
           destruct (decide (S i ≤ j < S i + length before)%nat).
           ++ rewrite decide_True by (simpl; lia).
              by replace (j - i)%nat with (S (j - S i)) by lia.
           ++ rewrite decide_False by (simpl; lia). done.
    + split; [done|]. split.
      * intros Hall. inversion Hall as [|? ? [c Hc] _]; subst.
        unfold written in Hc. by rewrite Hconv in Hc.
      * intros before f' after e Heq Hall Hthrow.
        destruct before as [|b before]; simpl in Heq.
        -- injection Heq as <- <-. rewrite Hconv in Hthrow. injection Hthrow as ->.
           split; [done|]. intros j. simpl. rewrite decide_False by lia. done.
        -- injection Heq as <- ->. inversion Hall as [|? ? [c Hc] _]; subst.
           unfold written in Hc. by rewrite Hconv in Hc.
Qed.

Lemma convertFramesToAscii_ok options frames w :
  Forall (convertible options) frames →
  ∃ w', Main.convertFramesToAscii options frames w = (Main.Ok tt, w') ∧
    (∀ j, Main.asciiFrames w' !! j =
       if decide (j < length frames)%nat then frames !! j ≫= written options
       else Main.asciiFrames w !! j) ∧
    last (Main.console w') = Some (Main.Info "All frames converted to ASCII").
Proof.
  intros Hall. unfold Main.convertFramesToAscii.
  destruct (convertFrom_run options (length frames) frames 0
    (Main.log (Main.Info "Converting frames to ASCII...") w)) as (Hout & Hok & _).
  destruct (Hok Hall) as [Hres Hget].
  destruct (Main.convertFrom _ _ _ _ _) as [res w']. simpl in *. subst res.
  eexists. split; [done|]. split; [|apply last_snoc].
  intros j. rewrite ?asciiFrames_log. destruct (decide (j < length frames)%nat).
  - rewrite Hget by lia. by rewrite Nat.sub_0_r.
  - rewrite Hout by lia. done.
Qed.

Lemma convertFramesToAscii_throw options before f after e w :
  Forall (convertible options) before →
  Main.convertImageToAscii options f = Main.Throw e →
  ∃ w', Main.convertFramesToAscii options (before ++ f :: after) w
          = (Main.Throw e, w') ∧
    ∀ j, Main.asciiFrames w' !! j =
      if decide (j < length before)%nat then before !! j ≫= written options
      else Main.asciiFrames w !! j.
Proof.
  intros Hall Hthrow. unfold Main.convertFramesToAscii.
  destruct (convertFrom_run options (length (before ++ f :: after))
    (before ++ f :: after) 0
    (Main.log (Main.Info "Converting frames to ASCII...") w)) as (_ & _ & Hfail).
  destruct (Hfail before f after e eq_refl Hall Hthrow) as [Hres Hget].
  destruct (Main.convertFrom _ _ _ _ _) as [res w']. simpl in *. subst res.
  eexists. split; [done|]. intros j. rewrite Hget, Nat.sub_0_r.
  destruct (decide (j < length before)%nat).
  - rewrite decide_True by lia. done.
  - rewrite decide_False by lia. done.
Qed.

(** When every frame converts, [convertFramesToAscii] returns normally, the
    image of frame [j] is written under index [j] for every frame, nothing
    else is touched, and the last console line announces the end. *)
Theorem batch_converts_every_frame options frames w :
  Forall (convertible options) frames →
  let run := Main.convertFramesToAscii options frames w in
  run.1 = Main.Ok tt ∧
  (∀ j, Main.asciiFrames run.2 !! j =
     if decide (j < length frames)%nat then frames !! j ≫= written options
     else Main.asciiFrames w !! j) ∧
  last (Main.console run.2) = Some (Main.Info "All frames converted to ASCII").
Proof.
  intros Hall. cbv zeta.
  destruct (convertFramesToAscii_ok options frames w Hall) as (w' & -> & Hget & Hlast).
  done.
Qed.

(** Whatever makes a frame fail (an unreadable file or an invalid array
    length), [convertFramesToAscii] throws that frame's exception: the
    frames before it are written and no later frame is. *)
Theorem batch_stops_at_first_failure options before f after e w :
  Forall (convertible options) before →
  Main.convertImageToAscii options f = Main.Throw e →
  let run := Main.convertFramesToAscii options (before ++ f :: after) w in
  run.1 = Main.Throw e ∧
  ∀ j, Main.asciiFrames run.2 !! j =
    if decide (j < length before)%nat then before !! j ≫= written options
    else Main.asciiFrames w !! j.
Proof.
  intros Hall Hthrow. cbv zeta.
  destruct (convertFramesToAscii_throw options before f after e w Hall Hthrow)
    as (w' & -> & Hget).
  done.
Qed.

Lemma first_failure options (frames : list Main.file) :
  Forall (convertible options) frames ∨
  ∃ before f after e, frames = before ++ f :: after ∧
    Forall (convertible options) before ∧
    Main.convertImageToAscii options f = Main.Throw e.
Proof.
  induction frames as [|f frames IH]; [left; constructor|].
  destruct (Main.convertImageToAscii options f) as [c|e] eqn:Hconv.
  - assert (convertible options f) as Hf.
    { exists c. unfold written. by rewrite Hconv. }
    destruct IH as [Hall|(before & f' & after & e & -> & Hall & Hthrow)].
    + left. by constructor.
    + right. exists (f :: before), f', after, e. split; [done|]. split; [|done].
      by constructor.
  - right. by exists [], f, frames, e.
Qed.

(** [convert] returns normally only if every external step succeeded and
    every extracted frame converted, and what it returns then is the path
    of the video with audio.  When it throws, the exception is
    logged as the last console line before it is thrown again, and every
    image left in the ASCII frames directory is the conversion of the
    extracted frame of the same index: the earlier contents are gone. *)
Theorem convert_outcome ext options w :
  let run := Main.convert ext options w in
  (∀ p, run.1 = Main.Ok p →
     p = "./ascii_video_with_audio.mp4"%string ∧
     Main.download ext = Main.Ok tt ∧ Main.createVideo ext = Main.Ok tt ∧
     Main.addAudio ext = Main.Ok tt ∧
     ∃ frames, Main.extract ext = Main.Ok frames ∧ Forall (convertible options) frames) ∧
  (∀ e, run.1 = Main.Throw e →
     last (Main.console run.2) = Some (Main.ErrorLine "Error during conversion:" e) ∧
     ∀ j, is_Some (Main.asciiFrames run.2 !! j) →
       ∃ frames f, Main.extract ext = Main.Ok frames ∧ frames !! j = Some f ∧
         Main.asciiFrames run.2 !! j = written options f).
Proof.
  cbv zeta. unfold Main.convert, Main.convertBody.
  set (w0 := {| Main.asciiFrames := ∅; Main.console := Main.console w |}).
  destruct (Main.download ext) as [[]|ed] eqn:Hd.
  2:{ cbn [fst snd]. split; [done|]. intros e [= ->]. split; [apply last_snoc|].
      intros j [c Hc]. by rewrite asciiFrames_log in Hc. }
  destruct (Main.extract ext) as [frames|ee] eqn:He.
  2:{ cbn [fst snd]. split; [done|]. intros e [= ->]. split; [apply last_snoc|].
      intros j [c Hc]. by rewrite asciiFrames_log in Hc. }
  assert (∀ w1 j k, (k ≤ length frames)%nat →
    Main.asciiFrames w1 !! j =
      (if decide (j < k)%nat then frames !! j ≫= written options else None) →
    is_Some (Main.asciiFrames w1 !! j) →
    ∃ frames0 f, Main.Ok frames = Main.Ok frames0 ∧ frames0 !! j = Some f ∧
      Main.asciiFrames w1 !! j = written options f) as Hsome.
  { intros w1 j k Hk Hget [c Hc]. exists frames.
    rewrite Hget in Hc. rewrite Hget. destruct (decide (j < k)%nat); [|done].
    destruct (frames !! j) as [f|] eqn:Hf; [|done].
    by exists f. }
  destruct (first_failure options frames)
    as [Hall|(before & f & after & e0 & -> & Hall & Hthrow)].
  - destruct (convertFramesToAscii_ok options frames w0 Hall) as (w1 & -> & Hget & _).
    destruct (Main.createVideo ext) as [[]|ec] eqn:Hc;
      [destruct (Main.addAudio ext) as [[]|ea] eqn:Ha|]; cbn [fst snd].
    + split; [|done]. intros p [= <-]. repeat split; try done. by exists frames.
    + split; [done|]. intros e [= ->]. split; [apply last_snoc|].
      intros j. rewrite asciiFrames_log.
      apply (Hsome _ _ (length frames)); [lia|]. by rewrite Hget.
    + split; [done|]. intros e [= ->]. split; [apply last_snoc|].
      intros j. rewrite asciiFrames_log.
      apply (Hsome _ _ (length frames)); [lia|]. by rewrite Hget.
  - destruct (convertFramesToAscii_throw options before f after e0 w0 Hall Hthrow)
      as (w1 & -> & Hget).
    cbn [fst snd]. split; [done|]. intros e [= ->]. split; [apply last_snoc|].
    intros j. rewrite asciiFrames_log.
    apply (Hsome _ _ (length before)); [rewrite length_app; lia|].
    rewrite Hget. destruct (decide (j < length before)%nat); [|done].
    by rewrite lookup_app_l by done.
Qed.

(** ** The seek offset *)

Lemma rem_nonneg (t d : Q) :
  0 <= t → 0 < d →
  (Fin t mod Fin d)%js = Fin (t - d * inject_Z (Qfloor (t / d))) ∧
  0 <= t - d * inject_Z (Qfloor (t / d)) < d.
Proof.
  intros Ht Hd. unfold JS.rem, Qtrunc.
  destruct (Qeq_bool d 0) eqn:E; [apply Qeq_bool_iff in E; lra|].
  assert (0 <= t / d) as Hq by (apply Qle_shift_div_l; lra).
  rewrite (proj2 (Qltb_ge _ _) Hq). split; [done|].
  pose proof (Qfloor_le (t / d)) as Hle. pose proof (Qlt_floor (t / d)) as Hlt.
  rewrite inject_Z_plus in Hlt. change (inject_Z 1) with 1 in Hlt.
  assert (t == t / d * d) as Ht' by (field; lra).
  split; nra.
Qed.

Lemma Qfloor_div_Z (a b : Z) :
  (0 < b)%Z → Qfloor (inject_Z a / inject_Z b) = (a / b)%Z.
Proof.
  intros Hb.
  assert (0 < inject_Z b) as Hb' by (change 0 with (inject_Z 0); by rewrite <- Zlt_Qlt).
  pose proof (Z.div_mod a b ltac:(lia)) as Hdiv.
  pose proof (Z.mod_pos_bound a b Hb) as Hmod.
  assert (inject_Z a == inject_Z b * inject_Z (a / b) + inject_Z (a mod b)) as Ha.
  { rewrite <- inject_Z_mult, <- inject_Z_plus. by rewrite <- Hdiv. }
  assert (0 <= inject_Z (a mod b) < inject_Z b) as Hr.
  { split; [change 0 with (inject_Z 0); rewrite <- Zle_Qle | rewrite <- Zlt_Qlt]; lia. }
  assert ((a / b ≤ Qfloor (inject_Z a / inject_Z b) < a / b + 1)%Z); [|lia].
  apply Qfloor_bounds.
  - apply Qle_shift_div_l; [done|]. rewrite Ha. lra.
  - apply Qlt_shift_div_r; [done|]. rewrite Ha, inject_Z_plus.
    change (inject_Z 1) with 1. lra.
Qed.

(** The seek offset printed for a start time of [t] whole seconds, [t]
    below [2^31]: the hours, minutes and seconds are the integers
    [t / 3600], [(t mod 3600) / 60] and [t mod 60]. *)
Theorem timeOffset_decomposes (t : Z) :
  (0 ≤ t < 2 ^ 31)%Z →
  ∃ hours minutes seconds,
    Main.timeOffset (of_Z t) = (hours, minutes, seconds) ∧
    hours ==n of_Z (t / 3600) ∧
    minutes ==n of_Z (t mod 3600 / 60) ∧
    seconds ==n of_Z (t mod 60).
Proof.
  intros Ht. unfold Main.timeOffset, of_Z.
  assert (0 <= inject_Z t) as Ht'.
  { change 0 with (inject_Z 0). rewrite <- Zle_Qle. lia. }
  destruct (rem_nonneg (inject_Z t) 3600 Ht') as [-> _]; [lra|].
  destruct (rem_nonneg (inject_Z t) 60 Ht') as [-> _]; [lra|].
  rewrite !div_Fin by lra. cbn [JS.floor].
  change 3600 with (inject_Z 3600). change 60 with (inject_Z 60).
  rewrite !Qfloor_div_Z by lia.
  assert (inject_Z t - inject_Z 3600 * inject_Z (t / 3600) == inject_Z (t mod 3600)) as H3600.
  { rewrite Z.mod_eq by lia. unfold Z.sub.
    rewrite inject_Z_plus, inject_Z_opp, inject_Z_mult. reflexivity. }
  assert (inject_Z t - inject_Z 60 * inject_Z (t / 60) == inject_Z (t mod 60)) as H60.
  { rewrite Z.mod_eq by lia. unfold Z.sub.
    rewrite inject_Z_plus, inject_Z_opp, inject_Z_mult. reflexivity. }
  eexists _, _, _. split; [reflexivity|]. split; [reflexivity|]. split.
  - unfold num_eq. apply inject_Z_injective.
    rewrite (Qfloor_comp _ (inject_Z (t mod 3600) / inject_Z 60)).
    + by rewrite Qfloor_div_Z by lia.
    + by rewrite H3600.
  - unfold num_eq. exact H60.
Qed.

Lemma timeOffset_decomposes_witness :
  ∃ hours minutes seconds,
    Main.timeOffset (of_Z 3725) = (hours, minutes, seconds) ∧
    hours ==n of_Z 1 ∧ minutes ==n of_Z 2 ∧ seconds ==n of_Z 5.
Proof. apply (timeOffset_decomposes 3725). lia. Defined.

(** ** The audio script *)

(** whatever the commands do, the script removes its temporary directory
    and closes the readline interface; it runs no command when the ASCII
    video is missing, and creates the output only when the ASCII video
    exists and both commands succeed *)
Theorem addAudioToVideo_cleans_up ext w :
  let w' := AddAudio.addAudioToVideo ext w in
  AddAudio.tempDir w' = false ∧ AddAudio.audio w' = false ∧
  AddAudio.readlineOpen w' = false ∧
  AddAudio.inputVideo w' = AddAudio.inputVideo w ∧
  (AddAudio.inputVideo w = false →
     AddAudio.commands w' = AddAudio.commands w ∧
     AddAudio.outputVideo w' = AddAudio.outputVideo w) ∧
  (AddAudio.outputVideo w' = true →
     AddAudio.outputVideo w = true ∨
     AddAudio.inputVideo w = true ∧ AddAudio.ytdlp ext = true ∧
     AddAudio.ffmpeg ext = true).
Proof.
  destruct ext as [y f], w as [t i a o c r l].
  destruct t, i, y, f; cbn; repeat split; try done; try tauto; intros; auto;
    try discriminate; try (by left); try (by right).
Qed.

(** ** Rasters of one gray level *)

Lemma Qsqrt_comp p q : p == q → Qsqrt p = Qsqrt q.
Proof.
  intros Hpq. unfold Qsqrt. do 3 f_equal. apply Qfloor_comp. by rewrite Hpq.
Qed.

(** next to the zero border of the smoothed field, a raster of one gray
    level has an edge *)
Lemma gray_edge_corner image :
  uniform image 128 128 128 →
  (5 ≤ image_width image)%nat → (5 ≤ image_height image)%nat →
  ∃ v, get2 NaN (Edge.edgeField image) 1 1 = Fin v ∧ 0 < v.
Proof.
  intros Hu Hw Hh.
  destruct (grayscale_get image) as [Hr Hget].
  assert (field_bounded 128 128 (Edge.grayscale image)) as Hb.
  { apply (field_pointwise _ _ _ _ Hr). intros y x Hy Hx. rewrite Hget by done.
    pose proof (pixelIs_pixels image y x 128 128 128 (Hu y x Hy Hx)) as Hp.
    cbv zeta in Hp |- *. destruct Hp as (-> & -> & ->).
    rewrite luminance_of_Z. simpl. pose proof (lum_gray 128) as Hl.
    change (inject_Z 128) with 128 in Hl. lra. }
  clear Hget Hu.
  set (h := image_height image) in *. set (w := image_width image) in *.
  set (gray := Edge.grayscale image) in *.
  assert (∀ y x, (y < h)%nat → (x < w)%nat →
    get2 NaN (gaussianBlur gray) y x =
      if interior h w y x then weightedAverage gray y x else Fin 0) as Hblur.
  { intros y x Hy Hx. destruct (gaussianBlur_get gray h w y x Hr) as [_ ->]; [lia|].
    destruct (interior h w y x); [done|]. rewrite bool_decide_eq_true_2; [done|lia]. }
  destruct (gaussianBlur_get gray h w 0 0 Hr) as [Hr1 _]; [lia|].
  destruct (weightedAverage_bounded 128 128 gray h w 2 2 Hr Hb) as (c & Hc & Hc128).
  { unfold interior, inside. apply bool_decide_eq_true_2. lia. }
  assert (field_bounded 0 128 (gaussianBlur gray)) as Hb1.
  { apply (gaussianBlur_bounded gray h w 0 128 Hr); [lia| |lra|lra].
    eapply Forall_impl; [apply Hb|]. intros row Hrow.
    eapply Forall_impl; [apply Hrow|]. intros v Hv.
    eapply bounded_weaken; [| |apply Hv]; lra. }
  set (blurred := gaussianBlur gray) in *.
  destruct (magnitudes_get blurred h w 1 1 Hr1) as [Hr2 Hmag]; [lia|].
  assert (∃ m, get2 NaN (magnitudes blurred) 1 1 = Fin m ∧ 0 < m) as (m & Hm & Hmpos).
  { rewrite Hmag by lia. unfold inside. rewrite bool_decide_eq_true_2 by lia.
    unfold magnitudeAt, gradient, for_lt. simpl loop_from.
    rewrite !Hblur by lia. unfold interior, inside.
    repeat (rewrite bool_decide_eq_false_2 by lia).
    rewrite bool_decide_eq_true_2 by lia. rewrite Hc.
    repeat match goal with
    | |- context [weight ?k ?a ?b] =>
        let v := eval vm_compute in (weight k a b) in
        change (weight k a b) with v
    end.
    cbn [JS.add JS.mul]. unfold JS.sqrt.
    match goal with |- context [Qltb ?e 0] =>
      assert (e == 32768) as He by (ring_simplify; nra) end.
    rewrite (Qltb_proper _ 32768 0 0 He) by reflexivity.
    change (Qltb 32768 0) with false. cbv iota.
    rewrite (Qsqrt_comp _ 32768 He).
    eexists. split; [reflexivity|]. vm_compute. reflexivity. }
  destruct (field_bounded_above_exists (magnitudes blurred)) as (top & Htop).
  { by apply (magnitudes_nonneg 0 128 blurred h w Hr1); [lia|]. }
  destruct (fieldMax_Fin 0 top (magnitudes blurred) h w Hr2) as (M & HM & HbM & _);
    [lia|lia|done|].
  destruct (get2_bounded 0 M (magnitudes blurred) h w 1 1 Hr2 HbM) as (m' & Hm' & HmM);
    [lia|lia|].
  rewrite Hm in Hm'. injection Hm' as <-.
  destruct (normalize_get (magnitudes blurred) h w Hr2) as [_ Hnorm]; [lia|].
  unfold Edge.edgeField, cannyEdgeDetection. fold gray. fold blurred.
  rewrite Hnorm by lia. rewrite Hm, HM, div_Fin by lra. cbn [JS.mul].
  eexists. split; [reflexivity|].
  assert (0 < m / M) as Hq by (apply Qlt_shift_div_l; lra). lra.
Qed.


(** C4, amended.  For every raster of at least 5x5 pixels that is
    (128,128,128) everywhere and every grid not larger than the raster: no
    cell is suppressed, its [isExtreme] flag being false and its mean
    luminance being 128 up to rounding (between 127 and 129); the edge field
    is not zero everywhere, it is positive at row 1, column 1, next to the
    zero border of the smoothed field; the edge-aware selector gives each
    cell the glyph at the index computed from the cell's own mean edge
    strength and mean luminance; the colour selector gives each cell the
    glyph at the index computed from its mean luminance, the same glyph for
    every cell of the grid, and the colour (128,128,128). *)
Theorem uniform_gray_cells charSet image width height y x :
  uniform image 128 128 128 →
  (5 ≤ image_width image)%nat → (5 ≤ image_height image)%nat →
  (1 ≤ width ≤ image_width image)%nat →
  (1 ≤ height ≤ image_height image)%nat →
  (y < height)%nat → (x < width)%nat →
  let e := edgeBlock image width height y x in
  let edgeStrength := mean (Edge.edgeStrength e) (Edge.pixelCount e) in
  let brightness := mean (Edge.brightness e) (Edge.pixelCount e) in
  let out := Color.imageToAsciiWithColor charSet image width height in
  (∃ m, brightness = Fin m ∧ 127 <= m <= 129) ∧
  suppressed (Edge.isExtreme e) brightness = false ∧
  (∃ v, get2 NaN (Edge.edgeField image) 1 1 = Fin v ∧ 0 < v) ∧
  get2 Undefined (Edge.imageToAscii charSet image width height) y x =
    charAt charSet (Edge.charIndex charSet edgeStrength brightness) ∧
  get2 Undefined out.1 y x = charAt charSet (Color.charIndex charSet brightness) ∧
  (∀ y' x', (y' < height)%nat → (x' < width)%nat →
     get2 Undefined out.1 y' x' = get2 Undefined out.1 y x) ∧
  get2 {| r := NaN; g := NaN; b := NaN |} out.2 y x =
    {| r := Fin 128; g := Fin 128; b := Fin 128 |}.
Proof.
  intros Hu Hiw Hih Hw Hh Hy Hx. cbv zeta.
  assert (∀ y' x', (y' < height)%nat → (x' < width)%nat →
    get2 Undefined (Color.imageToAsciiWithColor charSet image width height).1 y' x'
      = charAt charSet (Color.charIndex charSet (Fin 128))) as Hsame.
  { intros y' x' Hy' Hx'.
    destruct (colorBlock_uniform image 128 128 128 width height y' x' Hu Hw Hh Hy' Hx')
      as (Hext & (m & Hm & Hm128) & _).
    destruct (imageToAsciiWithColor_cell charSet image width height)
      as (_ & _ & Hcolor).
    destruct (Hcolor y' x' Hy' Hx') as [-> _]. unfold Color.glyph.
    rewrite Hext, Hm. change (extremeColor 128 128 128) with false.
    assert (m == 128) as Hm' by (rewrite Hm128; apply (lum_gray 128)).
    rewrite suppressed_midrange by lra. f_equal. by apply Color_charIndex_proper. }
  destruct (colorBlock_uniform image 128 128 128 width height y x Hu Hw Hh Hy Hx)
    as (Hext & (m & Hm & Hm128) & Havg).
  assert (m == 128) as Hm' by (rewrite Hm128; apply (lum_gray 128)).
  destruct (imageToAscii_cell charSet image width height) as [_ Hedge].
  destruct (imageToAsciiWithColor_cell charSet image width height)
    as (_ & _ & Hcolor).
  destruct (Hcolor y x Hy Hx) as [Hglyph Hrgb]. simpl in Hglyph, Hrgb.
  rewrite (Hedge y x Hy Hx), Hrgb, Havg.
  split; [|split; [|split; [by apply gray_edge_corner|]]].
  - unfold edgeBlock.
    destruct (sampleBlock_agree image (Edge.edgeField image)
      (image_width image / width) (image_height image / height)
      (x * (image_width image / width)) (y * (image_height image / height)))
      as (-> & -> & _).
    fold (colorBlock image width height y x). rewrite Hm. exists m. split; [done|lra].
  - unfold edgeBlock.
    destruct (sampleBlock_agree image (Edge.edgeField image)
      (image_width image / width) (image_height image / height)
      (x * (image_width image / width)) (y * (image_height image / height)))
      as (-> & -> & ->).
    fold (colorBlock image width height y x). rewrite Hext, Hm.
    change (extremeColor 128 128 128) with false. apply suppressed_midrange. lra.
  - unfold Edge.glyph, edgeBlock.
    destruct (sampleBlock_agree image (Edge.edgeField image)
      (image_width image / width) (image_height image / height)
      (x * (image_width image / width)) (y * (image_height image / height)))
      as (Hb & Hn & He).
    rewrite Hb, Hn, He.
    fold (colorBlock image width height y x). rewrite Hext, Hm.
    change (extremeColor 128 128 128) with false.
    rewrite suppressed_midrange by lra.
    split; [done|]. split; [|split; [|done]].
    + rewrite Hglyph. unfold Color.glyph. rewrite Hext, Hm.
      change (extremeColor 128 128 128) with false.
      by rewrite suppressed_midrange by lra.
    + intros y' x' Hy' Hx'. by rewrite !Hsame.
Qed.

(** ** Orders *)

(** With a character set of at least 3 glyphs, the edge-combined glyph index
    never decreases when the edge strength or the luminance grows. *)
Theorem edge_index_monotone charSet (e1 e2 b1 b2 : Q) :
  (3 ≤ length charSet)%nat → e1 <= e2 → b1 <= b2 →
  ∃ i1 i2 : Z,
    Edge.charIndex charSet (Fin e1) (Fin b1) ==n of_Z i1 ∧
    Edge.charIndex charSet (Fin e2) (Fin b2) ==n of_Z i2 ∧ (i1 ≤ i2)%Z.
Proof.
  intros Hlen He Hb. unfold Edge.charIndex, length_minus, of_Z.
  cbn [JS.mul JS.add]. rewrite !div_Fin by lra. cbn [JS.mul JS.floor JS.add].
  set (range := (Z.of_nat (length charSet) - 3)%Z).
  assert (0 <= inject_Z range) as Hr.
  { change 0 with (inject_Z 0). rewrite <- Zle_Qle. lia. }
  exists (Qfloor ((e1 * (7 # 10) + b1 * (3 # 10)) / 255 * inject_Z range) + 1)%Z,
         (Qfloor ((e2 * (7 # 10) + b2 * (3 # 10)) / 255 * inject_Z range) + 1)%Z.
  split; [simpl; by rewrite inject_Z_plus|].
  split; [simpl; by rewrite inject_Z_plus|].
  apply Z.add_le_mono_r. apply Qfloor_resp_le.
  apply Qmult_le_compat_r; [|done].
  apply Qle_shift_div_l; [lra|].
  assert (∀ s, s / 255 * 255 == s) as Hdiv by (intros s; field).
  rewrite Hdiv. lra.
Qed.

Lemma edge_index_monotone_witness :
  ∃ i1 i2 : Z,
    Edge.charIndex defaultCharSet (Fin 0) (Fin 128) ==n of_Z i1 ∧
    Edge.charIndex defaultCharSet (Fin 255) (Fin 128) ==n of_Z i2 ∧ (i1 ≤ i2)%Z.
Proof.
  apply (edge_index_monotone defaultCharSet 0 255 128 128).
  - simpl. lia.
  - discriminate.
  - discriminate.
Defined.

(** ** Instances *)

Lemma well_formed_solid w h cr cg cb :
  (0 < w)%nat → (0 < h)%nat →
  (0 ≤ cr ≤ 255)%Z → (0 ≤ cg ≤ 255)%Z → (0 ≤ cb ≤ 255)%Z →
  well_formed (solid w h cr cg cb).
Proof.
  intros Hw Hh Hr Hg Hb. unfold well_formed, solid. simpl.
  split; [done|]. split; [done|]. split.
  - induction (w * h)%nat as [|n IH]; [done|]. simpl. rewrite IH. lia.
  - induction (w * h)%nat as [|n IH]; [constructor|]. simpl.
    repeat (constructor; [lia|]). done.
Qed.

Lemma imageToAsciiWithColor_cell_local_witness :
  get2 Undefined
    (Color.imageToAsciiWithColor defaultCharSet twoPixels 2 1).1 0 0
  = get2 Undefined
    (Color.imageToAsciiWithColor defaultCharSet (solid 2 1 255 0 0) 2 1).1 0 0.
Proof.
  apply (imageToAsciiWithColor_cell_local defaultCharSet twoPixels
    (solid 2 1 255 0 0) 2 1 0 0); try reflexivity; try lia.
  intros py px (Hy & _ & Hx & _). simpl in Hy, Hx.
  assert (py = 0%nat) as -> by lia. assert (px = 0%nat) as -> by lia.
  repeat split.
Defined.

Lemma uniform_block_colour_witness :
  get2 {| r := NaN; g := NaN; b := NaN |}
    (Color.imageToAsciiWithColor defaultCharSet twoPixels 2 1).2 0 1
  = {| r := of_Z 0; g := of_Z 0; b := of_Z 255 |}.
Proof.
  apply (uniform_block_colour defaultCharSet twoPixels 2 1 0 1 0 0 255);
    try (simpl; lia).
  intros py px (Hy & _ & Hx & _). simpl in Hy, Hx.
  assert (py = 0%nat) as -> by lia. assert (px = 1%nat) as -> by lia.
  repeat split.
Defined.

Lemma oversized_grid_is_blank_witness :
  get2 Undefined
    (Color.imageToAsciiWithColor defaultCharSet (solid 1 1 100 100 100) 2 1).1 0 1
  = blank.
Proof.
  apply (oversized_grid_is_blank defaultCharSet (solid 1 1 100 100 100) 2 1 0 1).
  - left. simpl. lia.
  - lia.
  - lia.
Defined.

Lemma colour_selector_is_safe_witness :
  ∃ cr cg cb : Z,
    get2 {| r := NaN; g := NaN; b := NaN |}
      (Color.imageToAsciiWithColor defaultCharSet (solid 2 2 100 100 100) 2 2).2 0 0
      = {| r := of_Z cr; g := of_Z cg; b := of_Z cb |} ∧
    (0 ≤ cr ≤ 255)%Z ∧ (0 ≤ cg ≤ 255)%Z ∧ (0 ≤ cb ≤ 255)%Z.
Proof.
  apply (colour_selector_is_safe defaultCharSet (solid 2 2 100 100 100) 2 2 0 0).
  - apply well_formed_solid; lia.
  - simpl. lia.
  - simpl. lia.
  - simpl. lia.
  - lia.
  - lia.
Defined.

Lemma normalize_maximum_is_255_witness :
  fieldMax (normalize [[Fin 0; Fin 2]; [Fin 1; Fin 0]]) ==n Fin 255.
Proof.
  apply (normalize_maximum_is_255 [[Fin 0; Fin 2]; [Fin 1; Fin 0]] 2 2 2).
  - split; [reflexivity | repeat constructor].
  - lia.
  - lia.
  - repeat constructor; discriminate.
  - exists 0%nat, 1%nat, 2. repeat split; lia.
Defined.

Lemma cannyEdgeDetection_flat_field_witness :
  allNaN 3 3 (cannyEdgeDetection (mkArray2 3 3 (Fin 7))).
Proof.
  apply (cannyEdgeDetection_flat_field (mkArray2 3 3 (Fin 7)) 3 3 7).
  - split; [reflexivity | repeat constructor].
  - lia.
  - lia.
  - lia.
  - intros y x Hy Hx. by apply get2_mkArray2.
Defined.

Lemma cannyEdgeDetection_range_witness :
  let edges := cannyEdgeDetection [[Fin 0; Fin 0; Fin 0]; [Fin 0; Fin 0; Fin 9];
                                   [Fin 0; Fin 9; Fin 9]] in
  rect 3 3 edges ∧
  (allNaN 3 3 edges ∨ field_bounded 0 255 edges ∧ fieldMax edges ==n Fin 255).
Proof.
  apply (cannyEdgeDetection_range
    [[Fin 0; Fin 0; Fin 0]; [Fin 0; Fin 0; Fin 9]; [Fin 0; Fin 9; Fin 9]] 3 3).
  - split; [reflexivity | repeat constructor].
  - lia.
  - lia.
  - repeat constructor; discriminate.
Defined.

Lemma gaussianBlur_small_field_witness :
  gaussianBlur (mkArray2 4 6 (Fin 9)) = mkArray2 4 6 (Fin 0).
Proof.
  apply (gaussianBlur_small_field (mkArray2 4 6 (Fin 9)) 4 6).
  - split; [reflexivity | repeat constructor].
  - lia.
  - left. lia.
Defined.

Lemma grayscale_range_witness :
  field_bounded 0 255 (Edge.grayscale (solid 2 2 10 20 30)).
Proof.
  apply (grayscale_range (solid 2 2 10 20 30)).
  apply well_formed_solid; lia.
Defined.

Lemma small_image_blank_or_undefined_witness :
  get2 Undefined (Edge.imageToAscii defaultCharSet (solid 4 4 128 128 128) 2 2) 0 0
    = blank ∨
  get2 Undefined (Edge.imageToAscii defaultCharSet (solid 4 4 128 128 128) 2 2) 0 0
    = Undefined.
Proof.
  apply (small_image_blank_or_undefined defaultCharSet (solid 4 4 128 128 128) 2 2 0 0).
  - simpl. lia.
  - simpl. lia.
  - left. simpl. lia.
  - lia.
  - lia.
Defined.

Lemma edge_selector_cells_witness :
  let cell :=
    get2 Undefined (Edge.imageToAscii defaultCharSet (solid 5 5 128 128 128) 5 5) 1 2 in
  cell = blank ∨
  (∃ (i : nat) c, (1 ≤ i ≤ length defaultCharSet - 2)%nat ∧
     defaultCharSet !! i = Some c ∧ cell = Str [c]) ∨
  (cell = Undefined ∧ allNaN 5 5 (Edge.edgeField (solid 5 5 128 128 128))).
Proof.
  apply (edge_selector_cells defaultCharSet (solid 5 5 128 128 128) 5 5 1 2).
  - apply well_formed_solid; lia.
  - simpl. lia.
  - simpl. lia.
  - simpl. lia.
  - lia.
  - lia.
Defined.

Lemma black_and_white_frame_draws_nothing_witness :
  ∃ c, Main.convertImageToAscii testOptions (Main.Decoded (solid 1 1 0 0 0)) = Main.Ok c ∧
       Main.drawn c = [].
Proof.
  eexists. split; [vm_compute; reflexivity|].
  eapply (black_and_white_frame_draws_nothing testOptions (solid 1 1 0 0 0)).
  - apply uniform_blackOrWhite. left. apply solid_uniform.
  - vm_compute. reflexivity.
Defined.

Lemma batch_converts_every_frame_witness :
  (Main.convertFramesToAscii testOptions
     [Main.Decoded (solid 1 1 100 100 100); Main.Decoded (solid 1 1 9 9 9)]
     emptyWorld).1 = Main.Ok tt.
Proof.
  apply (batch_converts_every_frame testOptions
    [Main.Decoded (solid 1 1 100 100 100); Main.Decoded (solid 1 1 9 9 9)] emptyWorld).
  repeat constructor; eexists; vm_compute; reflexivity.
Defined.

Lemma batch_stops_at_first_failure_witness :
  (Main.convertFramesToAscii halfHeight
     ([] ++ Main.Decoded (solid 1 1 9 9 9) :: [Main.Decoded (solid 1 1 9 9 9)])
     emptyWorld).1 = Main.Throw Main.RangeError.
Proof.
  apply (batch_stops_at_first_failure halfHeight [] (Main.Decoded (solid 1 1 9 9 9))
    [Main.Decoded (solid 1 1 9 9 9)] Main.RangeError emptyWorld).
  - constructor.
  - vm_compute. reflexivity.
Defined.

Lemma uniform_gray_cells_witness :
  let image := solid 5 5 128 128 128 in
  (∃ v, get2 NaN (Edge.edgeField image) 1 1 = Fin v ∧ 0 < v) ∧
  get2 {| r := NaN; g := NaN; b := NaN |}
    (Color.imageToAsciiWithColor defaultCharSet image 5 5).2 0 0
  = {| r := Fin 128; g := Fin 128; b := Fin 128 |}.
Proof.
  destruct (uniform_gray_cells defaultCharSet (solid 5 5 128 128 128) 5 5 0 0)
    as (_ & _ & Hedge & _ & _ & _ & Hrgb).
  - apply solid_uniform.
  - simpl. lia.
  - simpl. lia.
  - simpl. lia.
  - simpl. lia.
  - lia.
  - lia.
  - split; [exact Hedge | exact Hrgb].
Defined.
